(** * Directory diff viewer: classifier, aligner and scan

    A shallow embedding of [src/driver/main.py] (class [DiffViewer]) and of
    the parts of Python's [difflib] (CPython 3.11) and [str] that it calls.

    Modelling conventions.
    - A Python [str] is a list of Unicode code points ([list N]).
    - Python floats are modelled by exact rationals ([Q]); the thresholds
      and ratios of the program are far from the magnitudes at which
      rounding of a binary64 division could change a comparison.
    - Python lists are Rocq lists, Python dicts are [gmap]s, indices are
      natural numbers.
    - A Python generator is modelled by the list of the values it yields.
    - Code that may raise returns an [outcome]. Python's recursion limit
      is not modelled: directories are taken to nest, and diffs to recurse,
      less deeply than it allows. The widgets of the user interface are
      not modelled.
    - The file system is a tree of files and directories on POSIX;
      symbolic links and directories that cannot be listed are not
      modelled.
    - Of the tags of the two text widgets only ['diff'] and ['missing']
      are modelled; the syntax tags that [apply_syntax] sets are not. *)

From Stdlib Require Import QArith.
From stdpp Require Import gmap sorting lexico list strings.

Local Open Scope nat_scope.
Local Set Warnings "-register-all".

(** ** Text *)

Abbreviation text := (list N) (only parsing).

(** [str "abc"] is the text of an ASCII literal. *)
Definition str (s : string) : text :=
  Ascii.N_of_ascii <$> String.list_ascii_of_string s.

Definition LF : N := 10%N.
Definition CR : N := 13%N.
Definition SPACE : N := 32%N.

(** The characters at which [str.splitlines] breaks lines. *)
Definition is_linebreak (c : N) : bool :=
  bool_decide (c ∈ [10; 11; 12; 13; 28; 29; 30; 133; 8232; 8233]%N).

(** [str.isspace] on one character. *)
Definition isspace (c : N) : bool :=
  bool_decide (c ∈ [9; 10; 11; 12; 13; 28; 29; 30; 31; 32; 133; 160; 5760;
    8192; 8193; 8194; 8195; 8196; 8197; 8198; 8199; 8200; 8201; 8202;
    8232; 8233; 8239; 8287; 12288]%N).

(** [s.splitlines(keepends)]: a line ends at a line break character, the
    pair CR LF counts as one break, and a final line without a break still
    counts. *)
Fixpoint splitlines (keepends : bool) (s : text) : list text :=
  match s with
  | [] => []
  | c :: rest =>
      if is_linebreak c then
        match rest with
        | c' :: rest' =>
            if bool_decide (c = CR) && bool_decide (c' = LF)
            then (if keepends then [c; c'] else []) :: splitlines keepends rest'
            else (if keepends then [c] else []) :: splitlines keepends rest
        | [] => [if keepends then [c] else []]
        end
      else
        match splitlines keepends rest with
        | [] => [[c]]
        | line :: lines => (c :: line) :: lines
        end
  end.

(** [s.rstrip()] *)
Fixpoint rstrip (s : text) : text :=
  match s with
  | [] => []
  | c :: rest =>
      match rstrip rest with
      | [] => if isspace c then [] else [c]
      | rest' => c :: rest'
      end
  end.

(** [s.startswith(prefix)] *)
Fixpoint startswith (prefix s : text) : bool :=
  match prefix, s with
  | [], _ => true
  | p :: prefix', c :: s' => bool_decide (p = c) && startswith prefix' s'
  | _ :: _, [] => false
  end.

(** ** difflib.SequenceMatcher (isjunk=None, autojunk=True) *)

(** [Match(a, b, size)] *)
Abbreviation Match := (nat * nat * nat)%type (only parsing).

(** The order of Python tuples, used by [matching_blocks.sort()]. *)
Definition match_leb (x y : Match) : bool :=
  let '(i1, j1, k1) := x in
  let '(i2, j2, k2) := y in
  (i1 <? i2) || ((i1 =? i2) && ((j1 <? j2) || ((j1 =? j2) && (k1 <=? k2)))).

Definition match_le (x y : Match) : Prop := match_leb x y = true.

Global Instance match_le_dec x y : Decision (match_le x y).
Proof. unfold match_le. apply _. Defined.

Inductive tag := Replace | Delete | Insert | Equal.

Global Instance tag_eq_dec : EqDecision tag.
Proof. solve_decision. Defined.

(** An opcode [(tag, i1, i2, j1, j2)]. *)
Abbreviation opcode := (tag * nat * nat * nat * nat)%type (only parsing).

(** [_calculate_ratio(matches, length)] *)
Definition calculate_ratio (matches length : nat) : Q :=
  if length =? 0 then 1%Q
  else (inject_Z (2 * Z.of_nat matches) / inject_Z (Z.of_nat length))%Q.

Definition Qltb (x y : Q) : bool := negb (Qle_bool y x).

Module SequenceMatcher.
Section generic.
Context {A : Type} `{Countable A}.

(** [a[i] == b[j]] for indices inside both sequences. *)
Definition elt_eqb (a b : list A) (i j : nat) : bool :=
  match a !! i, b !! j with
  | Some x, Some y => bool_decide (x = y)
  | _, _ => false
  end.

(** [__chain_b]: [b2j] maps each element of [b] to the ascending list of
    its indices; with 200 elements or more, the elements that occur more
    than [n // 100 + 1] times ("popular") are removed. No element is
    junk, since [isjunk] is [None]. *)
Definition b2j_all (b : list A) : gmap A (list nat) :=
  foldl (λ b2j '(i, elt), <[elt := default [] (b2j !! elt) ++ [i]]> b2j)
        ∅ (imap pair b).

Definition popular_in (b : list A) (idxs : list nat) : bool :=
  let n := length b in
  (200 <=? n) && (n / 100 + 1 <? length idxs).

Definition chain_b (b : list A) : gmap A (list nat) :=
  filter (λ kv, popular_in b kv.2 = false) (b2j_all b).

Definition isbjunk (x : A) : bool := false.

Section matcher.
Variables a b : list A.

Definition b2j : gmap A (list nat) := chain_b b.

(** The body of [for j in b2j.get(a[i], nothing)]. *)
Fixpoint flm_row (i blo bhi : nat) (j2len : gmap nat nat) (js : list nat)
    (newj2len : gmap nat nat) (best : Match) : gmap nat nat * Match :=
  match js with
  | [] => (newj2len, best)
  | j :: js' =>
      if j <? blo then flm_row i blo bhi j2len js' newj2len best
      else if bhi <=? j then (newj2len, best)
      else
        let k := match j with
                 | 0 => 0
                 | S j' => default 0 (j2len !! j')
                 end + 1 in
        let best' := if best.2 <? k then (i + 1 - k, j + 1 - k, k) else best in
        flm_row i blo bhi j2len js' (<[j := k]> newj2len) best'
  end.

(** The body of [for i in range(alo, ahi)]. *)
Definition flm_step (blo bhi : nat) (st : gmap nat nat * Match) (i : nat)
    : gmap nat nat * Match :=
  let js := match a !! i with
            | Some x => default [] (b2j !! x)
            | None => []
            end in
  flm_row i blo bhi st.1 js ∅ st.2.

(** The four [while] loops that extend the best block at both ends,
    first over elements that are not junk, then over junk. *)
Fixpoint extend_back (junk : bool) (alo blo besti bestj bestsize : nat) : Match :=
  match besti, bestj with
  | S i', S j' =>
      if (alo <? besti) && (blo <? bestj)
         && bool_decide (from_option isbjunk false (b !! j') = junk)
         && elt_eqb a b i' j'
      then extend_back junk alo blo i' j' (S bestsize)
      else (besti, bestj, bestsize)
  | _, _ => (besti, bestj, bestsize)
  end.

Fixpoint extend_fwd (junk : bool) (n : nat) (ahi bhi besti bestj bestsize : nat) : nat :=
  match n with
  | 0 => bestsize
  | S n' =>
      if (besti + bestsize <? ahi) && (bestj + bestsize <? bhi)
         && bool_decide (from_option isbjunk false (b !! (bestj + bestsize)) = junk)
         && elt_eqb a b (besti + bestsize) (bestj + bestsize)
      then extend_fwd junk n' ahi bhi besti bestj (S bestsize)
      else bestsize
  end.

Definition find_longest_match (alo ahi blo bhi : nat) : Match :=
  let '(_, (besti, bestj, bestsize)) :=
    foldl (flm_step blo bhi) (∅, (alo, blo, 0)) (seq alo (ahi - alo)) in
  let '(besti, bestj, bestsize) :=
    extend_back false alo blo besti bestj bestsize in
  let bestsize :=
    extend_fwd false (ahi - (besti + bestsize)) ahi bhi besti bestj bestsize in
  let '(besti, bestj, bestsize) :=
    extend_back true alo blo besti bestj bestsize in
  let bestsize :=
    extend_fwd true (ahi - (besti + bestsize)) ahi bhi besti bestj bestsize in
  (besti, bestj, bestsize).

(** The [while queue:] loop of [get_matching_blocks]. The head of the
    list is the top of the Python stack ([queue.pop()]); [fuel] bounds
    the number of iterations. *)
Fixpoint mb_loop (fuel : nat) (queue : list (nat * nat * nat * nat))
    (matching_blocks : list Match) : list Match :=
  match fuel, queue with
  | S fuel', (alo, ahi, blo, bhi) :: queue' =>
      let '(i, j, k) := find_longest_match alo ahi blo bhi in
      if k =? 0 then mb_loop fuel' queue' matching_blocks
      else
        let q1 := if (alo <? i) && (blo <? j)
                  then (alo, i, blo, j) :: queue' else queue' in
        let q2 := if (i + k <? ahi) && (j + k <? bhi)
                  then (i + k, ahi, j + k, bhi) :: q1 else q1 in
        mb_loop fuel' q2 (matching_blocks ++ [(i, j, k)])
  | _, _ => matching_blocks
  end.

(** The loop that merges adjacent blocks. *)
Definition collapse_step (st : Match * list Match) (blk : Match)
    : Match * list Match :=
  let '((i1, j1, k1), non_adjacent) := st in
  let '(i2, j2, k2) := blk in
  if (i1 + k1 =? i2) && (j1 + k1 =? j2)
  then ((i1, j1, k1 + k2), non_adjacent)
  else ((i2, j2, k2),
        if k1 =? 0 then non_adjacent else non_adjacent ++ [(i1, j1, k1)]).

Definition get_matching_blocks : list Match :=
  let la := length a in
  let lb := length b in
  let matching_blocks :=
    merge_sort match_le (mb_loop (2 * la + 1) [(0, la, 0, lb)] []) in
  let '((i1, j1, k1), non_adjacent) :=
    foldl collapse_step ((0, 0, 0), []) matching_blocks in
  let non_adjacent :=
    if k1 =? 0 then non_adjacent else non_adjacent ++ [(i1, j1, k1)] in
  non_adjacent ++ [(la, lb, 0)].

(** The loop of [get_opcodes]. *)
Definition opcode_step (st : nat * nat * list opcode) (blk : Match)
    : nat * nat * list opcode :=
  let '(i, j, answer) := st in
  let '(ai, bj, size) := blk in
  let answer :=
    if (i <? ai) && (j <? bj) then answer ++ [(Replace, i, ai, j, bj)]
    else if i <? ai then answer ++ [(Delete, i, ai, j, bj)]
    else if j <? bj then answer ++ [(Insert, i, ai, j, bj)]
    else answer in
  let answer :=
    if size =? 0 then answer
    else answer ++ [(Equal, ai, ai + size, bj, bj + size)] in
  (ai + size, bj + size, answer).

Definition get_opcodes : list opcode :=
  (foldl opcode_step (0, 0, []) get_matching_blocks).2.

(** [ratio()] *)
Definition ratio : Q :=
  calculate_ratio (sum_list (snd <$> get_matching_blocks))
                  (length a + length b).

(** [quick_ratio()]: the size of the multiset intersection. *)
Definition fullbcount : gmap A Z :=
  foldl (λ m elt, <[elt := (default 0 (m !! elt) + 1)%Z]> m) ∅ b.

Definition quick_step (st : gmap A Z * nat) (elt : A) : gmap A Z * nat :=
  let '(avail, matches) := st in
  let numb := match avail !! elt with
              | Some n => n
              | None => default 0%Z (fullbcount !! elt)
              end in
  (<[elt := (numb - 1)%Z]> avail,
   if (0 <? numb)%Z then matches + 1 else matches).

Definition quick_ratio : Q :=
  calculate_ratio (foldl quick_step (∅, 0) a).2 (length a + length b).

(** [real_quick_ratio()] *)
Definition real_quick_ratio : Q :=
  calculate_ratio (length a `min` length b) (length a + length b).
End matcher.
End generic.
End SequenceMatcher.

(** ** difflib.Differ (linejunk=None, charjunk=None) *)

Module Differ.
Definition MINUS : N := 45%N.
Definition PLUS : N := 43%N.
Definition QUESTION : N := 63%N.
Definition CARET : N := 94%N.

(** [_dump(tag, x, lo, hi)]: yields ['%s %s' % (tag, x[i])]. *)
Definition dump (tagc : N) (x : list text) (lo hi : nat) : list text :=
  (λ line, tagc :: SPACE :: line) <$> take (hi - lo) (drop lo x).

(** [_plain_replace] *)
Definition plain_replace (a : list text) (alo ahi : nat)
    (b : list text) (blo bhi : nat) : list text :=
  if bhi - blo <? ahi - alo
  then dump PLUS b blo bhi ++ dump MINUS a alo ahi
  else dump MINUS a alo ahi ++ dump PLUS b blo bhi.

(** [_keep_original_ws(s, tag_s)] *)
Definition keep_original_ws (s tag_s : text) : text :=
  zip_with (λ c tag_c, if bool_decide (tag_c = SPACE) && isspace c
                       then c else tag_c) s tag_s.

(** [_qformat(aline, bline, atags, btags)] *)
Definition qformat (aline bline atags btags : text) : list text :=
  let atags := rstrip (keep_original_ws aline atags) in
  let btags := rstrip (keep_original_ws bline btags) in
  [MINUS :: SPACE :: aline]
  ++ (if atags is [] then [] else [QUESTION :: SPACE :: atags ++ [LF]])
  ++ [PLUS :: SPACE :: bline]
  ++ (if btags is [] then [] else [QUESTION :: SPACE :: btags ++ [LF]]).

(** The loop of [_fancy_replace] that builds [atags] and [btags] from the
    character opcodes of the synch pair. *)
Definition tags_step (st : text * text) (op : opcode) : text * text :=
  let '(atags, btags) := st in
  let '(tg, ai1, ai2, bj1, bj2) := op in
  let la := ai2 - ai1 in
  let lb := bj2 - bj1 in
  match tg with
  | Replace => (atags ++ replicate la CARET, btags ++ replicate lb CARET)
  | Delete => (atags ++ replicate la MINUS, btags)
  | Insert => (atags, btags ++ replicate lb PLUS)
  | Equal => (atags ++ replicate la SPACE, btags ++ replicate lb SPACE)
  end.

(** The state of the search of [_fancy_replace]: [best_ratio], the pair
    [(best_i, best_j)] once it is bound, and [(eqi, eqj)]. *)
Record search := Search {
  best_ratio : Q;
  best_ij : option (nat * nat);
  eq_ij : option (nat * nat)
}.

Definition cutoff : Q := 0.75%Q.

(** The body of [for i in range(alo, ahi)]. *)
Definition search_step (a : list text) (bj : text) (j : nat)
    (st : search) (i : nat) : search :=
  match a !! i with
  | None => st
  | Some ai =>
      if bool_decide (ai = bj) then
        match eq_ij st with
        | None => Search (best_ratio st) (best_ij st) (Some (i, j))
        | Some _ => st
        end
      else if Qltb (best_ratio st) (SequenceMatcher.real_quick_ratio ai bj)
              && Qltb (best_ratio st) (SequenceMatcher.quick_ratio ai bj)
              && Qltb (best_ratio st) (SequenceMatcher.ratio ai bj)
      then Search (SequenceMatcher.ratio ai bj) (Some (i, j)) (eq_ij st)
      else st
  end.

(** The body of [for j in range(blo, bhi)]. *)
Definition search_row (a : list text) (alo ahi : nat) (b : list text)
    (st : search) (j : nat) : search :=
  match b !! j with
  | None => st
  | Some bj => foldl (search_step a bj j) st (seq alo (ahi - alo))
  end.

Definition search_pairs (a : list text) (alo ahi : nat)
    (b : list text) (blo bhi : nat) : search :=
  foldl (search_row a alo ahi b) (Search 0.74%Q None None) (seq blo (bhi - blo)).

(** The synch point chosen after the search: [None] when the block is a
    straight replace, otherwise [(best_i, best_j, identical)] where
    [identical] says that [eqi] is not [None]. *)
Definition synch_point (st : search) : option (nat * nat * bool) :=
  if Qltb (best_ratio st) cutoff then
    match eq_ij st with
    | None => None
    | Some (eqi, eqj) => Some (eqi, eqj, true)
    end
  else
    match best_ij st with
    | Some (best_i, best_j) => Some (best_i, best_j, false)
    | None => None (* not reached: best_ratio is raised only with best_i *)
    end.

(** [_fancy_helper], given the generator to use for a block that is not
    empty on both sides. *)
Definition fancy_helper (replace : nat → nat → nat → nat → list text)
    (a : list text) (alo ahi : nat) (b : list text) (blo bhi : nat)
    : list text :=
  if alo <? ahi then
    if blo <? bhi then replace alo ahi blo bhi
    else dump MINUS a alo ahi
  else if blo <? bhi then dump PLUS b blo bhi
  else [].

(** [_fancy_replace]. The recursion goes through [_fancy_helper] on the
    blocks before and after the synch pair; [depth] bounds its depth and
    [ahi - alo] is always enough. *)
Fixpoint fancy_replace (depth : nat) (a : list text) (b : list text)
    (alo ahi blo bhi : nat) : list text :=
  match synch_point (search_pairs a alo ahi b blo bhi), depth with
  | Some (best_i, best_j, identical), S depth' =>
      let aelt := default [] (a !! best_i) in
      let belt := default [] (b !! best_j) in
      fancy_helper (fancy_replace depth' a b) a alo best_i b blo best_j
      ++ (if identical then [SPACE :: SPACE :: aelt]
          else
            let '(atags, btags) :=
              foldl tags_step ([], []) (SequenceMatcher.get_opcodes aelt belt) in
            qformat aelt belt atags btags)
      ++ fancy_helper (fancy_replace depth' a b) a (best_i + 1) ahi b (best_j + 1) bhi
  | _, _ => plain_replace a alo ahi b blo bhi
  end.

(** [compare(a, b)] *)
Definition compare_opcode (a b : list text) (op : opcode) : list text :=
  let '(tg, alo, ahi, blo, bhi) := op in
  match tg with
  | Replace => fancy_replace (ahi - alo) a b alo ahi blo bhi
  | Delete => dump MINUS a alo ahi
  | Insert => dump PLUS b blo bhi
  | Equal => dump SPACE a alo ahi
  end.

Definition compare (a b : list text) : list text :=
  SequenceMatcher.get_opcodes a b ≫= compare_opcode a b.

(** [difflib.restore(delta, which)] *)
Definition restore (delta : list text) (which : nat) : list text :=
  let tagc := if which =? 1 then MINUS else PLUS in
  omap (λ line,
          if bool_decide (take 2 line = [SPACE; SPACE])
             || bool_decide (take 2 line = [tagc; SPACE])
          then Some (drop 2 line) else None) delta.
End Differ.

(** ** src/driver/main.py *)

(** The result of running Python code that may raise. *)
Inductive outcome (A : Type) : Type :=
  | Returned (x : A)
  | Raised.
Arguments Returned {A} x.
Arguments Raised {A}.

Global Instance outcome_bind : MBind outcome := λ A B f m,
  match m with
  | Returned x => f x
  | Raised => Raised
  end.

(** [try: body  except Exception: handler] *)
Definition try_except {A} (body handler : outcome A) : outcome A :=
  match body with
  | Returned x => Returned x
  | Raised => handler
  end.

Module DiffViewer.
  (** A [pathlib.Path]: the sequence of its segments. Paths are ordered as
      Python orders them on POSIX, segment by segment. *)
Abbreviation path := (list (list N)) (only parsing).

Definition path_le (p q : path) : Prop := p = q ∨ lexico p q.

Global Instance path_le_dec p q : Decision (path_le p q).
Proof.
  refine (match trichotomyT lexico p q with
          | inleft (left Hlt) => left (or_intror Hlt)
          | inleft (right Heq) => left (or_introl Heq)
          | inright Hgt => right _
          end).
  abstract (intros [-> | Hlt];
            [exact (irreflexivity lexico q Hgt)
            | exact (irreflexivity lexico q (transitivity Hgt Hlt))]).
Defined.

Definition IGNORED_DIRS_DEFAULT : list (list N) :=
  str <$> [".git"; ".svn"; ".hg"; "__pycache__"; "build"; "dist"; "out";
           ".idea"; ".vscode"; ".vs"; ".gradle"; ".dart_tool"; "node_modules";
           ".cache"; ".pytest_cache"; "target"]%string.

(** The file system: a file with its decoded content ([None] when it
    cannot be read), or a directory with its entries. *)
Inductive node :=
  | File (content : option (list N))
  | Dir (entries : list (list N * node)).

Fixpoint lookup_node (n : node) (p : path) : option node :=
  match p with
  | [] => Some n
  | name :: p' =>
      match n with
      | File _ => None
      | Dir entries =>
          (fix find (es : list (list N * node)) : option node :=
             match es with
             | [] => None
             | (name', child) :: es' =>
                 if bool_decide (name' = name) then lookup_node child p'
                 else find es'
             end) entries
      end
  end.

(** [Path(p).read_text(encoding='utf-8', errors='ignore')] *)
Definition read_text (fs : node) (p : path) : outcome (list N) :=
  match lookup_node fs p with
  | Some (File (Some content)) => Returned content
  | _ => Raised
  end.

(** [Path(p).exists()] *)
Definition exists_ (fs : node) (p : path) : bool :=
  bool_decide (is_Some (lookup_node fs p)).

(** The files that [os.walk] reaches below a directory, relative to it,
    once the ignored directory names are pruned. *)
Fixpoint walk (n : node) : list path :=
  match n with
  | File _ => []
  | Dir entries =>
      (entries ≫= λ '(name, child),
         match child with File _ => [[name]] | Dir _ => [] end)
      ++ (entries ≫= λ '(name, child),
            match child with
            | File _ => []
            | Dir _ =>
                if bool_decide (name ∈ IGNORED_DIRS_DEFAULT) then []
                else (name ::.) <$> walk child
            end)
  end.

(** Whether [os.fsencode] accepts a character of a path (UTF-8 with
    [surrogateescape]): it is not NUL and it is no surrogate other than
    the escapes U+DC80 to U+DCFF. *)
Definition fsencodable_char (c : N) : bool :=
  negb (c =? 0)%N
  && (negb ((55296 <=? c)%N && (c <=? 57343)%N)
      || ((56448 <=? c)%N && (c <=? 56575)%N)).

(** Whether a path can be given to the operating system. For a path that
    cannot, [os.scandir] raises [ValueError] (for a surrogate its subclass
    [UnicodeEncodeError]), which [os.walk] does not catch. *)
Definition fsencodable (p : path) : bool :=
  forallb (forallb fsencodable_char) p.

(** The dict that [list_files] builds once [os.walk] has taken the root:
    [os.walk] yields nothing for a root that is not a directory. *)
Definition listing (fs : node) (base : path) : gmap path path :=
  match lookup_node fs base with
  | Some (Dir entries) =>
      foldl (λ result rel, <[rel := base ++ rel]> result) ∅ (walk (Dir entries))
  | _ => ∅
  end.

(** [list_files(base)]. The loop over [os.walk(base)] is outside the
    [try], so the [ValueError] of [os.walk] for a root that cannot be
    given to the operating system leaves [list_files]. *)
Definition list_files (fs : node) (base : path) : outcome (gmap path path) :=
  if fsencodable base then Returned (listing fs base) else Raised.

(** *** Core logic *)

Definition is_changed (line : list N) : bool :=
  startswith (str "+ ") line || startswith (str "- ") line.

(** The local variables of [has_significant_changes]. *)
Definition max_lines (content1 content2 : list N) : nat :=
  length (splitlines false content1) `max` length (splitlines false content2).

Definition changed_lines (content1 content2 : list N) : nat :=
  let diff := Differ.compare (splitlines false content1)
                             (splitlines false content2) in
  length (filter (λ line, is_changed line = true) diff).

Definition change_ratio (content1 content2 : list N) : Q :=
  (inject_Z (Z.of_nat (changed_lines content1 content2))
   / inject_Z (Z.of_nat (max_lines content1 content2)))%Q.

Definition truthy (s : list N) : bool := if s is [] then false else true.

Definition has_significant_changes (min_change_threshold : Q)
    (content1 content2 : list N) : bool :=
  if (negb (truthy content1) && truthy content2)
     || (negb (truthy content2) && truthy content1)
  then true
  else if negb (truthy content1) && negb (truthy content2) then false
  else if max_lines content1 content2 =? 0 then false
  else Qle_bool min_change_threshold (change_ratio content1 content2).

(** An element of [file_pairs]: [(f1, f2, rel)]. *)
Abbreviation file_pair :=
  (option (list (list N)) * option (list (list N)) * list (list N))%type
  (only parsing).

Section scan.
  (** [classify] stands for the bound method
      [self.has_significant_changes]. *)
Variable classify : list N → list N → bool.
Variable fs : node.

Definition all_paths (files1 files2 : gmap path path) : list path :=
  merge_sort path_le (elements (dom files1 ∪ dom files2)).

(** The body of [for rel in all_paths]. *)
Definition scan_path (files1 files2 : gmap path path)
    (file_pairs : list file_pair) (rel : path) : outcome (list file_pair) :=
  let f1 := files1 !! rel in
  let f2 := files2 !! rel in
  match f1, f2 with
  | Some p1, Some p2 =>
      try_except
        (content1 ← read_text fs p1;
         content2 ← read_text fs p2;
         if bool_decide (content1 ≠ content2) && classify content1 content2
         then Returned (file_pairs ++ [(f1, f2, rel)])
         else Returned file_pairs)
        (Returned (file_pairs ++ [(f1, f2, rel)]))
  | _, _ => Returned (file_pairs ++ [(f1, f2, rel)])
  end.

Fixpoint scan_paths (files1 files2 : gmap path path)
    (file_pairs : list file_pair) (paths : list path)
    : outcome (list file_pair) :=
  match paths with
  | [] => Returned file_pairs
  | rel :: paths' =>
      (file_pairs ← scan_path files1 files2 file_pairs rel;
       scan_paths files1 files2 file_pairs paths')
  end.

Definition scan_files (files1 files2 : gmap path path)
    (file_pairs : list file_pair) : outcome (list file_pair) :=
  scan_paths files1 files2 file_pairs (all_paths files1 files2).
End scan.

(** *** Highlighting *)

(** The tags that [highlight_diff] leaves on the two text widgets: the
    line numbers tagged ['diff'] and whether the whole text is tagged
    ['missing']. *)
Record marks := Marks {
  left_diff : list nat;
  right_diff : list nat;
  left_missing : bool;
  right_missing : bool
}.

(** The script computed at line 252. *)
Definition aligned (c1 c2 : list N) : list (list N) :=
  Differ.compare (splitlines true c1) (splitlines true c2).

(** The body of [for line in diff]; the state is [(l, r)] and the tags. *)
Definition highlight_step (st : nat * nat * list nat * list nat)
    (line : list N) : nat * nat * list nat * list nat :=
  let '(l, r, lefts, rights) := st in
  if startswith (str "- ") line then (l + 1, r, lefts ++ [l], rights)
  else if startswith (str "+ ") line then (l, r + 1, lefts, rights ++ [r])
  else if startswith (str "  ") line then (l + 1, r + 1, lefts, rights)
  else st.

Definition highlight_diff (c1 c2 : list N) : marks :=
  if negb (truthy c1) && truthy c2 then Marks [] [] false true
  else if negb (truthy c2) && truthy c1 then Marks [] [] true false
  else
    let '(_, _, lefts, rights) :=
      foldl highlight_step (1, 1, [], []) (aligned c1 c2) in
    Marks lefts rights false false.

(** *** The viewer *)

Record viewer := Viewer {
  dir1 : path;
  dir2 : path;
  file_pairs : list file_pair;
  current_index : nat;
  original_left : list N;
  original_right : list N;
  min_change_threshold : Q;
  tags : marks
}.

Definition scan_directories (fs : node) (self : viewer) : outcome viewer :=
  files1 ← list_files fs (dir1 self);
  files2 ← list_files fs (dir2 self);
  pairs ← scan_files (has_significant_changes (min_change_threshold self))
                     fs files1 files2 (file_pairs self);
  Returned (Viewer (dir1 self) (dir2 self) pairs (current_index self)
                   (original_left self) (original_right self)
                   (min_change_threshold self) (tags self)).

(** [Path(f).read_text(...) if f and Path(f).exists() else ""] *)
Definition read_side (fs : node) (f : option path) : outcome (list N) :=
  match f with
  | Some p => if exists_ fs p then read_text fs p else Returned []
  | None => Returned []
  end.

Definition load_file_pair (fs : node) (self : viewer) (index : nat)
    : outcome viewer :=
  match file_pairs self !! index with
  | None => Returned self
  | Some (f1, f2, rel) =>
      (c1 ← read_side fs f1;
       c2 ← read_side fs f2;
       Returned (Viewer (dir1 self) (dir2 self) (file_pairs self) index
                        c1 c2 (min_change_threshold self)
                        (highlight_diff c1 c2)))
  end.

(** [DiffViewer.__init__], without the widgets. *)
Definition init (fs : node) (dir1 dir2 : path) (min_change_threshold : Q)
    : outcome viewer :=
  let self := Viewer dir1 dir2 [] 0 [] [] min_change_threshold
                     (Marks [] [] false false) in
  (self ← scan_directories fs self;
   if file_pairs self is [] then Returned self
   else load_file_pair fs self 0).
End DiffViewer.

(** * Verification *)

Import SequenceMatcher Differ DiffViewer.

(** The examples of the documentation of [difflib]. *)

Example matching_blocks_doc :
  get_matching_blocks (str "abxcd") (str "abcd") = [(0, 0, 2); (3, 2, 2); (5, 4, 0)].
Proof. vm_compute. reflexivity. Qed.

Example opcodes_doc :
  get_opcodes (str "qabxcd") (str "abycdf")
  = [(Delete, 0, 1, 0, 0); (Equal, 1, 3, 0, 2); (Replace, 3, 4, 2, 3);
     (Equal, 4, 6, 3, 5); (Insert, 6, 6, 5, 6)].
Proof. vm_compute. reflexivity. Qed.

Example fancy_replace_doc :
  fancy_replace 1 [str "abcDefghiJkl" ++ [LF]] [str "abcdefGhijkl" ++ [LF]] 0 1 0 1
  = [str "- abcDefghiJkl" ++ [LF]; str "?    ^  ^  ^" ++ [LF];
     str "+ abcdefGhijkl" ++ [LF]; str "?    ^  ^  ^" ++ [LF]].
Proof. vm_compute. reflexivity. Qed.

(** * Properties of the text primitives *)

Lemma splitlines_cons_nonempty keepends c s : splitlines keepends (c :: s) ≠ [].
Proof.
  simpl. destruct (is_linebreak c).
  - destruct s as [|c' s']; [done|]. by destruct (_ && _).
  - by destruct (splitlines keepends s).
Qed.

Lemma splitlines_nonempty keepends s : s ≠ [] → splitlines keepends s ≠ [].
Proof. destruct s; [done|]. intros _. apply splitlines_cons_nonempty. Qed.

Lemma splitlines_length_pos keepends s :
  s ≠ [] → 0 < length (splitlines keepends s).
Proof.
  intros Hs. pose proof (splitlines_nonempty keepends s Hs).
  destruct (splitlines keepends s); simpl; [done | lia].
Qed.

Lemma splitlines_cons keepends c rest :
  splitlines keepends (c :: rest) =
  if is_linebreak c then
    match rest with
    | c' :: rest' =>
        if bool_decide (c = CR) && bool_decide (c' = LF)
        then (if keepends then [c; c'] else []) :: splitlines keepends rest'
        else (if keepends then [c] else []) :: splitlines keepends rest
    | [] => [if keepends then [c] else []]
    end
  else
    match splitlines keepends rest with
    | [] => [[c]]
    | line :: lines => (c :: line) :: lines
    end.
Proof. done. Qed.

(** Joining the lines that keep their terminators gives the text back. *)
Lemma splitlines_concat s : concat (splitlines true s) = s.
Proof.
  remember (length s) as n eqn:Hn. revert s Hn.
  induction n as [n IH] using lt_wf_ind. intros [|c s] Hn; [done|].
  rewrite splitlines_cons. destruct (is_linebreak c).
  - destruct s as [|c' s']; [done|].
    destruct (_ && _); cbn [concat app]; f_equal.
    + f_equal. apply (IH (length s')); simpl in *; lia.
    + apply (IH (length (c' :: s'))); simpl in *; [lia | done].
  - pose proof (IH (length s) ltac:(simpl in *; lia) s eq_refl) as IHs.
    destruct (splitlines true s) as [|line lines]; simpl in *.
    + by rewrite <-IHs.
    + by rewrite <-IHs.
Qed.

(** A final line feed after an unterminated last line adds no line. *)
Lemma splitlines_final_newline s c :
  last s = Some c → is_linebreak c = false →
  splitlines false (s ++ [LF]) = splitlines false s.
Proof.
  remember (length s) as n eqn:Hn. revert s Hn.
  induction n as [n IH] using lt_wf_ind. intros [|c0 s] Hn Hlast Hc; [done|].
  rewrite <-app_comm_cons.
  destruct s as [|c1 s].
  { simpl in *. simplify_eq. by rewrite !Hc. }
  assert (last (c1 :: s) = Some c) as Hlast1 by done.
  rewrite !splitlines_cons. rewrite <-app_comm_cons.
  destruct (is_linebreak c0) eqn:Hc0.
  - destruct (bool_decide (c0 = CR) && bool_decide (c1 = LF)) eqn:Hcrlf.
    + apply andb_prop in Hcrlf as [_ Hlf%bool_decide_eq_true].
      destruct s as [|c2 s].
      { simpl in Hlast1. by simplify_eq. }
      f_equal. apply (IH (length (c2 :: s))); [simpl in *; lia | done | done | done].
    + f_equal. rewrite app_comm_cons.
      apply (IH (length (c1 :: s))); [simpl in *; lia | done | done | done].
  - rewrite app_comm_cons.
    rewrite (IH (length (c1 :: s)) ltac:(simpl in *; lia) (c1 :: s) eq_refl Hlast1 Hc).
    done.
Qed.

(** * Loop invariants *)

Lemma foldl_seq_invariant {St : Type} (P : nat → St → Prop) (f : St → nat → St)
    (init : St) (start len : nat) :
  P start init →
  (∀ i st, start ≤ i < start + len → P i st → P (i + 1) (f st i)) →
  P (start + len) (foldl f init (seq start len)).
Proof.
  revert start init. induction len as [|len IH]; intros start init Hinit Hstep.
  - by rewrite Nat.add_0_r.
  - simpl. replace (start + S len) with (S start + len) by lia.
    apply IH.
    + replace (S start) with (start + 1) by lia. apply Hstep; [lia | done].
    + intros i st Hi. apply Hstep. lia.
Qed.

Lemma filter_ext_elem_of {B : Type} (P Q : B → Prop)
    `{∀ x, Decision (P x)} `{∀ x, Decision (Q x)} (l : list B) :
  (∀ x, x ∈ l → P x ↔ Q x) → filter P l = filter Q l.
Proof.
  induction l as [|x l IH]; intros HPQ; [done|].
  rewrite !filter_cons, IH by (intros; apply HPQ; by right).
  pose proof (HPQ x ltac:(left)). repeat case_decide; naive_solver.
Qed.

Lemma Permutation_block_middle {B : Type} (x : B) (acc L R C : list B) :
  (acc ++ [x]) ++ R ++ L ++ C ≡ₚ acc ++ (L ++ x :: R) ++ C.
Proof.
  rewrite <-!(assoc_L (++)). apply Permutation_app_head. simpl.
  rewrite <-Permutation_middle. constructor.
  rewrite !(assoc_L (++)). apply Permutation_app_tail, Permutation_app_comm.
Qed.

(** * SequenceMatcher *)

Section matcher_facts.
Context {A : Type} `{Countable A}.

(** The indices at which [x] occurs in [b], in ascending order. *)
Definition indices (x : A) (b : list A) : list nat :=
  filter (λ j, b !! j = Some x) (seq 0 (length b)).

Lemma indices_snoc x b y :
  indices x (b ++ [y])
  = indices x b ++ (if decide (y = x) then [length b] else []).
Proof.
  unfold indices. rewrite length_app, seq_app, filter_app. simpl. f_equal.
  - apply filter_ext_elem_of. intros j Hj.
    apply elem_of_seq in Hj. by rewrite lookup_app_l by lia.
  - rewrite filter_cons, filter_nil.
    rewrite list_lookup_middle by done.
    destruct (decide (y = x)); repeat case_decide; naive_solver.
Qed.

Lemma b2j_all_lookup b x :
  b2j_all b !! x = if indices x b is [] then None else Some (indices x b).
Proof.
  induction b as [|y b IH] using rev_ind; [done|].
  unfold b2j_all in *. rewrite imap_app, foldl_app. simpl.
  rewrite Nat.add_0_r, indices_snoc.
  destruct (decide (y = x)) as [->|Hne].
  - rewrite lookup_insert_eq, IH.
    destruct (indices x b); simpl; [done|].
    by destruct (l ++ [length b]) eqn:E; [destruct l; simplify_eq/= |].
  - rewrite lookup_insert_ne by done. by rewrite app_nil_r.
Qed.

Lemma b2j_lookup_Some b x js :
  b2j b !! x = Some js → js = indices x b ∧ js ≠ [].
Proof.
  unfold b2j, chain_b. intros [Hall _]%map_lookup_filter_Some.
  rewrite b2j_all_lookup in Hall. by destruct (indices x b); simplify_eq.
Qed.

Lemma elem_of_indices x b j : j ∈ indices x b ↔ b !! j = Some x.
Proof.
  unfold indices. rewrite list_elem_of_filter, elem_of_seq. split; [naive_solver|].
  intros Hj. split; [done|]. apply lookup_lt_Some in Hj. lia.
Qed.

Variables a b : list A.

Lemma elt_eqb_true i j :
  elt_eqb a b i j = true ↔ ∃ x, a !! i = Some x ∧ b !! j = Some x.
Proof.
  unfold elt_eqb. destruct (a !! i), (b !! j); try naive_solver.
  rewrite bool_decide_eq_true. naive_solver.
Qed.

(** [a[i:i+k] == b[j:j+k]], element by element. *)
Definition matches (i j k : nat) : Prop :=
  ∀ t, t < k → elt_eqb a b (i + t) (j + t) = true.

Lemma matches_0 i j : matches i j 0.
Proof. intros t ?. lia. Qed.

Lemma matches_snoc i j k :
  matches i j k → elt_eqb a b (i + k) (j + k) = true → matches i j (S k).
Proof.
  intros Hm He t Ht. destruct (decide (t = k)) as [->|]; [done|].
  apply Hm. lia.
Qed.

Lemma matches_cons i j k :
  elt_eqb a b i j = true → matches (S i) (S j) k → matches i j (S k).
Proof.
  intros He Hm [|t] Ht; [by rewrite !Nat.add_0_r|].
  replace (i + S t) with (S i + t) by lia.
  replace (j + S t) with (S j + t) by lia. apply Hm. lia.
Qed.

Lemma matches_app i j k1 k2 :
  matches i j k1 → matches (i + k1) (j + k1) k2 → matches i j (k1 + k2).
Proof.
  intros H1 H2 t Ht. destruct (decide (t < k1)); [by apply H1|].
  replace t with (k1 + (t - k1)) by lia. rewrite !Nat.add_assoc.
  apply H2. lia.
Qed.

Lemma matches_take_drop i j k :
  matches i j k → take k (drop i a) = take k (drop j b).
Proof.
  intros Hm. apply list_eq. intros t.
  destruct (decide (t < k)) as [Ht|Ht].
  - rewrite !lookup_take_lt, !lookup_drop by done.
    destruct (proj1 (elt_eqb_true _ _) (Hm t Ht)) as (x & -> & ->). done.
  - by rewrite !lookup_take_ge by lia.
Qed.

Lemma matches_length i j k :
  matches i j k → 0 < k → i + k ≤ length a ∧ j + k ≤ length b.
Proof.
  intros Hm Hk. pose proof (Hm (k - 1) ltac:(lia)) as He.
  apply elt_eqb_true in He as (x & Hxa & Hxb).
  apply lookup_lt_Some in Hxa, Hxb. lia.
Qed.

(** *** [find_longest_match] returns a matching block inside the region *)

Section region.
Variables alo ahi blo bhi : nat.
Hypothesis Ha : alo ≤ ahi.
Hypothesis Hb : blo ≤ bhi.

(** Every entry [j2len[j] = k] of the row that ends before row [e] is a
    matching block of length [k] that ends at [(e - 1, j)]. *)
Definition row_ok (e : nat) (j2len : gmap nat nat) : Prop :=
  ∀ j k, j2len !! j = Some k →
    0 < k ∧ alo + k ≤ e ∧ blo + k ≤ j + 1 ∧ j < bhi
    ∧ matches (e - k) (j + 1 - k) k.

Definition best_ok (e : nat) (best : nat * nat * nat) : Prop :=
  let '(besti, bestj, bestsize) := best in
  alo ≤ besti ∧ besti + bestsize ≤ e ∧ blo ≤ bestj ∧ bestj + bestsize ≤ bhi
  ∧ matches besti bestj bestsize.

Lemma best_ok_mono e e' best : e ≤ e' → best_ok e best → best_ok e' best.
Proof. destruct best as [[??]?]. unfold best_ok. intros. intuition lia. Qed.

Lemma flm_row_ok i j2len js newj2len best :
  alo ≤ i →
  row_ok i j2len →
  (∀ j, j ∈ js → elt_eqb a b i j = true) →
  row_ok (i + 1) newj2len → best_ok (i + 1) best →
  row_ok (i + 1) (flm_row i blo bhi j2len js newj2len best).1
  ∧ best_ok (i + 1) (flm_row i blo bhi j2len js newj2len best).2.
Proof.
  intros Hi Hprev. revert newj2len best.
  induction js as [|j js IH]; intros newj2len best Hjs Hnew Hbest; [done|].
  simpl. destruct (j <? blo) eqn:Hjlo.
  { apply IH; [|done..]. intros. apply Hjs. by right. }
  destruct (bhi <=? j) eqn:Hjhi; [done|].
  apply Nat.ltb_ge in Hjlo. apply Nat.leb_gt in Hjhi.
  assert (elt_eqb a b i j = true) as Hij by (apply Hjs; left).
  set (prev := match j with 0 => 0 | S j' => default 0 (j2len !! j') end).
  assert (alo + prev ≤ i ∧ blo + prev ≤ j
          ∧ matches (i - prev) (j - prev) prev) as (Hp1 & Hp2 & Hp3).
  { subst prev. destruct j as [|j'].
    { split_and!; [lia | lia | apply matches_0]. }
    destruct (j2len !! j') as [k|] eqn:Hk; simpl.
    - destruct (Hprev _ _ Hk) as (? & ? & ? & ? & Hm).
      split_and!; [lia | lia |].
      by replace (S j' - k) with (j' + 1 - k) by lia.
    - split_and!; [lia | lia | apply matches_0]. }
  assert (matches (i + 1 - (prev + 1)) (j + 1 - (prev + 1)) (prev + 1)) as Hm.
  { replace (i + 1 - (prev + 1)) with (i - prev) by lia.
    replace (j + 1 - (prev + 1)) with (j - prev) by lia.
    rewrite Nat.add_1_r. apply matches_snoc; [done|].
    by replace (i - prev + prev) with i by lia;
       replace (j - prev + prev) with j by lia. }
  apply IH.
  - intros. apply Hjs. by right.
  - intros j0 k0. destruct (decide (j = j0)) as [<-|Hne].
    + rewrite lookup_insert_eq. intros [= <-]. split_and!; [lia..|done].
    + rewrite lookup_insert_ne by done. apply Hnew.
  - destruct best as [[bi bj] bs]. simpl. destruct (bs <? prev + 1); [|done].
    unfold best_ok. split_and!; [lia..|done].
Qed.

Lemma flm_step_ok i st :
  alo ≤ i →
  row_ok i st.1 → best_ok i st.2 →
  row_ok (i + 1) (flm_step a b blo bhi st i).1
  ∧ best_ok (i + 1) (flm_step a b blo bhi st i).2.
Proof.
  intros Hi Hrow Hbest. unfold flm_step. apply flm_row_ok; try done.
  - intros j Hj. apply elt_eqb_true. destruct (a !! i) as [x|] eqn:Hx.
    + destruct (b2j b !! x) as [js|] eqn:Hjs; simpl in Hj.
      * apply b2j_lookup_Some in Hjs as [-> _].
        apply elem_of_indices in Hj. eauto.
      * by apply elem_of_nil in Hj.
    + by apply elem_of_nil in Hj.
  - eapply best_ok_mono; [|done]. lia.
Qed.

Lemma flm_loop_ok :
  best_ok ahi (foldl (flm_step a b blo bhi) (∅, (alo, blo, 0))
                     (seq alo (ahi - alo))).2.
Proof.
  cut (row_ok (alo + (ahi - alo))
         (foldl (flm_step a b blo bhi) (∅, (alo, blo, 0)) (seq alo (ahi - alo))).1
       ∧ best_ok (alo + (ahi - alo))
           (foldl (flm_step a b blo bhi) (∅, (alo, blo, 0)) (seq alo (ahi - alo))).2).
  { replace (alo + (ahi - alo)) with ahi by lia. by intros [_ ?]. }
  apply (foldl_seq_invariant (λ i st, row_ok i st.1 ∧ best_ok i st.2)).
  - split; [intros j k; simpl; by rewrite lookup_empty|].
    simpl. split_and!; [lia..|apply matches_0].
  - intros i st Hi [??]. apply flm_step_ok; [lia|done..].
Qed.

Lemma extend_back_ok junk besti bestj bestsize :
  best_ok ahi (besti, bestj, bestsize) →
  best_ok ahi (extend_back a b junk alo blo besti bestj bestsize).
Proof.
  revert bestj bestsize. induction besti as [|i' IH]; intros bestj bestsize Hok.
  { by destruct bestj. }
  destruct bestj as [|j']; [done|]. simpl.
  destruct (_ && _) eqn:Hc; [|done].
  apply andb_prop in Hc as [Hc He]. apply andb_prop in Hc as [Hc _].
  apply andb_prop in Hc as [Hc1 Hc2]. apply Nat.ltb_lt in Hc1, Hc2.
  apply IH. destruct Hok as (? & ? & ? & ? & Hm).
  split_and!; [lia..|by apply matches_cons].
Qed.

Lemma extend_fwd_ok junk n besti bestj bestsize :
  best_ok ahi (besti, bestj, bestsize) →
  best_ok ahi (besti, bestj, extend_fwd a b junk n ahi bhi besti bestj bestsize).
Proof.
  revert bestsize. induction n as [|n IH]; intros bestsize Hok; [done|].
  simpl. destruct (_ && _) eqn:Hc; [|done].
  apply andb_prop in Hc as [Hc He]. apply andb_prop in Hc as [Hc _].
  apply andb_prop in Hc as [Hc1 Hc2]. apply Nat.ltb_lt in Hc1, Hc2.
  apply IH. destruct Hok as (? & ? & ? & ? & Hm).
  split_and!; [lia..|by apply matches_snoc].
Qed.

Lemma find_longest_match_ok :
  best_ok ahi (find_longest_match a b alo ahi blo bhi).
Proof.
  unfold find_longest_match. pose proof flm_loop_ok as Hloop.
  destruct (foldl _ _ _) as [j2len [[bi bj] bs]]. simpl in Hloop.
  pose proof (extend_back_ok false _ _ _ Hloop) as H1.
  destruct (extend_back a b false _ _ _ _ _) as [[bi1 bj1] bs1].
  pose proof (extend_fwd_ok false (ahi - (bi1 + bs1)) _ _ _ H1) as H2.
  set (bs2 := extend_fwd a b false _ _ _ _ _ _) in *.
  pose proof (extend_back_ok true _ _ _ H2) as H3.
  destruct (extend_back a b true _ _ _ _ _) as [[bi3 bj3] bs3].
  apply (extend_fwd_ok true (ahi - (bi3 + bs3)) _ _ _ H3).
Qed.
End region.

(** *** [get_matching_blocks] returns an increasing chain of matching blocks *)

Abbreviation region := (nat * nat * nat * nat)%type (only parsing).

Definition region_ok (r : region) : Prop :=
  let '(alo, ahi, blo, bhi) := r in alo ≤ ahi ∧ blo ≤ bhi.

Definition region_size (r : region) : nat :=
  let '(alo, ahi, _, _) := r in 2 * (ahi - alo) + 1.

Definition queue_size (queue : list region) : nat :=
  sum_list (region_size <$> queue).

(** [chain i0 j0 l i1 j1]: the blocks of [l] match, are not empty, follow
    each other without overlap, start after [(i0, j0)] and end before
    [(i1, j1)]. *)
Fixpoint chain (i0 j0 : nat) (l : list (nat * nat * nat)) (i1 j1 : nat) : Prop :=
  match l with
  | [] => i0 ≤ i1 ∧ j0 ≤ j1
  | (i, j, k) :: l' =>
      i0 ≤ i ∧ j0 ≤ j ∧ 0 < k ∧ matches i j k ∧ chain (i + k) (j + k) l' i1 j1
  end.

(** The blocks that the queue loop collects from one region, in
    ascending order. *)
Inductive explored : region → list (nat * nat * nat) → Prop :=
  | explored_none alo ahi blo bhi i j :
      find_longest_match a b alo ahi blo bhi = (i, j, 0) →
      explored (alo, ahi, blo, bhi) []
  | explored_some alo ahi blo bhi i j k L R :
      find_longest_match a b alo ahi blo bhi = (i, j, k) →
      k ≠ 0 →
      ((alo <? i) && (blo <? j) = true ∧ explored (alo, i, blo, j) L
       ∨ (alo <? i) && (blo <? j) = false ∧ L = []) →
      ((i + k <? ahi) && (j + k <? bhi) = true
         ∧ explored (i + k, ahi, j + k, bhi) R
       ∨ (i + k <? ahi) && (j + k <? bhi) = false ∧ R = []) →
      explored (alo, ahi, blo, bhi) (L ++ (i, j, k) :: R).

Lemma chain_mono i0 j0 l i1 j1 i0' j0' i1' j1' :
  i0' ≤ i0 → j0' ≤ j0 → i1 ≤ i1' → j1 ≤ j1' →
  chain i0 j0 l i1 j1 → chain i0' j0' l i1' j1'.
Proof.
  revert i0 j0 i0' j0'. induction l as [|[[i j] k] l IH]; simpl; intros.
  - lia.
  - destruct_and!. split_and!; [lia..|done|]. eapply IH; [| |done..]; lia.
Qed.

Lemma chain_app i0 j0 l1 i1 j1 l2 i2 j2 :
  chain i0 j0 l1 i1 j1 → chain i1 j1 l2 i2 j2 → chain i0 j0 (l1 ++ l2) i2 j2.
Proof.
  revert i0 j0. induction l1 as [|[[i j] k] l1 IH]; simpl; intros i0 j0 H1 H2.
  - destruct H1. eapply chain_mono; [..|done]; lia.
  - destruct_and!. split_and!; [done..|]. by apply IH.
Qed.

Lemma explored_chain n alo ahi blo bhi l :
  ahi - alo < n → alo ≤ ahi → blo ≤ bhi →
  explored (alo, ahi, blo, bhi) l → chain alo blo l ahi bhi.
Proof.
  revert alo ahi blo bhi l. induction n as [|n IH]; [lia|].
  intros alo ahi blo bhi l Hn Ha Hb Hex.
  inversion Hex as [|? ? ? ? i j k L R Hflm Hk HL HR]; subst; [done|].
  pose proof (find_longest_match_ok alo ahi blo bhi Ha Hb) as Hok.
  rewrite Hflm in Hok. destruct Hok as (? & ? & ? & ? & Hm).
  assert (chain alo blo L i j) as HcL.
  { destruct HL as [[Hc HL]|[_ ->]]; [|done].
    apply andb_prop in Hc as [?%Nat.ltb_lt ?%Nat.ltb_lt].
    apply IH; [lia..|done]. }
  assert (chain (i + k) (j + k) R ahi bhi) as HcR.
  { destruct HR as [[Hc HR]|[_ ->]]; [|done].
    apply andb_prop in Hc as [?%Nat.ltb_lt ?%Nat.ltb_lt].
    apply IH; [lia..|done]. }
  eapply chain_app; [done|]. simpl. split_and!; [lia..|done|done].
Qed.

Lemma region_size_pos r : 0 < region_size r.
Proof. destruct r as [[[??]?]?]. simpl. lia. Qed.

Lemma queue_size_cons alo ahi blo bhi queue :
  queue_size ((alo, ahi, blo, bhi) :: queue)
  = 2 * (ahi - alo) + 1 + queue_size queue.
Proof. done. Qed.

Lemma mb_loop_explored fuel queue acc :
  Forall region_ok queue → queue_size queue ≤ fuel →
  ∃ Ls, Forall2 explored queue Ls
        ∧ mb_loop a b fuel queue acc ≡ₚ acc ++ concat Ls.
Proof.
  revert queue acc. induction fuel as [|fuel IH]; intros queue acc Hok Hsize.
  { destruct queue as [|r queue].
    - exists []. split; [constructor|]. by rewrite app_nil_r.
    - destruct r as [[[??]?]?]. rewrite queue_size_cons in Hsize. lia. }
  destruct queue as [|[[[alo ahi] blo] bhi] queue].
  { exists []. split; [constructor|]. by rewrite app_nil_r. }
  apply Forall_cons in Hok as [[Ha Hb] Hok].
  rewrite queue_size_cons in Hsize.
  simpl. pose proof (find_longest_match_ok alo ahi blo bhi Ha Hb) as Hflm.
  destruct (find_longest_match a b alo ahi blo bhi) as [[i j] k] eqn:Eflm.
  destruct Hflm as (? & ? & ? & ? & Hm).
  destruct (k =? 0) eqn:Hk.
  { apply Nat.eqb_eq in Hk as ->.
    destruct (IH queue acc Hok ltac:(lia)) as (Ls & HLs & Hperm).
    exists ([] :: Ls). split; [|done].
    constructor; [|done]. by eapply explored_none. }
  apply Nat.eqb_neq in Hk.
  set (c1 := (alo <? i) && (blo <? j)).
  set (c2 := (i + k <? ahi) && (j + k <? bhi)).
  set (q1 := if c1 then (alo, i, blo, j) :: queue else queue).
  set (q2 := if c2 then (i + k, ahi, j + k, bhi) :: q1 else q1).
  assert (Forall region_ok q2 ∧ queue_size q2 ≤ fuel) as [Hok2 Hsize2].
  { subst q2 q1.
    destruct c1 eqn:Hc1, c2 eqn:Hc2; subst c1 c2;
      repeat match goal with
             | H : _ && _ = true |- _ =>
                 apply andb_prop in H as [?%Nat.ltb_lt ?%Nat.ltb_lt]
             end;
      (split; [repeat (apply Forall_cons; split; [simpl; lia|]); done
              | rewrite ?queue_size_cons; lia]). }
  destruct (IH q2 (acc ++ [(i, j, k)]) Hok2 Hsize2) as (Ls2 & HLs2 & Hperm).
  subst q2 q1.
  destruct c1 eqn:Hc1, c2 eqn:Hc2.
  - apply Forall2_cons_inv_l in HLs2 as (R & Ls1 & HR & HLs1 & ->).
    apply Forall2_cons_inv_l in HLs1 as (L & Ls & HL & HLs & ->).
    exists ((L ++ (i, j, k) :: R) :: Ls). split.
    + constructor; [|done].
      eapply explored_some; [done | done | left; by split | left; by split].
    + rewrite Hperm. simpl. apply Permutation_block_middle.
  - apply Forall2_cons_inv_l in HLs2 as (L & Ls & HL & HLs & ->).
    exists ((L ++ (i, j, k) :: []) :: Ls). split.
    + constructor; [|done].
      eapply explored_some; [done | done | left; by split | right; by split].
    + rewrite Hperm. simpl. apply (Permutation_block_middle _ acc L [] (concat Ls)).
  - apply Forall2_cons_inv_l in HLs2 as (R & Ls & HR & HLs & ->).
    exists (([] ++ (i, j, k) :: R) :: Ls). split.
    + constructor; [|done].
      eapply explored_some; [done | done | right; by split | left; by split].
    + rewrite Hperm. simpl. by rewrite <-!(assoc_L (++)).
  - exists (([] ++ (i, j, k) :: []) :: Ls2). split.
    + constructor; [|done].
      eapply explored_some; [done | done | right; by split | right; by split].
    + rewrite Hperm. simpl. by rewrite <-!(assoc_L (++)).
Qed.

(** The number of iterations allowed to the queue loop is never reached:
    any larger bound gives the same blocks. *)
Lemma mb_loop_fuel fuel fuel' queue acc :
  Forall region_ok queue → queue_size queue ≤ fuel → queue_size queue ≤ fuel' →
  mb_loop a b fuel queue acc = mb_loop a b fuel' queue acc.
Proof.
  revert fuel' queue acc.
  induction fuel as [|fuel IH]; intros fuel' queue acc Hok Hsize Hsize'.
  { destruct queue as [|[[[??]?]?] queue]; [by destruct fuel'|].
    rewrite queue_size_cons in Hsize. lia. }
  destruct queue as [|[[[alo ahi] blo] bhi] queue]; [by destruct fuel'|].
  destruct fuel' as [|fuel'].
  { rewrite queue_size_cons in Hsize'. lia. }
  apply Forall_cons in Hok as [[Ha Hb] Hok].
  rewrite queue_size_cons in Hsize, Hsize'.
  simpl. pose proof (find_longest_match_ok alo ahi blo bhi Ha Hb) as Hflm.
  destruct (find_longest_match a b alo ahi blo bhi) as [[i j] k] eqn:Eflm.
  destruct Hflm as (? & ? & ? & ? & Hm).
  destruct (k =? 0) eqn:Hk; [apply IH; [done|lia..]|].
  apply Nat.eqb_neq in Hk.
  destruct ((alo <? i) && (blo <? j)) eqn:Hc1,
           ((i + k <? ahi) && (j + k <? bhi)) eqn:Hc2;
    repeat match goal with
           | H : _ && _ = true |- _ =>
               apply andb_prop in H as [?%Nat.ltb_lt ?%Nat.ltb_lt]
           end;
    (apply IH;
     [repeat (apply Forall_cons; split; [simpl; lia|]); done
     | rewrite ?queue_size_cons; lia
     | rewrite ?queue_size_cons; lia]).
Qed.
End matcher_facts.

Global Instance match_le_trans : Transitive match_le.
Proof.
  intros [[i1 j1] k1] [[i2 j2] k2] [[i3 j3] k3]. unfold match_le, match_leb.
  rewrite !orb_true_iff, !andb_true_iff, !orb_true_iff, !andb_true_iff,
    !Nat.ltb_lt, !Nat.eqb_eq, !Nat.leb_le. lia.
Qed.

Global Instance match_le_antisymm : AntiSymm (=) match_le.
Proof.
  intros [[i1 j1] k1] [[i2 j2] k2]. unfold match_le, match_leb.
  rewrite !orb_true_iff, !andb_true_iff, !orb_true_iff, !andb_true_iff,
    !Nat.ltb_lt, !Nat.eqb_eq, !Nat.leb_le. intros ??.
  repeat f_equal; lia.
Qed.

Global Instance match_le_total : Total match_le.
Proof.
  intros [[i1 j1] k1] [[i2 j2] k2]. unfold match_le, match_leb.
  rewrite !orb_true_iff, !andb_true_iff, !orb_true_iff, !andb_true_iff,
    !Nat.ltb_lt, !Nat.eqb_eq, !Nat.leb_le. lia.
Qed.

Section blocks_facts.
Context {A : Type} `{Countable A}.
Variables a b : list A.

Lemma chain_Sorted i0 j0 l i1 j1 : chain a b i0 j0 l i1 j1 → Sorted match_le l.
Proof.
  revert i0 j0. induction l as [|[[i j] k] l IH]; intros i0 j0 Hc; [constructor|].
  simpl in Hc. destruct Hc as (_ & _ & Hk & _ & Hc). constructor; [by eapply IH|].
  destruct l as [|[[i' j'] k'] l]; constructor.
  simpl in Hc. unfold match_le, match_leb.
  assert ((i <? i') = true) as -> by (apply Nat.ltb_lt; lia). done.
Qed.

Lemma collapse_chain rest : ∀ i1 j1 k1 out,
  chain a b 0 0 out i1 j1 → matches a b i1 j1 k1 →
  chain a b (i1 + k1) (j1 + k1) rest (length a) (length b) →
  chain a b 0 0
    (let '((i1', j1', k1'), out') :=
       foldl collapse_step ((i1, j1, k1), out) rest in
     if k1' =? 0 then out' else out' ++ [(i1', j1', k1')])
    (length a) (length b).
Proof.
  induction rest as [|[[i2 j2] k2] rest IH]; intros i1 j1 k1 out Hout Hm Hrest.
  - simpl in *. destruct (k1 =? 0) eqn:Hk.
    + eapply chain_mono; [..|done]; lia.
    + apply Nat.eqb_neq in Hk. eapply chain_app; [done|].
      simpl. split_and!; [lia..|done|lia|lia].
  - simpl in Hrest. destruct Hrest as (Hi & Hj & Hk2 & Hm2 & Hrest).
    cbn [foldl collapse_step].
    destruct ((i1 + k1 =? i2) && (j1 + k1 =? j2)) eqn:Hadj.
    + apply andb_prop in Hadj as [<-%Nat.eqb_eq <-%Nat.eqb_eq].
      apply IH; [done|by apply matches_app|].
      by rewrite !Nat.add_assoc.
    + apply IH; [|done|done].
      destruct (k1 =? 0) eqn:Hk.
      * eapply chain_mono; [..|done]; lia.
      * apply Nat.eqb_neq in Hk. eapply chain_app; [done|].
        simpl. split_and!; [lia..|done|lia|lia].
Qed.

(** [get_matching_blocks] is an increasing chain of matching blocks that
    are not empty, followed by the sentinel [(len(a), len(b), 0)]. *)
Lemma get_matching_blocks_chain :
  ∃ blocks,
    get_matching_blocks a b = blocks ++ [(length a, length b, 0)]
    ∧ chain a b 0 0 blocks (length a) (length b).
Proof.
  unfold get_matching_blocks.
  set (la := length a). set (lb := length b).
  destruct (mb_loop_explored a b (2 * la + 1) [(0, la, 0, lb)] [])
    as (Ls & HLs & Hperm).
  { repeat constructor; simpl; lia. }
  { rewrite queue_size_cons. unfold queue_size. simpl. lia. }
  apply Forall2_cons_inv_l in HLs as (l0 & Ls' & Hex & HLs & ->).
  apply Forall2_nil_inv_l in HLs as ->.
  simpl in Hperm. rewrite app_nil_r in Hperm.
  assert (chain a b 0 0 l0 la lb) as Hchain.
  { eapply (explored_chain a b (S la)); [lia..|done]. }
  assert (merge_sort match_le (mb_loop a b (2 * la + 1) [(0, la, 0, lb)] []) = l0)
    as ->.
  { apply (Sorted_unique match_le).
    - apply Sorted_merge_sort, _.
    - by eapply chain_Sorted.
    - by rewrite merge_sort_Permutation. }
  pose proof (collapse_chain l0 0 0 0 [] ltac:(simpl; lia)
                (matches_0 a b 0 0) Hchain) as Hcol.
  destruct (foldl collapse_step (0, 0, 0, []) l0) as [[[i1 j1] k1] out].
  eauto.
Qed.

(** *** [get_opcodes] *)

Lemma opcode_step_answer i j answer blk :
  opcode_step (i, j, answer) blk
  = ((opcode_step (i, j, []) blk).1.1, (opcode_step (i, j, []) blk).1.2,
     answer ++ (opcode_step (i, j, []) blk).2).
Proof.
  destruct blk as [[ai bj] size]. unfold opcode_step.
  destruct ((i <? ai) && (j <? bj)), (i <? ai), (j <? bj), (size =? 0);
    simpl; by rewrite ?app_nil_r, <-?(assoc_L (++)).
Qed.

Lemma opcodes_answer blocks i j answer :
  foldl opcode_step (i, j, answer) blocks
  = ((foldl opcode_step (i, j, []) blocks).1.1,
     (foldl opcode_step (i, j, []) blocks).1.2,
     answer ++ (foldl opcode_step (i, j, []) blocks).2).
Proof.
  revert i j answer. induction blocks as [|blk blocks IH]; intros i j answer.
  { simpl. by rewrite app_nil_r. }
  cbn [foldl]. rewrite opcode_step_answer.
  destruct (opcode_step (i, j, []) blk) as [[i' j'] answer'].
  cbn [fst snd]. rewrite (IH i' j' (answer ++ answer')), (IH i' j' answer').
  cbn [fst snd]. by rewrite (assoc_L (++)).
Qed.
End blocks_facts.

(** * Differ *)

Lemma foldl_invariant {St B : Type} (P : St → Prop) (f : St → B → St)
    (init : St) (l : list B) :
  P init → (∀ st x, x ∈ l → P st → P (f st x)) → P (foldl f init l).
Proof.
  revert init. induction l as [|x l IH]; intros init Hinit Hstep; [done|].
  simpl. apply IH.
  - apply Hstep; [by left | done].
  - intros st y Hy. apply Hstep. by right.
Qed.

Lemma take_drop_split {B : Type} (l : list B) (lo mid hi : nat) :
  lo ≤ mid ≤ hi →
  take (hi - lo) (drop lo l) = take (mid - lo) (drop lo l) ++ take (hi - mid) (drop mid l).
Proof.
  intros ?. replace (hi - lo) with ((mid - lo) + (hi - mid)) by lia.
  rewrite <-take_take_drop, drop_drop. do 3 f_equal. lia.
Qed.

Lemma take_drop_split_at {B : Type} (l : list B) (lo mid hi : nat) (x : B) :
  lo ≤ mid < hi → l !! mid = Some x →
  take (hi - lo) (drop lo l)
  = take (mid - lo) (drop lo l) ++ x :: take (hi - (mid + 1)) (drop (mid + 1) l).
Proof.
  intros ? Hx. rewrite (take_drop_split l lo mid hi) by lia. f_equal.
  rewrite (drop_S _ _ _ Hx). replace (hi - mid) with (S (hi - (mid + 1))) by lia.
  simpl. by rewrite Nat.add_1_r.
Qed.

Definition tag_of (which : nat) : N := if which =? 1 then MINUS else PLUS.

Lemma restore_nil which : restore [] which = [].
Proof. done. Qed.

Lemma restore_app d1 d2 which :
  restore (d1 ++ d2) which = restore d1 which ++ restore d2 which.
Proof. unfold restore. by rewrite omap_app. Qed.

Lemma restore_tagged c ls which :
  restore ((λ line, c :: SPACE :: line) <$> ls) which
  = if bool_decide (c = SPACE) || bool_decide (c = tag_of which) then ls else [].
Proof.
  unfold restore. fold (tag_of which).
  induction ls as [|line ls IH]; [by destruct (_ || _)|].
  cbn [fmap list_fmap omap list_omap take drop]. rewrite IH.
  repeat case_bool_decide; simplify_eq/=; try done; congruence.
Qed.

Lemma restore_dump c x lo hi which :
  restore (dump c x lo hi) which
  = if bool_decide (c = SPACE) || bool_decide (c = tag_of which)
    then take (hi - lo) (drop lo x) else [].
Proof. apply restore_tagged. Qed.

Lemma restore_plain_replace a alo ahi b blo bhi :
  restore (plain_replace a alo ahi b blo bhi) 1 = take (ahi - alo) (drop alo a)
  ∧ restore (plain_replace a alo ahi b blo bhi) 2 = take (bhi - blo) (drop blo b).
Proof.
  unfold plain_replace. destruct (_ <? _);
    rewrite !restore_app, !restore_dump; simpl; by rewrite ?app_nil_r.
Qed.

Lemma restore_qformat aline bline atags btags :
  restore (qformat aline bline atags btags) 1 = [aline]
  ∧ restore (qformat aline bline atags btags) 2 = [bline].
Proof.
  unfold qformat.
  destruct (rstrip (keep_original_ws aline atags)),
           (rstrip (keep_original_ws bline btags)); by vm_compute.
Qed.

Section search_facts.
Variables a b : list (list N).
Variables alo ahi blo bhi : nat.

Definition inside (i j : nat) : Prop := alo ≤ i < ahi ∧ blo ≤ j < bhi.

Definition search_ok (st : search) : Prop :=
  (∀ i j, best_ij st = Some (i, j) →
     inside i j ∧ is_Some (a !! i) ∧ is_Some (b !! j))
  ∧ (∀ i j, eq_ij st = Some (i, j) →
       inside i j ∧ ∃ x, a !! i = Some x ∧ b !! j = Some x).

Lemma search_step_ok bj j st i :
  alo ≤ i < ahi → blo ≤ j < bhi → b !! j = Some bj →
  search_ok st → search_ok (search_step a bj j st i).
Proof.
  intros Hi Hj Hbj Hst. unfold search_step.
  destruct (a !! i) as [ai|] eqn:Hai; [|done].
  case_bool_decide as Hsame.
  - destruct (eq_ij st) eqn:Heq'; [done|]. destruct Hst as [Hbest Heq].
    split; [done|].
    simpl. intros ?? [= <- <-]. split; [done|]. exists ai. by subst.
  - destruct (_ && _); [|done]. destruct Hst as [Hbest Heq]. split; [|done].
    simpl. intros ?? [= <- <-]. by rewrite Hai, Hbj.
Qed.

Lemma search_pairs_ok : search_ok (search_pairs a alo ahi b blo bhi).
Proof.
  unfold search_pairs. apply foldl_invariant; [done|].
  intros st j Hj%elem_of_seq Hst. unfold search_row.
  destruct (b !! j) as [bj|] eqn:Hbj; [|done].
  apply foldl_invariant; [done|].
  intros st' i Hi%elem_of_seq Hst'. apply search_step_ok; [lia..|done|done].
Qed.

Lemma synch_point_ok i j identical :
  synch_point (search_pairs a alo ahi b blo bhi) = Some (i, j, identical) →
  inside i j ∧ is_Some (a !! i) ∧ is_Some (b !! j)
  ∧ (identical = true → a !! i = b !! j).
Proof.
  pose proof search_pairs_ok as [Hbest Heq]. unfold synch_point.
  destruct (Qltb _ _).
  - destruct (eq_ij _) as [[i' j']|] eqn:E; [|done]. intros [= <- <- <-].
    destruct (Heq _ _ eq_refl) as (? & x & Hx & Hy).
    rewrite Hx, Hy. eauto.
  - destruct (best_ij _) as [[i' j']|] eqn:E; [|done]. intros [= <- <- <-].
    destruct (Hbest _ _ eq_refl) as (? & ? & ?). done.
Qed.
End search_facts.

Lemma restore_fancy_helper replace a alo ahi b blo bhi :
  (restore (replace alo ahi blo bhi) 1 = take (ahi - alo) (drop alo a)
   ∧ restore (replace alo ahi blo bhi) 2 = take (bhi - blo) (drop blo b)) →
  restore (fancy_helper replace a alo ahi b blo bhi) 1 = take (ahi - alo) (drop alo a)
  ∧ restore (fancy_helper replace a alo ahi b blo bhi) 2 = take (bhi - blo) (drop blo b).
Proof.
  intros Hrep. unfold fancy_helper.
  destruct (alo <? ahi) eqn:Ha, (blo <? bhi) eqn:Hb; [done|..];
    rewrite ?restore_dump; cbn [restore omap list_omap].
  - apply Nat.ltb_ge in Hb. replace (bhi - blo) with 0 by lia. done.
  - apply Nat.ltb_ge in Ha. replace (ahi - alo) with 0 by lia. done.
  - apply Nat.ltb_ge in Ha, Hb.
    replace (bhi - blo) with 0 by lia. replace (ahi - alo) with 0 by lia. done.
Qed.

(** The lines of a replaced block give back both sides of the block. *)
Lemma restore_fancy_replace depth a b : ∀ alo ahi blo bhi,
  restore (fancy_replace depth a b alo ahi blo bhi) 1 = take (ahi - alo) (drop alo a)
  ∧ restore (fancy_replace depth a b alo ahi blo bhi) 2 = take (bhi - blo) (drop blo b).
Proof.
  induction depth as [|depth IH]; intros alo ahi blo bhi.
  { simpl. destruct (synch_point _) as [[[??]?]|]; apply restore_plain_replace. }
  cbn [fancy_replace].
  destruct (synch_point _) as [[[best_i best_j] identical]|] eqn:Hsync;
    [|apply restore_plain_replace].
  apply synch_point_ok in Hsync as ([Hi Hj] & [aelt Ha] & [belt Hb] & Hid).
  rewrite Ha, Hb. cbn [default from_option id].
  rewrite !restore_app.
  pose proof (restore_fancy_helper (fancy_replace depth a b) a alo best_i b blo best_j
                (IH _ _ _ _)) as [-> ->].
  pose proof (restore_fancy_helper (fancy_replace depth a b) a (best_i + 1) ahi
                b (best_j + 1) bhi (IH _ _ _ _)) as [-> ->].
  rewrite (take_drop_split_at a alo best_i ahi aelt) by done.
  rewrite (take_drop_split_at b blo best_j bhi belt) by done.
  destruct identical.
  - rewrite Ha, Hb in Hid. specialize (Hid eq_refl). simplify_eq. done.
  - destruct (foldl tags_step _ _) as [atags btags]. cbv beta iota.
    destruct (restore_qformat aelt belt atags btags) as [-> ->]. done.
Qed.

(** The bound [ahi - alo] on the depth of the recursion is never reached:
    any larger bound gives the same lines. *)
Lemma fancy_replace_depth a b depth : ∀ depth' alo ahi blo bhi,
  ahi - alo ≤ depth → ahi - alo ≤ depth' →
  fancy_replace depth a b alo ahi blo bhi = fancy_replace depth' a b alo ahi blo bhi.
Proof.
  induction depth as [|depth IH]; intros depth' alo ahi blo bhi Hd Hd'.
  - destruct depth' as [|depth']; [done|]. cbn [fancy_replace].
    destruct (synch_point _) as [[[best_i best_j] identical]|] eqn:Hsync; [|done].
    apply synch_point_ok in Hsync as ([Hi Hj] & _). lia.
  - destruct depth' as [|depth'].
    { cbn [fancy_replace].
      destruct (synch_point _) as [[[best_i best_j] identical]|] eqn:Hsync; [|done].
      apply synch_point_ok in Hsync as ([Hi Hj] & _). lia. }
    cbn [fancy_replace].
    destruct (synch_point _) as [[[best_i best_j] identical]|] eqn:Hsync; [|done].
    apply synch_point_ok in Hsync as ([Hi Hj] & _).
    unfold fancy_helper.
    rewrite (IH depth' alo best_i blo best_j) by lia.
    rewrite (IH depth' (best_i + 1) ahi (best_j + 1) bhi) by lia. done.
Qed.

(** ** [Differ.compare] gives back both sequences *)

Section compare_facts.
Variables a b : list (list N).

Lemma restore_compare_opcode tg alo ahi blo bhi :
  (tg = Equal → take (ahi - alo) (drop alo a) = take (bhi - blo) (drop blo b)) →
  (tg = Delete → bhi - blo = 0) → (tg = Insert → ahi - alo = 0) →
  restore (compare_opcode a b (tg, alo, ahi, blo, bhi)) 1 = take (ahi - alo) (drop alo a)
  ∧ restore (compare_opcode a b (tg, alo, ahi, blo, bhi)) 2 = take (bhi - blo) (drop blo b).
Proof.
  intros Heq Hdel Hins. destruct tg; simpl.
  - apply restore_fancy_replace.
  - rewrite !restore_dump. simpl. by rewrite Hdel.
  - rewrite !restore_dump. simpl. by rewrite Hins.
  - rewrite !restore_dump. simpl. by rewrite Heq.
Qed.

Lemma restore_opcodes blocks : ∀ i j,
  chain a b i j blocks (length a) (length b) →
  restore ((foldl opcode_step (i, j, []) (blocks ++ [(length a, length b, 0)])).2
           ≫= compare_opcode a b) 1 = drop i a
  ∧ restore ((foldl opcode_step (i, j, []) (blocks ++ [(length a, length b, 0)])).2
             ≫= compare_opcode a b) 2 = drop j b.
Proof.
  induction blocks as [|[[ai bj] size] blocks IH]; intros i j Hchain.
  - simpl in Hchain. destruct Hchain as [Hi Hj]. cbn [app foldl opcode_step].
    rewrite Nat.eqb_refl.
    assert (drop i a = take (length a - i) (drop i a)) as ->.
    { by rewrite take_ge by (rewrite length_drop; lia). }
    assert (drop j b = take (length b - j) (drop j b)) as ->.
    { by rewrite take_ge by (rewrite length_drop; lia). }
    destruct (i <? length a) eqn:Hia, (j <? length b) eqn:Hjb;
      cbn [andb snd app mbind list_bind]; rewrite ?app_nil_r.
    + by apply restore_compare_opcode.
    + apply Nat.ltb_ge in Hjb. apply restore_compare_opcode; [done|lia|done].
    + apply Nat.ltb_ge in Hia. apply restore_compare_opcode; [done|done|lia].
    + apply Nat.ltb_ge in Hia, Hjb.
      by rewrite !(proj2 (Nat.sub_0_le _ _)) by done.
  - simpl in Hchain. destruct Hchain as (Hi & Hj & Hsize & Hm & Hchain).
    rewrite <-app_comm_cons. cbn [foldl].
    destruct (opcode_step (i, j, []) (ai, bj, size)) as [[i' j'] ans] eqn:Hstep.
    rewrite opcodes_answer. cbn [fst snd].
    unfold opcode_step in Hstep.
    assert ((size =? 0) = false) as Hsz by (apply Nat.eqb_neq; lia).
    rewrite Hsz in Hstep.
    pose proof (matches_length a b _ _ _ Hm Hsize) as [Hla Hlb].
    assert (drop i a = take (ai - i) (drop i a)
                       ++ take (ai + size - ai) (drop ai a) ++ drop (ai + size) a) as ->.
    { rewrite <-(take_drop (ai + size - i) (drop i a)) at 1.
      rewrite (take_drop_split a i ai (ai + size)) by lia.
      rewrite drop_drop, <-(assoc_L (++)). do 3 f_equal. lia. }
    assert (drop j b = take (bj - j) (drop j b)
                       ++ take (bj + size - bj) (drop bj b) ++ drop (bj + size) b) as ->.
    { rewrite <-(take_drop (bj + size - j) (drop j b)) at 1.
      rewrite (take_drop_split b j bj (bj + size)) by lia.
      rewrite drop_drop, <-(assoc_L (++)). do 3 f_equal. lia. }
    assert (take (ai + size - ai) (drop ai a) = take (bj + size - bj) (drop bj b))
      as Heq.
    { replace (ai + size - ai) with size by lia.
      replace (bj + size - bj) with size by lia. by apply matches_take_drop. }
    destruct (restore_compare_opcode Equal ai (ai + size) bj (bj + size))
      as [HE1 HE2]; [done..|].
    destruct (IH _ _ Hchain) as [IH1 IH2].
    destruct (i <? ai) eqn:Hia, (j <? bj) eqn:Hjb; cbn [andb] in Hstep;
      simplify_eq; rewrite !bind_app, !restore_app, IH1, IH2;
      cbn [mbind list_bind app];
      rewrite ?app_nil_r, ?HE1, ?HE2, ?restore_nil, <-?(assoc_L (++));
      cbn [app].
    + destruct (restore_compare_opcode Replace i ai j bj) as [-> ->]; done.
    + apply Nat.ltb_ge in Hjb.
      destruct (restore_compare_opcode Delete i ai j bj) as [-> ->];
        [done|intros; lia|done|].
      by rewrite !(proj2 (Nat.sub_0_le _ _) Hjb).
    + apply Nat.ltb_ge in Hia.
      destruct (restore_compare_opcode Insert i ai j bj) as [-> ->];
        [done|done|intros; lia|].
      by rewrite !(proj2 (Nat.sub_0_le _ _) Hia).
    + apply Nat.ltb_ge in Hia, Hjb.
      by rewrite (proj2 (Nat.sub_0_le _ _) Hia), (proj2 (Nat.sub_0_le _ _) Hjb).
Qed.

Theorem restore_compare :
  restore (compare a b) 1 = a ∧ restore (compare a b) 2 = b.
Proof.
  unfold compare, get_opcodes.
  destruct (get_matching_blocks_chain a b) as (blocks & -> & Hchain).
  apply (restore_opcodes blocks 0 0 Hchain).
Qed.
End compare_facts.

(** * Counting the lines of a script *)

(** The lines of a script that are common to both sides. *)
Definition is_unchanged (line : list N) : bool := startswith (str "  ") line.

Definition unchanged (diff : list (list N)) : nat :=
  length (filter (λ line, is_unchanged line = true) diff).

Definition changed (diff : list (list N)) : nat :=
  length (filter (λ line, is_changed line = true) diff).

Lemma startswith_take2 c1 c2 line :
  startswith [c1; c2] line = bool_decide (take 2 line = [c1; c2]).
Proof.
  destruct line as [|x [|y line]]; simpl;
    rewrite ?andb_false_r, ?andb_true_r; repeat case_bool_decide; naive_solver.
Qed.

Lemma restore_cons line diff which :
  restore (line :: diff) which
  = (if startswith [SPACE; SPACE] line || startswith [tag_of which; SPACE] line
     then [drop 2 line] else []) ++ restore diff which.
Proof.
  unfold restore. fold (tag_of which). cbn [omap list_omap].
  rewrite !startswith_take2. by destruct (_ || _).
Qed.

Lemma changed_cons line diff :
  changed (line :: diff) = (if is_changed line then 1 else 0) + changed diff.
Proof.
  unfold changed. rewrite filter_cons. destruct (is_changed line); by case_decide.
Qed.

Lemma unchanged_cons line diff :
  unchanged (line :: diff) = (if is_unchanged line then 1 else 0) + unchanged diff.
Proof.
  unfold unchanged. rewrite filter_cons. destruct (is_unchanged line); by case_decide.
Qed.

(** Every line of a script counts once on each side it belongs to. *)
Lemma script_count diff :
  changed diff + 2 * unchanged diff
  = length (restore diff 1) + length (restore diff 2).
Proof.
  induction diff as [|line diff IH]; [done|].
  rewrite changed_cons, unchanged_cons, !restore_cons, !length_app.
  unfold is_changed, is_unchanged.
  change (str "+ ") with [PLUS; SPACE]. change (str "- ") with [MINUS; SPACE].
  change (str "  ") with [SPACE; SPACE]. change (tag_of 1) with MINUS.
  change (tag_of 2) with PLUS.
  rewrite !startswith_take2. unfold PLUS, MINUS, SPACE.
  repeat case_bool_decide; simpl; try lia; congruence.
Qed.

Lemma restore_not_changed diff :
  changed diff = 0 → restore diff 1 = restore diff 2.
Proof.
  induction diff as [|line diff IH]; [done|].
  rewrite changed_cons, !restore_cons. unfold is_changed.
  change (str "+ ") with [PLUS; SPACE]. change (str "- ") with [MINUS; SPACE].
  change (tag_of 1) with MINUS. change (tag_of 2) with PLUS.
  intros Hc.
  destruct (startswith [PLUS; SPACE] line) eqn:Hp,
           (startswith [MINUS; SPACE] line) eqn:Hm; simpl in Hc; try lia.
  rewrite !orb_false_r. f_equal. apply IH. lia.
Qed.

Section compare_counts.
Variables a b : list (list N).

(** The changed lines of [compare a b] are the lines of [a] and of [b]
    that are not matched. *)
Lemma compare_count :
  changed (compare a b) + 2 * unchanged (compare a b) = length a + length b.
Proof.
  rewrite script_count. by destruct (restore_compare a b) as [-> ->].
Qed.

Lemma compare_unchanged_le :
  unchanged (compare a b) ≤ length a `min` length b.
Proof.
  pose proof (restore_compare a b) as [H1 H2].
  assert (∀ diff which, unchanged diff ≤ length (restore diff which)) as Hle.
  { clear. intros diff which. induction diff as [|line diff IH]; [done|].
    rewrite unchanged_cons, restore_cons, length_app. unfold is_unchanged.
    change (str "  ") with [SPACE; SPACE].
    destruct (startswith [SPACE; SPACE] line); simpl; lia. }
  pose proof (Hle (compare a b) 1). pose proof (Hle (compare a b) 2).
  rewrite H1 in *. rewrite H2 in *. lia.
Qed.

Lemma compare_changed_le : changed (compare a b) ≤ length a + length b.
Proof. pose proof compare_count. lia. Qed.

(** Two different sequences of the same length have two changed lines
    at least. *)
Lemma compare_changed_ge_2 :
  length a = length b → a ≠ b → 2 ≤ changed (compare a b).
Proof.
  intros Hlen Hne. pose proof compare_count as Hc.
  pose proof compare_unchanged_le as Hu.
  destruct (decide (changed (compare a b) = 0)) as [H0|H0].
  - apply restore_not_changed in H0.
    destruct (restore_compare a b) as [H1 H2]. congruence.
  - lia.
Qed.
End compare_counts.

(** * A sequence compared with itself *)

Section identical.
Context {A : Type} `{Countable A}.
Variable l : list A.

(** Whether the element at index [i] is kept in [b2j] (is not popular). *)
Definition kept (i : nat) : bool :=
  match l !! i with
  | Some x => bool_decide (is_Some (b2j l !! x))
  | None => false
  end.

(** The number of consecutive kept elements that end just before [e]. *)
Fixpoint run_before (e : nat) : nat :=
  match e with
  | 0 => 0
  | S e' => if kept e' then S (run_before e') else 0
  end.

Definition prev (j2len : gmap nat nat) (j : nat) : nat :=
  match j with
  | 0 => 0
  | S j' => default 0 (j2len !! j')
  end.

Lemma b2j_lookup_elem i x :
  l !! i = Some x →
  default [] (b2j l !! x) = if kept i then indices x l else [].
Proof.
  intros Hx. unfold kept. rewrite Hx.
  destruct (b2j l !! x) as [js|] eqn:Hjs; simpl.
  - by apply b2j_lookup_Some in Hjs as [-> _].
  - done.
Qed.

Lemma kept_same i j x : l !! i = Some x → l !! j = Some x → kept j = kept i.
Proof. intros Hi Hj. unfold kept. by rewrite Hi, Hj. Qed.

Lemma indices_split i x :
  l !! i = Some x →
  indices x l
  = filter (λ j, l !! j = Some x) (seq 0 i)
    ++ [i] ++ filter (λ j, l !! j = Some x) (seq (S i) (length l - S i)).
Proof.
  intros Hx. pose proof (lookup_lt_Some _ _ _ Hx) as Hlt. unfold indices.
  replace (length l) with (i + (1 + (length l - S i))) at 1 by lia.
  rewrite !seq_app, !filter_app. simpl. rewrite filter_cons, filter_nil.
  rewrite decide_True by done. by rewrite Nat.add_1_r.
Qed.

(** *** One row of the search *)

Lemma flm_row_app i bhi j2len js1 js2 : ∀ newj2len best,
  (∀ j, j ∈ js1 → j < bhi) →
  flm_row i 0 bhi j2len (js1 ++ js2) newj2len best
  = flm_row i 0 bhi j2len js2
      (flm_row i 0 bhi j2len js1 newj2len best).1
      (flm_row i 0 bhi j2len js1 newj2len best).2.
Proof.
  induction js1 as [|j js1 IH]; intros newj2len best Hjs; [done|].
  cbn [app flm_row]. assert (j < bhi) as Hj by (apply Hjs; left).
  assert ((bhi <=? j) = false) as -> by (by apply Nat.leb_gt).
  simpl. apply IH. intros. apply Hjs. by right.
Qed.

Lemma flm_row_single i bhi j2len j newj2len best :
  j < bhi →
  flm_row i 0 bhi j2len [j] newj2len best
  = (<[j := prev j2len j + 1]> newj2len,
     if best.2 <? prev j2len j + 1
     then (i + 1 - (prev j2len j + 1), j + 1 - (prev j2len j + 1), prev j2len j + 1)
     else best).
Proof.
  intros Hj. cbn [flm_row].
  assert ((bhi <=? j) = false) as -> by (by apply Nat.leb_gt). done.
Qed.

Lemma flm_row_noupdate i bhi j2len js : ∀ newj2len best,
  (∀ j, j ∈ js → j < bhi ∧ prev j2len j + 1 ≤ best.2) →
  (flm_row i 0 bhi j2len js newj2len best).2 = best
  ∧ ∀ j, (flm_row i 0 bhi j2len js newj2len best).1 !! j
         = if decide (j ∈ js) then Some (prev j2len j + 1) else newj2len !! j.
Proof.
  induction js as [|j js IH]; intros newj2len best Hjs.
  { split; [done|]. intros j. by rewrite decide_False by apply not_elem_of_nil. }
  destruct (Hjs j ltac:(left)) as [Hj Hk].
  cbn [flm_row]. assert ((bhi <=? j) = false) as -> by (by apply Nat.leb_gt).
  simpl (j <? 0). cbv iota. fold (prev j2len j).
  assert ((best.2 <? prev j2len j + 1) = false) as -> by (apply Nat.ltb_ge; lia).
  destruct (IH (<[j := prev j2len j + 1]> newj2len) best) as [IH1 IH2].
  { intros. apply Hjs. by right. }
  split; [done|]. intros j0. rewrite IH2.
  destruct (decide (j0 ∈ js)) as [Hin|Hin].
  - rewrite decide_True by (by right). done.
  - destruct (decide (j = j0)) as [->|Hne].
    + rewrite lookup_insert_eq, decide_True by (by left). done.
    + rewrite lookup_insert_ne by done.
      rewrite decide_False; [done|]. intros [?|?]%elem_of_cons; by subst.
Qed.

(** *** The invariant of the search on the diagonal *)

Definition diag_inv (e : nat) (st : gmap nat nat * (nat * nat * nat)) : Prop :=
  (∀ j k, st.1 !! j = Some k → k ≤ run_before e ∧ k ≤ run_before (S j))
  ∧ prev st.1 e = run_before e
  ∧ st.2.1.1 = st.2.1.2
  ∧ ∀ t, t ≤ e → run_before t ≤ st.2.2.

Lemma prev_le e j2len j :
  (∀ j k, j2len !! j = Some k → k ≤ run_before e ∧ k ≤ run_before (S j)) →
  prev j2len j ≤ run_before e ∧ prev j2len j ≤ run_before j.
Proof.
  intros HA. destruct j as [|j']; simpl; [lia|].
  destruct (j2len !! j') as [k|] eqn:Hk; simpl; [|lia].
  apply HA in Hk. simpl in Hk. done.
Qed.

Lemma diag_step i st :
  i < length l → diag_inv i st →
  diag_inv (i + 1) (flm_step l l 0 (length l) st i).
Proof.
  intros Hi (HA & HB & HC & HD). destruct st as [j2len [[bi bj] bs]].
  simpl in HA, HB, HC, HD. subst bj.
  destruct (lookup_lt_is_Some_2 l i Hi) as [x Hx].
  unfold flm_step. rewrite Hx. fold (b2j l).
  rewrite (b2j_lookup_elem i x Hx). cbn [fst snd].
  rewrite Nat.add_1_r.
  destruct (kept i) eqn:Hkept.
  2:{ simpl. unfold diag_inv. simpl. rewrite Hkept. split_and!.
      - intros j k. by rewrite lookup_empty.
      - by rewrite lookup_empty.
      - done.
      - intros t Ht. destruct (decide (t = S i)) as [->|].
        + simpl. rewrite Hkept. lia.
        + apply HD. lia. }
  set (P := λ j, l !! j = Some x).
  rewrite (indices_split i x Hx). fold P.
  set (lt := filter P (seq 0 i)).
  set (gt := filter P (seq (S i) (length l - S i))).
  assert (∀ j, j ∈ lt → j < i ∧ l !! j = Some x) as Hlt.
  { intros j [? ?%elem_of_seq]%list_elem_of_filter. split; [lia|done]. }
  assert (∀ j, j ∈ gt → i < j < length l ∧ l !! j = Some x) as Hgt.
  { intros j [? ?%elem_of_seq]%list_elem_of_filter. split; [lia|done]. }
  assert (∀ j, l !! j = Some x → run_before (S j) = S (run_before j)) as Hrun.
  { intros j Hj. simpl. by rewrite (kept_same i j x Hx Hj), Hkept. }
  pose proof (Hrun i Hx) as Hri.
  assert (∀ j, prev j2len j ≤ run_before i ∧ prev j2len j ≤ run_before j) as Hprev.
  { intros j. by apply prev_le. }
  (* the indices before [i] *)
  rewrite flm_row_app by (intros j [??]%Hlt; lia).
  destruct (flm_row_noupdate i (length l) j2len lt ∅ (bi, bi, bs)) as [Hb1 Hm1].
  { intros j [Hj Hjx]%Hlt. split; [lia|]. simpl.
    pose proof (Hprev j). pose proof (Hrun j Hjx). pose proof (HD (S j)). lia. }
  rewrite Hb1.
  set (m1 := (flm_row i 0 (length l) j2len lt ∅ (bi, bi, bs)).1) in *.
  (* the index [i] itself *)
  rewrite (flm_row_app i (length l) j2len [i] gt)
    by (intros j ->%list_elem_of_singleton; lia).
  rewrite flm_row_single by lia. cbn [fst snd]. rewrite HB.
  replace (run_before i + 1) with (run_before (S i)) by lia.
  set (r := run_before (S i)) in *.
  set (best2 := if bs <? r then (i + 1 - r, i + 1 - r, r) else (bi, bi, bs)).
  assert (best2.1.1 = best2.1.2 ∧ r ≤ best2.2 ∧ bs ≤ best2.2) as (Hd2 & Hr2 & Hs2).
  { subst best2. destruct (bs <? r) eqn:E; simpl.
    - apply Nat.ltb_lt in E. lia.
    - apply Nat.ltb_ge in E. lia. }
  (* the indices after [i] *)
  destruct (flm_row_noupdate i (length l) j2len gt (<[i := r]> m1) best2)
    as [Hb3 Hm3].
  { intros j [Hj Hjx]%Hgt. split; [lia|]. pose proof (Hprev j). lia. }
  unfold diag_inv. rewrite Hb3. split_and!; [|  |done|].
  - intros j k. rewrite Hm3. destruct (decide (j ∈ gt)) as [Hin|Hin].
    + intros [= <-]. destruct (Hgt j Hin) as [_ Hjx].
      pose proof (Hprev j). pose proof (Hrun j Hjx). fold r. lia.
    + destruct (decide (i = j)) as [<-|Hne].
      * rewrite lookup_insert_eq. intros [= <-]. fold r. lia.
      * rewrite lookup_insert_ne by done. subst m1. rewrite Hm1.
        destruct (decide (j ∈ lt)) as [Hin'|Hin']; [|by rewrite lookup_empty].
        intros [= <-]. destruct (Hlt j Hin') as [_ Hjx].
        pose proof (Hprev j). pose proof (Hrun j Hjx). fold r. lia.
  - simpl. rewrite Hm3. rewrite decide_False.
    + by rewrite lookup_insert_eq.
    + intros [? _]%Hgt. lia.
  - intros t Ht. destruct (decide (t = S i)) as [->|]; [done|].
    pose proof (HD t). lia.
Qed.

Lemma diag_loop :
  diag_inv (length l)
    (foldl (flm_step l l 0 (length l)) (∅, (0, 0, 0)) (seq 0 (length l - 0))).
Proof.
  rewrite Nat.sub_0_r.
  apply (foldl_seq_invariant diag_inv (flm_step l l 0 (length l)) _ 0 (length l)).
  - unfold diag_inv. simpl. split_and!; try done.
    intros t ?. by replace t with 0 by lia.
  - intros i st Hi. apply diag_step. lia.
Qed.

(** *** The extension of a block of the diagonal *)

Lemma elt_eqb_diag i : i < length l → elt_eqb l l i i = true.
Proof.
  intros [x Hx]%lookup_lt_is_Some_2. apply elt_eqb_true. eauto.
Qed.

Lemma extend_back_diag d : ∀ s,
  d ≤ length l → extend_back l l false 0 0 d d s = (0, 0, s + d).
Proof.
  induction d as [|d IH]; intros s Hd; [simpl; f_equal; lia|].
  simpl. rewrite elt_eqb_diag by lia.
  destruct (l !! d); simpl; rewrite IH by lia; f_equal; lia.
Qed.

Lemma extend_fwd_diag m : ∀ s,
  s + m = length l → extend_fwd l l false m (length l) (length l) 0 0 s = length l.
Proof.
  induction m as [|m IH]; intros s Hs; [simpl; lia|].
  simpl. rewrite elt_eqb_diag by lia.
  assert ((s <? length l) = true) as -> by (apply Nat.ltb_lt; lia).
  destruct (l !! s); simpl; apply IH; lia.
Qed.

Lemma extend_back_junk alo blo besti bestj bestsize :
  extend_back l l true alo blo besti bestj bestsize = (besti, bestj, bestsize).
Proof.
  destruct besti, bestj; simpl; try done.
  destruct (l !! bestj); simpl; by rewrite ?andb_false_r.
Qed.

Lemma extend_fwd_junk m ahi bhi besti bestj bestsize :
  extend_fwd l l true m ahi bhi besti bestj bestsize = bestsize.
Proof.
  destruct m; simpl; [done|].
  destruct (l !! (bestj + bestsize)); simpl; by rewrite ?andb_false_r.
Qed.

(** The longest block of a sequence against itself is the whole
    sequence, popular elements or not. *)
Lemma find_longest_match_self :
  find_longest_match l l 0 (length l) 0 (length l) = (0, 0, length l).
Proof.
  unfold find_longest_match.
  pose proof diag_loop as (_ & _ & Hdiag & _).
  pose proof (flm_loop_ok l l 0 (length l) 0 (length l) ltac:(lia) ltac:(lia))
    as Hok.
  destruct (foldl _ _ _) as [j2len [[bi bj] bs]]. simpl in Hdiag, Hok. subst bj.
  destruct Hok as (_ & Hle & _).
  rewrite extend_back_diag by lia.
  rewrite extend_fwd_diag by lia.
  rewrite extend_back_junk, extend_fwd_junk. done.
Qed.

Lemma mb_loop_nil fuel acc : mb_loop l l fuel [] acc = acc.
Proof. by destruct fuel. Qed.

Lemma get_matching_blocks_self :
  get_matching_blocks l l
  = (if length l =? 0 then [] else [(0, 0, length l)]) ++ [(length l, length l, 0)].
Proof.
  unfold get_matching_blocks.
  replace (2 * length l + 1) with (S (2 * length l)) by lia.
  cbn [mb_loop]. rewrite find_longest_match_self.
  destruct (length l =? 0) eqn:Hn.
  - by rewrite mb_loop_nil.
  - rewrite Nat.ltb_irrefl, Nat.add_0_l, Nat.ltb_irrefl. cbn [andb].
    rewrite mb_loop_nil. cbn. by rewrite Hn.
Qed.

Lemma get_opcodes_self :
  get_opcodes l l
  = if length l =? 0 then [] else [(Equal, 0, length l, 0, length l)].
Proof.
  unfold get_opcodes. rewrite get_matching_blocks_self.
  destruct (length l =? 0) eqn:Hn.
  - apply Nat.eqb_eq in Hn. rewrite Hn. done.
  - simpl. rewrite Hn, Nat.ltb_irrefl. simpl. done.
Qed.
End identical.

(** Comparing a sequence of lines with itself marks every line as common. *)
Lemma compare_self (l : list (list N)) :
  compare l l = (λ line, SPACE :: SPACE :: line) <$> l.
Proof.
  unfold compare. rewrite get_opcodes_self.
  destruct (length l =? 0) eqn:Hn.
  - apply Nat.eqb_eq in Hn. by destruct l.
  - simpl. rewrite app_nil_r. unfold dump. by rewrite Nat.sub_0_r, drop_0, firstn_all.
Qed.

Lemma changed_compare_self (l : list (list N)) : changed (compare l l) = 0.
Proof.
  rewrite compare_self. induction l as [|line l IH]; [done|].
  rewrite fmap_cons, changed_cons, IH. done.
Qed.

(** * The scan *)

Global Instance path_le_refl : Reflexive path_le.
Proof. intros p. by left. Qed.

Global Instance path_le_trans : Transitive path_le.
Proof.
  intros p q r [->|Hpq] [->|Hqr]; [by left|by right|by right|].
  right. by transitivity q.
Qed.

Global Instance path_le_antisymm : AntiSymm (=) path_le.
Proof.
  intros p q [->|Hpq] [Heq|Hqp]; [done..|].
  destruct (irreflexivity lexico p). by transitivity q.
Qed.

Global Instance path_le_total : Total path_le.
Proof.
  intros p q. destruct (trichotomyT lexico p q) as [[Hlt|Heq]|Hgt].
  - left. by right.
  - left. by left.
  - right. by right.
Qed.

Section scan_facts.
Variable classify : list N → list N → bool.
Variable fs : node.
Variables files1 files2 : gmap (list (list N)) (list (list N)).

(** Whether the pair of a relative path is kept by the scan. *)
Definition retained (rel : list (list N)) : bool :=
  match files1 !! rel, files2 !! rel with
  | Some p1, Some p2 =>
      match read_text fs p1, read_text fs p2 with
      | Returned content1, Returned content2 =>
          bool_decide (content1 ≠ content2) && classify content1 content2
      | _, _ => true
      end
  | _, _ => true
  end.

Definition pair_of (rel : list (list N))
    : option (list (list N)) * option (list (list N)) * list (list N) :=
  (files1 !! rel, files2 !! rel, rel).

Lemma scan_path_spec file_pairs rel :
  scan_path classify fs files1 files2 file_pairs rel
  = Returned (file_pairs ++ if retained rel then [pair_of rel] else []).
Proof.
  unfold scan_path, retained, pair_of.
  destruct (files1 !! rel) as [p1|], (files2 !! rel) as [p2|]; try done.
  destruct (read_text fs p1) as [content1|]; [|done]. simpl.
  destruct (read_text fs p2) as [content2|]; [|done]. simpl.
  destruct (_ && _); [done|]. by rewrite app_nil_r.
Qed.

Lemma scan_paths_spec paths : ∀ file_pairs,
  scan_paths classify fs files1 files2 file_pairs paths
  = Returned (file_pairs ++ (pair_of <$> filter (λ rel, retained rel = true) paths)).
Proof.
  induction paths as [|rel paths IH]; intros file_pairs.
  { simpl. by rewrite app_nil_r. }
  cbn [scan_paths]. rewrite scan_path_spec. cbn [mbind outcome_bind].
  rewrite IH, filter_cons. destruct (retained rel); case_decide; try done.
  - by rewrite <-(assoc_L (++)).
  - by rewrite app_nil_r.
Qed.

Lemma all_paths_Sorted : Sorted path_le (all_paths files1 files2).
Proof. apply Sorted_merge_sort, _. Qed.

Lemma all_paths_Permutation :
  all_paths files1 files2 ≡ₚ elements (dom files1 ∪ dom files2).
Proof. apply merge_sort_Permutation. Qed.

Lemma elem_of_all_paths rel :
  rel ∈ all_paths files1 files2 ↔ is_Some (files1 !! rel) ∨ is_Some (files2 !! rel).
Proof.
  rewrite all_paths_Permutation, elem_of_elements, elem_of_union,
    !elem_of_dom. done.
Qed.

Lemma all_paths_NoDup : NoDup (all_paths files1 files2).
Proof. rewrite all_paths_Permutation. apply NoDup_elements. Qed.

(** Whatever the order in which the set of keys is iterated, sorting it
    gives the same list. *)
Lemma all_paths_any_order keys :
  NoDup keys → (∀ rel, rel ∈ keys ↔ rel ∈ dom files1 ∪ dom files2) →
  merge_sort path_le keys = all_paths files1 files2.
Proof.
  intros Hnd Hkeys. apply (Sorted_unique path_le).
  - apply Sorted_merge_sort, _.
  - apply all_paths_Sorted.
  - rewrite merge_sort_Permutation, all_paths_Permutation.
    apply NoDup_Permutation; [done|apply NoDup_elements|].
    intros rel. by rewrite Hkeys, elem_of_elements.
Qed.
End scan_facts.

Lemma StronglySorted_strict (l : list (list (list N))) :
  Sorted path_le l → NoDup l → StronglySorted lexico l.
Proof.
  intros Hs%(Sorted_StronglySorted path_le) Hnd.
  induction Hs as [|p l Hs IH Hall]; [constructor|].
  apply NoDup_cons in Hnd as [Hp Hnd]. constructor; [by apply IH|].
  apply Forall_forall. intros q Hq.
  destruct (proj1 (Forall_forall _ _) Hall q Hq) as [->|?]; done.
Qed.

Lemma StronglySorted_filter {B : Type} (R : relation B) (P : B → Prop)
    `{∀ x, Decision (P x)} (l : list B) :
  StronglySorted R l → StronglySorted R (filter P l).
Proof.
  induction 1 as [|x l Hs IH Hall]; [constructor|].
  rewrite filter_cons. case_decide; [|done]. constructor; [done|].
  apply Forall_forall. intros y [_ Hy]%list_elem_of_filter.
  by apply (proj1 (Forall_forall _ _) Hall).
Qed.

(** * Highlighting *)

Lemma startswith2_inv c1 c2 line :
  startswith [c1; c2] line = true → line = c1 :: c2 :: drop 2 line.
Proof.
  destruct line as [|x [|y line]]; simpl; try done.
  - by rewrite andb_false_r.
  - rewrite andb_true_r. intros [->%bool_decide_eq_true ->%bool_decide_eq_true]%andb_prop.
    done.
Qed.

Lemma changed_app d1 d2 : changed (d1 ++ d2) = changed d1 + changed d2.
Proof. unfold changed. by rewrite filter_app, length_app. Qed.



(** * The classifier *)

Lemma truthy_true s : s ≠ [] → truthy s = true.
Proof. by destruct s. Qed.

Lemma max_lines_pos content1 content2 :
  content1 ≠ [] → 0 < max_lines content1 content2.
Proof.
  intros H1. unfold max_lines.
  pose proof (splitlines_length_pos false content1 H1). lia.
Qed.

Lemma max_lines_comm content1 content2 :
  max_lines content1 content2 = max_lines content2 content1.
Proof. unfold max_lines. lia. Qed.

Lemma changed_lines_eq content1 content2 :
  changed_lines content1 content2
  = changed (compare (splitlines false content1) (splitlines false content2)).
Proof. done. Qed.

(** On two contents that are not empty the classifier compares the ratio
    with the threshold. *)
Lemma has_significant_changes_nonempty threshold content1 content2 :
  content1 ≠ [] → content2 ≠ [] →
  has_significant_changes threshold content1 content2
  = Qle_bool threshold (change_ratio content1 content2).
Proof.
  intros H1 H2. unfold has_significant_changes.
  rewrite (truthy_true _ H1), (truthy_true _ H2). simpl.
  pose proof (max_lines_pos content1 content2 H1).
  destruct (max_lines content1 content2 =? 0) eqn:E; [|done].
  apply Nat.eqb_eq in E. lia.
Qed.

Lemma changed_lines_le content1 content2 :
  changed_lines content1 content2 ≤ 2 * max_lines content1 content2.
Proof.
  rewrite changed_lines_eq. unfold max_lines.
  pose proof (compare_changed_le (splitlines false content1) (splitlines false content2)).
  lia.
Qed.

Lemma inject_nat_pos (n : nat) : 0 < n → (0 < inject_Z (Z.of_nat n))%Q.
Proof. intros Hn. change 0%Q with (inject_Z 0). rewrite <-Zlt_Qlt. lia. Qed.

Lemma change_ratio_ge (n m : nat) (content1 content2 : list N) :
  0 < max_lines content1 content2 →
  n * max_lines content1 content2 ≤ m * changed_lines content1 content2 →
  0 < m →
  (inject_Z (Z.of_nat n) / inject_Z (Z.of_nat m) <= change_ratio content1 content2)%Q.
Proof.
  intros Hmax Hle Hm. unfold change_ratio.
  apply Qle_shift_div_l; [by apply inject_nat_pos|].
  unfold Qdiv. rewrite <-Qmult_assoc, (Qmult_comm (/ _)), Qmult_assoc.
  apply Qle_shift_div_r; [by apply inject_nat_pos|].
  rewrite <-!inject_Z_mult, <-Zle_Qle. lia.
Qed.

Lemma change_ratio_bounds content1 content2 :
  (0 <= change_ratio content1 content2 ∧ change_ratio content1 content2 <= 2)%Q.
Proof.
  unfold change_ratio.
  pose proof (changed_lines_le content1 content2) as Hle.
  destruct (decide (max_lines content1 content2 = 0)) as [E|E].
  { rewrite E. unfold Qdiv, Qinv. simpl. rewrite Qmult_0_r. split; done. }
  split.
  - apply Qle_shift_div_l; [apply inject_nat_pos; lia|].
    rewrite Qmult_0_l. change 0%Q with (inject_Z 0). rewrite <-Zle_Qle. lia.
  - apply Qle_shift_div_r; [apply inject_nat_pos; lia|].
    change 2%Q with (inject_Z 2). rewrite <-inject_Z_mult, <-Zle_Qle. lia.
Qed.

(** * Blocks and gaps of a sequence without popular elements *)



Section small.
Context {A : Type} `{Countable A}.



Variables a b : list A.



(** *** The search finds a block whenever two elements are equal *)




(** *** The gaps between the blocks *)




Hypothesis Hsmall : length b < 200.







End small.

(** * The common lines of a script without popular lines *)






Section replaced.
Variables a b : list (list N).





End replaced.

(** * Sequences that differ by an injective renaming of their elements *)

Section renamed.
Context {A B : Type} `{Countable A} `{Countable B}.
Variable f : A → B.
Hypothesis Hinj : ∀ x y, f x = f y → x = y.
Variables a b : list A.










End renamed.




(** * The line numbers that a script gives to one side only *)



Lemma highlight_equal_lines (lines : list (list N)) : ∀ l r lefts rights,
  foldl highlight_step (l, r, lefts, rights)
        ((λ line, SPACE :: SPACE :: line) <$> lines)
  = (l + length lines, r + length lines, lefts, rights).
Proof.
  induction lines as [|line lines IH]; intros l r lefts rights.
  - simpl. by rewrite !Nat.add_0_r.
  - cbn [fmap list_fmap foldl].
    change (highlight_step (l, r, lefts, rights) _)
      with (l + 1, r + 1, lefts, rights).
    rewrite IH. cbn [length]. rewrite !Nat.add_1_r.
    replace (S l + length lines) with (l + S (length lines)) by lia.
    by replace (S r + length lines) with (r + S (length lines)) by lia.
Qed.


Section marked.
Variables a b : list (list N).


End marked.


(** * The claims *)

(** Scenario A, read as twenty copies of one line of which the last one is
    changed, and as twenty different lines of which the seventh is
    changed. *)
Definition scenario_left : list N := concat (replicate 20 (str "x" ++ [LF])).
Definition scenario_right : list N :=
  concat (replicate 19 (str "x" ++ [LF])) ++ str "y" ++ [LF].
Definition scenario_left' : list N := concat ((λ i, [N.of_nat i; LF]) <$> seq 97 20).
Definition scenario_right' : list N :=
  concat (<[6 := str "Z" ++ [LF]]> ((λ i, [N.of_nat i; LF]) <$> seq 97 20)).

(** C1, the scenario as the claim states it: one changed line out of
    twenty does not give the ratio 1/20; the changed line counts twice,
    once as deleted and once as inserted, and the ratio is 2/20. *)
Lemma C1_scenario_ratio_is_not_one_twentieth :
  ¬ (change_ratio scenario_left scenario_right == 1 # 20)%Q
  ∧ (change_ratio scenario_left scenario_right == 1 # 10)%Q
  ∧ ¬ (change_ratio scenario_left' scenario_right' == 1 # 20)%Q
  ∧ (change_ratio scenario_left' scenario_right' == 1 # 10)%Q.
Proof. unfold Qeq. vm_compute. split_and!; done. Qed.

(** C1 (amended): for two contents that are not empty, [changed_lines] is
    the number of lines of the script that are given to one side only,
    the ratio is [changed_lines / max_lines] with [max_lines] positive,
    and the pair is significant iff the ratio is at least the threshold,
    equality included. When both contents have twenty lines and the line
    sequences differ, the ratio is at least 2/20 = 1/10 and the pair is
    significant at the default threshold 1/20. *)
Theorem C1_classifier_rule (threshold : Q) (content1 content2 : list N) :
  content1 ≠ [] → content2 ≠ [] →
  let lines1 := splitlines false content1 in
  let lines2 := splitlines false content2 in
  changed_lines content1 content2
    = length (filter (λ line, is_changed line = true) (compare lines1 lines2))
  ∧ changed_lines content1 content2 + 2 * unchanged (compare lines1 lines2)
    = length lines1 + length lines2
  ∧ 0 < max_lines content1 content2
  ∧ max_lines content1 content2 = length lines1 `max` length lines2
  ∧ (change_ratio content1 content2
     == inject_Z (Z.of_nat (changed_lines content1 content2))
        / inject_Z (Z.of_nat (max_lines content1 content2)))%Q
  ∧ (has_significant_changes threshold content1 content2 = true
     ↔ (threshold <= change_ratio content1 content2)%Q)
  ∧ (length lines1 = 20 → length lines2 = 20 → lines1 ≠ lines2 →
     (1 # 10 <= change_ratio content1 content2)%Q
     ∧ has_significant_changes (1 # 20) content1 content2 = true).
Proof.
  intros H1 H2 lines1 lines2. split_and!.
  - done.
  - apply compare_count.
  - by apply max_lines_pos.
  - done.
  - done.
  - rewrite has_significant_changes_nonempty by done. apply Qle_bool_iff.
  - intros Hl1 Hl2 Hne.
    assert (1 # 10 <= change_ratio content1 content2)%Q as Hratio.
    { assert (1 # 10 == inject_Z (Z.of_nat 2) / inject_Z (Z.of_nat 20))%Q as ->
        by done.
      pose proof (compare_changed_ge_2 lines1 lines2 ltac:(congruence) Hne) as Hge.
      apply change_ratio_ge; [by apply max_lines_pos| |lia].
      rewrite changed_lines_eq. fold lines1 lines2. unfold max_lines.
      fold lines1 lines2. lia. }
    split; [done|].
    rewrite has_significant_changes_nonempty by done. apply Qle_bool_iff.
    by apply (Qle_trans _ (1 # 10)).
Qed.

Lemma C1_classifier_rule_witness :
  scenario_left ≠ [] ∧ scenario_right ≠ []
  ∧ length (splitlines false scenario_left) = 20
  ∧ length (splitlines false scenario_right) = 20
  ∧ splitlines false scenario_left ≠ splitlines false scenario_right
  ∧ (1 # 10 <= change_ratio scenario_left scenario_right)%Q
  ∧ has_significant_changes (1 # 20) scenario_left scenario_right = true.
Proof.
  assert (scenario_left ≠ []) as H1 by (vm_compute; discriminate).
  assert (scenario_right ≠ []) as H2 by (vm_compute; discriminate).
  assert (length (splitlines false scenario_left) = 20) as H3
    by (vm_compute; reflexivity).
  assert (length (splitlines false scenario_right) = 20) as H4
    by (vm_compute; reflexivity).
  assert (splitlines false scenario_left ≠ splitlines false scenario_right) as H5
    by (vm_compute; discriminate).
  exact (conj H1 (conj H2 (conj H3 (conj H4 (conj H5
    (proj2 (proj2 (proj2 (proj2 (proj2 (proj2
       (C1_classifier_rule (1 # 20) scenario_left scenario_right H1 H2))))))
       H3 H4 H5)))))).
Defined.


(** A pair that the scan keeps at the default threshold shows the same:
    for the lines x and a against the lines y and a, the last of them with
    a line feed, the classifier counts two changed lines and the aligner
    tags four. *)
Example significant_pair_disagrees :
  let c1 := str "x" ++ [LF] ++ str "a" in
  let c2 := str "y" ++ [LF] ++ str "a" ++ [LF] in
  has_significant_changes (1 # 20) c1 c2 = true
  ∧ changed_lines c1 c2 = 2
  ∧ highlight_diff c1 c2 = Marks [1; 2] [1; 2] false false.
Proof. vm_compute. split_and!; reflexivity. Qed.



(** The bound of 200 lines is needed: terminators that are the same on
    every line do not make the two counts agree in a longer content. With
    201 lines the line that occurs four times is popular and is left to
    the replaced block; there the lines abc and abd are close enough to be
    paired only when their terminators are counted, and the pairing
    decides whether the popular line is kept as common. *)
Definition popular_text (middle : list (list N)) : list N :=
  concat ((λ line, line ++ [LF])
          <$> (replicate 3 (str "P")
               ++ ((λ i, [N.of_nat i]) <$> seq 1000 98)
               ++ middle
               ++ ((λ i, [N.of_nat i]) <$> seq 1098 98))).

Example terminated_lines_can_disagree :
  let c1 := popular_text [str "abc"; str "P"] in
  let c2 := popular_text [str "P"; str "abd"] in
  length (splitlines false c1) = 201
  ∧ changed_lines c1 c2 = 2
  ∧ changed (aligned c1 c2) = 4.
Proof. vm_compute. split_and!; reflexivity. Qed.

(** C3, as the claim states it: the contents "a" and "b" have one line
    each and two changed lines, so the ratio is 2, outside [0,1]. *)
Lemma C3_ratio_exceeds_one :
  (change_ratio (str "a") (str "b") == 2)%Q
  ∧ ¬ (change_ratio (str "a") (str "b") <= 1)%Q.
Proof. unfold Qeq, Qle. by vm_compute. Qed.

(** C3 (amended): for every pair of contents the change ratio lies in the
    interval [0,2]. *)
Theorem C3_ratio_between_0_and_2 (content1 content2 : list N) :
  (0 <= change_ratio content1 content2)%Q
  ∧ (change_ratio content1 content2 <= 2)%Q.
Proof. apply change_ratio_bounds. Qed.

(** C4: in the script that [highlight_diff] computes, the lines common to
    both sides and the lines of the left side only, taken in the order of
    the script, are the lines of the left content; the same holds on the
    right; joining those lines gives each content back. *)
Theorem C4_align_round_trip (c1 c2 : list N) :
  restore (aligned c1 c2) 1 = splitlines true c1
  ∧ restore (aligned c1 c2) 2 = splitlines true c2
  ∧ concat (restore (aligned c1 c2) 1) = c1
  ∧ concat (restore (aligned c1 c2) 2) = c2.
Proof.
  destruct (restore_compare (splitlines true c1) (splitlines true c2)) as [R1 R2].
  unfold aligned. rewrite R1, R2, !splitlines_concat. done.
Qed.

Lemma scan_files_spec (classify : list N → list N → bool) (fs : node)
    (files1 files2 : gmap (list (list N)) (list (list N))) :
  scan_files classify fs files1 files2 []
  = Returned (pair_of files1 files2
              <$> filter (λ rel, retained classify fs files1 files2 rel = true)
                         (all_paths files1 files2)).
Proof. unfold scan_files. by rewrite scan_paths_spec. Qed.

Lemma pair_of_paths (files1 files2 : gmap (list (list N)) (list (list N))) paths :
  (pair_of files1 files2 <$> paths).*2 = paths.
Proof. induction paths as [|rel paths IH]; [done|]. csimpl. by f_equal. Qed.

(** C5: a relative path that only one of the two enumerations has is in
    the result of the scan, with the other side absent, whatever the
    classifier answers and so whatever the threshold is. *)
Theorem C5_one_sided_pair_always_retained (classify : list N → list N → bool)
    (fs : node) (files1 files2 : gmap (list (list N)) (list (list N)))
    (rel : list (list N)) :
  (is_Some (files1 !! rel) ∧ files2 !! rel = None)
  ∨ (files1 !! rel = None ∧ is_Some (files2 !! rel)) →
  ∃ pairs, scan_files classify fs files1 files2 [] = Returned pairs
           ∧ (files1 !! rel, files2 !! rel, rel) ∈ pairs.
Proof.
  intros Hside. eexists. split; [apply scan_files_spec|].
  apply (list_elem_of_fmap_2 (pair_of files1 files2)).
  apply list_elem_of_filter. split.
  - unfold retained.
    destruct Hside as [[[p Hp] Hn]|[Hn [p Hp]]]; by rewrite ?Hp, ?Hn.
  - apply elem_of_all_paths. destruct Hside as [[? _]|[_ ?]]; auto.
Qed.

Lemma C5_one_sided_pair_always_retained_witness :
  let files1 : gmap (list (list N)) (list (list N)) :=
    {[ [str "a.txt"] := [str "left"; str "a.txt"] ]} in
  let rel := [str "a.txt"] in
  (is_Some (files1 !! rel) ∧ (∅ : gmap (list (list N)) (list (list N))) !! rel = None)
  ∧ ∃ pairs, scan_files (has_significant_changes 1) (File None) files1 ∅ []
             = Returned pairs
             ∧ (files1 !! rel, (∅ : gmap (list (list N)) (list (list N))) !! rel, rel)
               ∈ pairs.
Proof.
  intros files1 rel.
  assert (is_Some (files1 !! rel)
          ∧ (∅ : gmap (list (list N)) (list (list N))) !! rel = None) as Hside.
  { split; [|apply lookup_empty]. exists [str "left"; str "a.txt"].
    apply lookup_singleton_eq. }
  split; [exact Hside|].
  apply (C5_one_sided_pair_always_retained (has_significant_changes 1) (File None)
           files1 ∅ rel).
  left. exact Hside.
Defined.

(** Paths are compared segment by segment: a/b comes before a-b, although
    the character - comes before the separator. *)
Example path_order_is_by_segments :
  merge_sort path_le [[str "a-b"]; [str "a"; str "b"]; [str "a"]]
  = [[str "a"]; [str "a"; str "b"]; [str "a-b"]].
Proof. vm_compute. reflexivity. Qed.

(** C6: the scan returns its pairs in strictly ascending order of relative
    path, and the result does not depend on the order in which the set of
    relative paths is iterated before it is sorted. *)
Theorem C6_scan_sorted_and_deterministic (classify : list N → list N → bool)
    (fs : node) (files1 files2 : gmap (list (list N)) (list (list N)))
    (keys : list (list (list N))) :
  NoDup keys → (∀ rel, rel ∈ keys ↔ rel ∈ dom files1 ∪ dom files2) →
  ∃ pairs, scan_files classify fs files1 files2 [] = Returned pairs
           ∧ StronglySorted lexico (pairs.*2)
           ∧ scan_paths classify fs files1 files2 [] (merge_sort path_le keys)
             = Returned pairs.
Proof.
  intros Hnd Hkeys. eexists. split; [apply scan_files_spec|]. split.
  - rewrite pair_of_paths. apply StronglySorted_filter.
    apply StronglySorted_strict; [apply all_paths_Sorted|apply all_paths_NoDup].
  - rewrite scan_paths_spec. by rewrite (all_paths_any_order files1 files2 keys).
Qed.

Lemma C6_scan_sorted_and_deterministic_witness :
  let files1 : gmap (list (list N)) (list (list N)) :=
    {[ [str "b"] := [str "left"; str "b"] ]} in
  let files2 : gmap (list (list N)) (list (list N)) :=
    {[ [str "a"] := [str "right"; str "a"] ]} in
  let keys := [[str "b"]; [str "a"]] in
  NoDup keys
  ∧ ∃ pairs, scan_files (λ _ _, false) (File None) files1 files2 [] = Returned pairs
             ∧ StronglySorted lexico (pairs.*2)
             ∧ scan_paths (λ _ _, false) (File None) files1 files2 []
                 (merge_sort path_le keys) = Returned pairs.
Proof.
  intros files1 files2 keys.
  assert (NoDup keys) as Hnd.
  { apply NoDup_cons. split; [|apply NoDup_singleton].
    intros Hin%list_elem_of_singleton. discriminate Hin. }
  assert (∀ rel, rel ∈ keys ↔ rel ∈ dom files1 ∪ dom files2) as Hkeys.
  { intros rel. unfold keys, files1, files2.
    rewrite !dom_singleton_L, elem_of_union, !elem_of_singleton,
      elem_of_cons, list_elem_of_singleton. reflexivity. }
  split; [exact Hnd|].
  exact (C6_scan_sorted_and_deterministic (λ _ _, false) (File None)
           files1 files2 keys Hnd Hkeys).
Defined.

(** A file system with one directory and one file. *)
Definition tree : node :=
  Dir [(str "right", Dir [(str "a.txt", File (Some (str "x")))])].

(** C7, as the claim states it: with the threshold 2 and a first root
    that does not exist, the scan does not fail; it enumerates the second
    root and returns its file. *)

Lemma C7_invalid_configuration_is_not_rejected :
  scan_directories tree
    (Viewer [str "missing"] [str "right"] [] 0 [] [] 2 (Marks [] [] false false))
  = Returned
      (Viewer [str "missing"] [str "right"]
         [(None, Some [str "right"; str "a.txt"], [str "a.txt"])]
         0 [] [] 2 (Marks [] [] false false)).
Proof. by vm_compute. Qed.

(** A root that the operating system cannot be given: the scan raises
    from its first line. *)
Example scan_raises_on_a_root_with_nul :
  scan_directories tree
    (Viewer [[97; 0; 98]%N] [str "right"] [] 0 [] [] (1 # 20)
            (Marks [] [] false false))
  = Raised.
Proof. vm_compute. reflexivity. Qed.

(** C7 (amended): the scan checks neither the threshold nor the roots.
    For every file system and every threshold, [scan_directories] returns
    whenever the two roots can be given to the operating system; it keeps
    the threshold and the roots as they were given, and a root that does
    not exist or is not a directory is enumerated as the empty mapping.
    The scan raises exactly for a root that holds a NUL or a lone
    surrogate: that is the [ValueError] of [os.walk] in the first
    enumeration, not a check of the configuration. *)
Theorem C7_scan_validates_nothing (fs : node) (self : viewer) :
  (scan_directories fs self = Raised
   ↔ fsencodable (dir1 self) = false ∨ fsencodable (dir2 self) = false)
  ∧ (fsencodable (dir1 self) = true → fsencodable (dir2 self) = true →
     ∃ self', scan_directories fs self = Returned self'
              ∧ min_change_threshold self' = min_change_threshold self
              ∧ dir1 self' = dir1 self ∧ dir2 self' = dir2 self)
  ∧ (∀ root : list (list N),
       fsencodable root = true →
       (∀ entries, lookup_node fs root ≠ Some (Dir entries)) →
       list_files fs root = Returned ∅).
Proof.
  split_and!.
  - unfold scan_directories, list_files, scan_files.
    destruct (fsencodable (dir1 self)), (fsencodable (dir2 self));
      cbn [mbind outcome_bind]; rewrite ?scan_paths_spec;
      cbn [mbind outcome_bind]; naive_solver.
  - intros E1 E2. unfold scan_directories, list_files, scan_files.
    rewrite E1, E2. cbn [mbind outcome_bind]. rewrite scan_paths_spec.
    cbn [mbind outcome_bind]. eauto.
  - intros root E Hnodir. unfold list_files, listing. rewrite E.
    destruct (lookup_node fs root) as [[content|entries]|] eqn:Hroot; [done| |done].
    by destruct (Hnodir entries).
Qed.

Lemma C7_scan_validates_nothing_witness :
  let self := Viewer [str "missing"] [str "right"; str "a.txt"] [] 0 [] [] 2
                     (Marks [] [] false false) in
  fsencodable (dir1 self) = true ∧ fsencodable (dir2 self) = true
  ∧ ∃ self', scan_directories tree self = Returned self'
             ∧ min_change_threshold self' = min_change_threshold self
             ∧ dir1 self' = dir1 self ∧ dir2 self' = dir2 self.
Proof.
  intros self.
  assert (fsencodable (dir1 self) = true) as E1 by (vm_compute; reflexivity).
  assert (fsencodable (dir2 self) = true) as E2 by (vm_compute; reflexivity).
  exact (conj E1 (conj E2
           (proj1 (proj2 (C7_scan_validates_nothing tree self)) E1 E2))).
Defined.

(** The constructor can still raise once the scan is over: it loads the
    first pair, and reading a file that exists but cannot be read is not
    caught there. *)
Example init_raises_on_unreadable_first_pair :
  init (Dir [(str "right", Dir [(str "a.txt", File None)])])
       [str "missing"] [str "right"] (1 # 20)
  = Raised.
Proof. vm_compute. reflexivity. Qed.

(** C8: a pair that is significant at a threshold is significant at every
    smaller threshold. *)
Theorem C8_threshold_monotone (t1 t2 : Q) (a b : list N) :
  has_significant_changes t1 a b = true → (t2 <= t1)%Q →
  has_significant_changes t2 a b = true.
Proof.
  unfold has_significant_changes. intros Hsig Hle.
  destruct (_ || _); [done|]. destruct (_ && _); [done|].
  destruct (_ =? _); [done|].
  apply Qle_bool_iff. apply Qle_bool_iff in Hsig. by apply (Qle_trans _ t1).
Qed.

Lemma C8_threshold_monotone_witness :
  has_significant_changes (1 # 10) (str "a") (str "b") = true
  ∧ (1 # 20 <= 1 # 10)%Q
  ∧ has_significant_changes (1 # 20) (str "a") (str "b") = true.
Proof.
  assert (has_significant_changes (1 # 10) (str "a") (str "b") = true) as H1
    by (vm_compute; reflexivity).
  assert (1 # 20 <= 1 # 10)%Q as H2 by (vm_compute; discriminate).
  exact (conj H1 (conj H2
    (C8_threshold_monotone (1 # 10) (1 # 20) (str "a") (str "b") H1 H2))).
Defined.

Lemma Qdiv_nat_inj (c1 c2 m : nat) :
  0 < m →
  (inject_Z (Z.of_nat c1) / inject_Z (Z.of_nat m)
   == inject_Z (Z.of_nat c2) / inject_Z (Z.of_nat m))%Q →
  c1 = c2.
Proof.
  intros Hm Heq. destruct m as [|m']; [lia|].
  unfold Qdiv, Qinv, Qmult, Qeq in Heq. simpl in Heq. nia.
Qed.

Definition tide : list N :=
  str "t" ++ [LF] ++ str "i" ++ [LF] ++ str "d" ++ [LF] ++ str "e".
Definition diet : list N :=
  str "d" ++ [LF] ++ str "i" ++ [LF] ++ str "e" ++ [LF] ++ str "t".

(** C9, as the claim states it: the lines t, i, d, e against the lines
    d, i, e, t give the ratio 3/2, and the other way round the ratio 1. *)

Lemma C9_ratio_is_not_symmetric :
  (change_ratio tide diet == 3 # 2)%Q
  ∧ (change_ratio diet tide == 1)%Q
  ∧ ¬ (change_ratio tide diet == change_ratio diet tide)%Q.
Proof. unfold Qeq. by vm_compute. Qed.

(** C9 (amended): the larger line count is the same in both directions,
    the changed lines are the lines of both contents that the alignment
    does not match, and so the two ratios are equal exactly when the
    alignment of (a, b) and the alignment of (b, a) match the same number
    of lines. *)
Theorem C9_ratio_symmetric_iff_same_matches (a b : list N) :
  let lines1 := splitlines false a in
  let lines2 := splitlines false b in
  max_lines a b = max_lines b a
  ∧ changed_lines a b + 2 * unchanged (compare lines1 lines2)
    = length lines1 + length lines2
  ∧ changed_lines b a + 2 * unchanged (compare lines2 lines1)
    = length lines1 + length lines2
  ∧ ((change_ratio a b == change_ratio b a)%Q
     ↔ unchanged (compare lines1 lines2) = unchanged (compare lines2 lines1)).
Proof.
  intros lines1 lines2.
  pose proof (compare_count lines1 lines2) as H1.
  pose proof (compare_count lines2 lines1) as H2.
  pose proof (compare_unchanged_le lines1 lines2) as H3.
  pose proof (compare_unchanged_le lines2 lines1) as H4.
  split_and!; [apply max_lines_comm|done|rewrite changed_lines_eq; fold lines1 lines2; lia|].
  unfold change_ratio. rewrite (max_lines_comm b a), !changed_lines_eq.
  fold lines1 lines2.
  destruct (decide (max_lines a b = 0)) as [E|E].
  { rewrite E. unfold max_lines in E. fold lines1 lines2 in E.
    split; [lia|]. intros _. unfold Qdiv, Qinv. simpl. by rewrite !Qmult_0_r. }
  split.
  - intros Heq. apply Qdiv_nat_inj in Heq; lia.
  - intros Heq. replace (changed (compare lines1 lines2))
      with (changed (compare lines2 lines1)) by lia. reflexivity.
Qed.

Lemma C9_ratio_symmetric_iff_same_matches_witness :
  unchanged (compare (splitlines false (str "a")) (splitlines false (str "b")))
  = unchanged (compare (splitlines false (str "b")) (splitlines false (str "a")))
  ∧ (change_ratio (str "a") (str "b") == change_ratio (str "b") (str "a"))%Q.
Proof.
  assert (unchanged (compare (splitlines false (str "a")) (splitlines false (str "b")))
          = unchanged (compare (splitlines false (str "b")) (splitlines false (str "a"))))
    as Hsame by (vm_compute; reflexivity).
  exact (conj Hsame
    (proj2 (proj2 (proj2 (proj2
       (C9_ratio_symmetric_iff_same_matches (str "a") (str "b"))))) Hsame)).
Defined.

(** C10: two contents that are not empty and split into the same lines
    have no changed line and are not significant at any positive
    threshold; when both files of a relative path can be read, the scan
    does not keep the pair. *)
Theorem C10_equal_lines_are_not_significant (threshold : Q) (c1 c2 : list N)
    (fs : node) (files1 files2 : gmap (list (list N)) (list (list N)))
    (rel p1 p2 : list (list N)) :
  c1 ≠ [] → c2 ≠ [] → splitlines false c1 = splitlines false c2 →
  (0 < threshold)%Q →
  files1 !! rel = Some p1 → files2 !! rel = Some p2 →
  read_text fs p1 = Returned c1 → read_text fs p2 = Returned c2 →
  changed_lines c1 c2 = 0
  ∧ (change_ratio c1 c2 == 0)%Q
  ∧ has_significant_changes threshold c1 c2 = false
  ∧ ∃ pairs, scan_files (has_significant_changes threshold) fs files1 files2 []
             = Returned pairs
             ∧ ∀ f1 f2, (f1, f2, rel) ∉ pairs.
Proof.
  intros H1 H2 Hlines Hthr Hf1 Hf2 Hr1 Hr2.
  assert (changed_lines c1 c2 = 0) as Hzero.
  { rewrite changed_lines_eq, Hlines. apply changed_compare_self. }
  assert (change_ratio c1 c2 == 0)%Q as Hratio.
  { unfold change_ratio. rewrite Hzero. unfold Qdiv. apply Qmult_0_l. }
  assert (has_significant_changes threshold c1 c2 = false) as Hsig.
  { rewrite has_significant_changes_nonempty by done.
    destruct (Qle_bool threshold (change_ratio c1 c2)) eqn:E; [|done].
    apply Qle_bool_iff in E. rewrite Hratio in E.
    by apply Qlt_not_le in Hthr. }
  split_and!; [done..|].
  eexists. split; [apply scan_files_spec|].
  intros f1 f2 (rel' & Heq & Hin)%list_elem_of_fmap.
  apply list_elem_of_filter in Hin as [Hret _].
  unfold pair_of in Heq. injection Heq as _ _ <-.
  unfold retained in Hret. rewrite Hf1, Hf2, Hr1, Hr2, Hsig in Hret.
  by rewrite andb_false_r in Hret.
Qed.

(** Two directories whose file differs only by a final line feed. *)
Definition two_trees : node :=
  Dir [(str "left", Dir [(str "f", File (Some (str "a" ++ [LF] ++ str "b")))]);
       (str "right", Dir [(str "f", File (Some (str "a" ++ [LF] ++ str "b" ++ [LF])))])].

Lemma C10_equal_lines_are_not_significant_witness :
  let c1 := str "a" ++ [LF] ++ str "b" in
  let c2 := c1 ++ [LF] in
  let files1 := listing two_trees [str "left"] in
  let files2 := listing two_trees [str "right"] in
  c1 ≠ c2
  ∧ splitlines false c1 = splitlines false c2
  ∧ has_significant_changes (1 # 20) c1 c2 = false
  ∧ ∃ pairs, scan_files (has_significant_changes (1 # 20)) two_trees files1 files2 []
             = Returned pairs
             ∧ ∀ f1 f2, (f1, f2, [str "f"]) ∉ pairs.
Proof.
  intros c1 c2 files1 files2.
  assert (c1 ≠ c2) as H0 by (vm_compute; discriminate).
  assert (c1 ≠ []) as H1 by (vm_compute; discriminate).
  assert (c2 ≠ []) as H2 by (vm_compute; discriminate).
  assert (splitlines false c1 = splitlines false c2) as H3
    by (vm_compute; reflexivity).
  assert (0 < 1 # 20)%Q as H4 by (vm_compute; reflexivity).
  assert (files1 !! [str "f"] = Some [str "left"; str "f"]) as H5
    by (vm_compute; reflexivity).
  assert (files2 !! [str "f"] = Some [str "right"; str "f"]) as H6
    by (vm_compute; reflexivity).
  assert (read_text two_trees [str "left"; str "f"] = Returned c1) as H7
    by (vm_compute; reflexivity).
  assert (read_text two_trees [str "right"; str "f"] = Returned c2) as H8
    by (vm_compute; reflexivity).
  exact (conj H0 (conj H3
    (proj2 (proj2
       (C10_equal_lines_are_not_significant (1 # 20) c1 c2 two_trees
          files1 files2 [str "f"] [str "left"; str "f"] [str "right"; str "f"]
          H1 H2 H3 H4 H5 H6 H7 H8))))).
Defined.

(** * Further properties of the lines, the classifier and the highlighting *)

(** ** Lines with and without their terminators *)

(** The part of a line before its line break. *)
Fixpoint line_body (line : list N) : list N :=
  match line with
  | [] => []
  | c :: rest => if is_linebreak c then [] else c :: line_body rest
  end.

(** X1: the lines that the classifier counts ([splitlines()], line 150)
    are the lines that the aligner compares ([splitlines(True)], line 252)
    without their terminators, one for one; both calls see the same
    number of lines. *)
Theorem splitlines_strips_terminators (s : list N) :
  splitlines false s = line_body <$> splitlines true s
  ∧ length (splitlines false s) = length (splitlines true s).
Proof.
  assert (splitlines false s = line_body <$> splitlines true s) as E.
  { remember (length s) as n eqn:Hn. revert s Hn.
    induction n as [n IH] using lt_wf_ind. intros [|c s] Hn; [done|].
    rewrite !splitlines_cons. destruct (is_linebreak c) eqn:Hc.
    - destruct s as [|c' s']; [by cbn; rewrite Hc|].
      destruct (_ && _); cbn [fmap list_fmap line_body]; rewrite Hc; f_equal.
      + apply (IH (length s')); simpl in *; lia.
      + apply (IH (length (c' :: s'))); simpl in *; [lia | done].
    - rewrite (IH (length s) ltac:(simpl in *; lia) s eq_refl).
      destruct (splitlines true s) as [|line lines];
        cbn [fmap list_fmap line_body]; by rewrite Hc. }
  split; [done|]. by rewrite E, length_fmap.
Qed.

(** ** The classifier at the ends of the threshold range *)

(** X2: with a threshold of zero or less the classifier calls every pair
    significant unless both contents are empty, identical contents
    included: the ratio is never negative. *)
Theorem nonpositive_threshold_accepts_all (threshold : Q) (c1 c2 : list N) :
  (threshold <= 0)%Q →
  has_significant_changes threshold c1 c2 = true ↔ c1 ≠ [] ∨ c2 ≠ [].
Proof.
  intros Ht. destruct c1 as [|x1 c1], c2 as [|x2 c2]; try (cbn; naive_solver).
  rewrite has_significant_changes_nonempty by done.
  rewrite Qle_bool_iff. split; [naive_solver|]. intros _.
  eapply Qle_trans; [exact Ht | apply change_ratio_bounds].
Qed.

Lemma nonpositive_threshold_accepts_all_witness :
  (0 <= 0)%Q
  ∧ (has_significant_changes 0 (str "same") (str "same") = true
     ↔ str "same" ≠ [] ∨ str "same" ≠ []).
Proof.
  exact (conj (Qle_refl 0)
              (nonpositive_threshold_accepts_all 0 (str "same") (str "same")
                 (Qle_refl 0))).
Defined.

(** X3: with a threshold above 2 the classifier calls a pair significant
    only when exactly one of the contents is empty: the ratio never
    exceeds 2. *)
Theorem threshold_above_two_rejects_all (threshold : Q) (c1 c2 : list N) :
  (2 < threshold)%Q →
  has_significant_changes threshold c1 c2 = true
  ↔ (c1 = [] ∧ c2 ≠ []) ∨ (c1 ≠ [] ∧ c2 = []).
Proof.
  intros Ht. destruct c1 as [|x1 c1], c2 as [|x2 c2]; try (cbn; naive_solver).
  rewrite has_significant_changes_nonempty by done.
  rewrite Qle_bool_iff. split; [|naive_solver]. intros Hle. exfalso.
  apply (Qlt_irrefl 2). eapply Qlt_le_trans; [exact Ht|].
  eapply Qle_trans; [exact Hle | apply change_ratio_bounds].
Qed.

Lemma threshold_above_two_rejects_all_witness :
  (2 < 3)%Q
  ∧ (has_significant_changes 3 (str "a") (str "b") = true
     ↔ (str "a" = [] ∧ str "b" ≠ []) ∨ (str "a" ≠ [] ∧ str "b" = [])).
Proof.
  exact (conj (eq_refl : (2 < 3)%Q)
              (threshold_above_two_rejects_all 3 (str "a") (str "b")
                 (eq_refl : (2 < 3)%Q))).
Defined.

(** X4: the lines by which the two line counts differ are all counted as
    changed, so a pair of contents that are not empty is significant as
    soon as the difference of the line counts reaches the threshold times
    the larger count. *)
Theorem line_count_difference_is_significant (threshold : Q) (c1 c2 : list N) :
  c1 ≠ [] → c2 ≠ [] →
  let n1 := length (splitlines false c1) in
  let n2 := length (splitlines false c2) in
  (threshold * inject_Z (Z.of_nat (n1 `max` n2))
   <= inject_Z (Z.of_nat (n1 `max` n2 - n1 `min` n2)))%Q →
  n1 `max` n2 - n1 `min` n2 ≤ changed_lines c1 c2
  ∧ has_significant_changes threshold c1 c2 = true.
Proof.
  intros H1 H2 n1 n2 Ht.
  assert (n1 `max` n2 - n1 `min` n2 ≤ changed_lines c1 c2) as Hd.
  { rewrite changed_lines_eq.
    pose proof (compare_count (splitlines false c1) (splitlines false c2)).
    pose proof (compare_unchanged_le (splitlines false c1) (splitlines false c2)).
    subst n1 n2. lia. }
  split; [done|].
  rewrite has_significant_changes_nonempty by done. apply Qle_bool_iff.
  pose proof (max_lines_pos c1 c2 H1) as Hpos.
  unfold change_ratio.
  change (max_lines c1 c2) with (n1 `max` n2) in *.
  apply Qle_shift_div_l; [by apply inject_nat_pos|].
  eapply Qle_trans; [exact Ht|].
  rewrite <-Zle_Qle. lia.
Qed.

Lemma line_count_difference_is_significant_witness :
  let c1 := str "a" in
  let c2 := [97; 10; 98; 10; 99]%N in
  c1 ≠ [] ∧ c2 ≠ []
  ∧ 1 `max` 3 - 1 `min` 3 ≤ changed_lines c1 c2
  ∧ has_significant_changes (1 # 2) c1 c2 = true.
Proof.
  exact (conj (ltac:(discriminate) : str "a" ≠ [])
          (conj (ltac:(discriminate) : [97; 10; 98; 10; 99]%N ≠ [])
             (line_count_difference_is_significant (1 # 2) (str "a")
                [97; 10; 98; 10; 99]%N ltac:(discriminate) ltac:(discriminate)
                ltac:(vm_compute; discriminate)))).
Defined.

(** ** What the highlighting leaves untagged *)

(** The lines that a script gives to both sides. *)
Definition common (diff : list (list N)) : list (list N) :=
  drop 2 <$> filter (λ line, is_unchanged line = true) diff.

(** The lines of a text widget that carry no ['diff'] tag; [k] is the
    number of the first of [lines]. *)
Fixpoint untagged (k : nat) (tagged : list nat) (lines : list (list N))
    : list (list N) :=
  match lines with
  | [] => []
  | line :: lines' =>
      if bool_decide (k ∈ tagged) then untagged (S k) tagged lines'
      else line :: untagged (S k) tagged lines'
  end.

Lemma common_app d1 d2 : common (d1 ++ d2) = common d1 ++ common d2.
Proof. unfold common. by rewrite filter_app, fmap_app. Qed.

Lemma common_length diff : length (common diff) = unchanged diff.
Proof. unfold common, unchanged. by rewrite length_fmap. Qed.

Lemma untagged_snoc k tagged lines line :
  untagged k tagged (lines ++ [line])
  = untagged k tagged lines
    ++ (if bool_decide (k + length lines ∈ tagged) then [] else [line]).
Proof.
  revert k. induction lines as [|x lines IH]; intros k; cbn [untagged app length].
  - rewrite Nat.add_0_r. by case_bool_decide.
  - rewrite IH. replace (S k + length lines) with (k + S (length lines)) by lia.
    by case_bool_decide.
Qed.

Lemma untagged_ext k t1 t2 lines :
  (∀ p, k ≤ p < k + length lines → p ∈ t1 ↔ p ∈ t2) →
  untagged k t1 lines = untagged k t2 lines.
Proof.
  revert k. induction lines as [|x lines IH]; intros k Hp; [done|].
  cbn [untagged]. rewrite (IH (S k)) by (intros p ?; apply Hp; simpl; lia).
  pose proof (Hp k ltac:(simpl; lia)). repeat case_bool_decide; naive_solver.
Qed.

Lemma untagged_length k tagged lines :
  NoDup tagged → Forall (λ x, k ≤ x < k + length lines) tagged →
  length (untagged k tagged lines) + length tagged = length lines.
Proof.
  revert k tagged. induction lines as [|x lines IH]; intros k tagged Hnd Hin.
  - destruct tagged as [|t tagged]; [done|].
    apply Forall_cons_1 in Hin as [? _]. simpl in *. lia.
  - cbn [untagged]. case_bool_decide as Hk.
    + apply list_elem_of_split in Hk as (t1 & t2 & ->).
      apply NoDup_app in Hnd as (Hn1 & Hn12 & Hn2).
      apply NoDup_cons in Hn2 as [Hk2 Hn2].
      apply Forall_app in Hin as [Hin1 Hin2].
      apply Forall_cons_1 in Hin2 as [_ Hin2].
      rewrite (untagged_ext (S k) _ (t1 ++ t2)).
      * assert (length (untagged (S k) (t1 ++ t2) lines) + length (t1 ++ t2)
                = length lines) as E.
        { apply IH.
          - apply NoDup_app. split_and!; [done| |done].
            intros y Hy1 Hy2. apply (Hn12 y Hy1). by right.
          - apply Forall_app. split.
            + apply Forall_forall. intros y Hy.
              pose proof (proj1 (Forall_forall _ _) Hin1 y Hy).
              assert (y ≠ k) by (intros ->; apply (Hn12 k Hy); by left).
              simpl in *. lia.
            + apply Forall_forall. intros y Hy.
              pose proof (proj1 (Forall_forall _ _) Hin2 y Hy).
              assert (y ≠ k) by (by intros ->).
              simpl in *. lia. }
        rewrite !length_app in *. simpl. lia.
      * intros p Hp. rewrite !elem_of_app, elem_of_cons. split; [|naive_solver].
        intros [?|[->|?]]; [by left|lia|by right].
    + simpl. rewrite IH; [done|done|].
      apply Forall_forall. intros y Hy.
      pose proof (proj1 (Forall_forall _ _) Hin y Hy).
      assert (y ≠ k) by (by intros ->). simpl in *. lia.
Qed.

(** What the loop of [highlight_diff] keeps, besides [highlight_inv]: the
    tagged numbers ascend and lie below the cursors, and the lines left
    without a tag are the common lines of the script, on both sides. *)
Definition highlight_sync (diff : list (list N))
    (st : nat * nat * list nat * list nat) : Prop :=
  let '(l, r, lefts, rights) := st in
  l = 1 + length (restore diff 1)
  ∧ r = 1 + length (restore diff 2)
  ∧ StronglySorted lt lefts ∧ Forall (λ x, 1 ≤ x < l) lefts
  ∧ StronglySorted lt rights ∧ Forall (λ x, 1 ≤ x < r) rights
  ∧ untagged 1 lefts (restore diff 1) = common diff
  ∧ untagged 1 rights (restore diff 2) = common diff.

Lemma StronglySorted_snoc_lt (xs : list nat) (l : nat) :
  StronglySorted lt xs → Forall (λ x, 1 ≤ x < l) xs →
  StronglySorted lt (xs ++ [l]).
Proof.
  intros Hs Hb. induction Hs as [|x xs Hs IH Hx]; simpl.
  - repeat constructor.
  - apply Forall_cons_1 in Hb as [Hxl Hb]. constructor; [by apply IH|].
    apply Forall_app. split; [done|]. constructor; [lia|done].
Qed.

Lemma Forall_below_mono (xs : list nat) (l l' : nat) :
  l ≤ l' → Forall (λ x, 1 ≤ x < l) xs → Forall (λ x, 1 ≤ x < l') xs.
Proof. intros Hl Hxs. eapply Forall_impl; [done|]. simpl. lia. Qed.

Lemma untagged_snoc_tagged (xs : list nat) (lines : list (list N)) line :
  Forall (λ x, 1 ≤ x < 1 + length lines) xs →
  untagged 1 (xs ++ [1 + length lines]) (lines ++ [line]) = untagged 1 xs lines.
Proof.
  intros Hb. rewrite untagged_snoc, bool_decide_true, app_nil_r.
  - apply untagged_ext. intros p Hp. rewrite elem_of_app, list_elem_of_singleton.
    split; [|by left]. intros [?| ->]; [done|lia].
  - apply elem_of_app. right. by left.
Qed.

Lemma untagged_snoc_untagged (xs : list nat) (lines : list (list N)) line :
  Forall (λ x, 1 ≤ x < 1 + length lines) xs →
  untagged 1 xs (lines ++ [line]) = untagged 1 xs lines ++ [line].
Proof.
  intros Hb. rewrite untagged_snoc, bool_decide_false; [done|].
  intros Hin. pose proof (proj1 (Forall_forall _ _) Hb _ Hin). simpl in *. lia.
Qed.

Lemma highlight_loop_sync diff :
  highlight_sync diff (foldl highlight_step (1, 1, [], []) diff).
Proof.
  induction diff as [|line diff IH] using rev_ind.
  { simpl. split_and!; try done; constructor. }
  rewrite foldl_snoc.
  destruct (foldl highlight_step (1, 1, [], []) diff) as [[[l r] lefts] rights].
  destruct IH as (Hl & Hr & Hsl & Hbl & Hsr & Hbr & Hul & Hur).
  subst l r.
  pose proof (restore_app diff [line] 1) as R1.
  pose proof (restore_app diff [line] 2) as R2.
  pose proof (common_app diff [line]) as Hc.
  rewrite restore_cons in R1, R2.
  change (restore [] 1) with (@nil (list N)) in R1.
  change (restore [] 2) with (@nil (list N)) in R2.
  rewrite app_nil_r in R1, R2.
  unfold common at 3 in Hc. rewrite filter_cons, filter_nil in Hc.
  unfold is_unchanged in Hc. unfold highlight_step, highlight_sync.
  change (str "- ") with [MINUS; SPACE] in *.
  change (str "+ ") with [PLUS; SPACE] in *.
  change (str "  ") with [SPACE; SPACE] in *.
  change (tag_of 1) with MINUS in R1. change (tag_of 2) with PLUS in R2.
  rewrite R1, R2, Hc. clear R1 R2 Hc.
  destruct (startswith [MINUS; SPACE] line) eqn:Hm.
  { pose proof (startswith2_inv _ _ _ Hm) as Hline.
    assert (startswith [PLUS; SPACE] line = false) as Hp by (by rewrite Hline).
    assert (startswith [SPACE; SPACE] line = false) as Hs by (by rewrite Hline).
    rewrite Hp, Hs. cbn [orb]. rewrite decide_False by done.
    cbn [fmap list_fmap]. rewrite !app_nil_r, length_app. cbn [length].
    split_and!; [lia|done| | |done|done| |done].
    - by apply StronglySorted_snoc_lt.
    - apply Forall_app. split; [by eapply Forall_below_mono; [|done]; lia|].
      constructor; [lia|done].
    - by rewrite untagged_snoc_tagged. }
  destruct (startswith [PLUS; SPACE] line) eqn:Hp.
  { pose proof (startswith2_inv _ _ _ Hp) as Hline.
    assert (startswith [SPACE; SPACE] line = false) as Hs by (by rewrite Hline).
    rewrite Hs. cbn [orb]. rewrite decide_False by done.
    cbn [fmap list_fmap]. rewrite !app_nil_r, length_app. cbn [length].
    split_and!; [done|lia|done|done| | |done|].
    - by apply StronglySorted_snoc_lt.
    - apply Forall_app. split; [by eapply Forall_below_mono; [|done]; lia|].
      constructor; [lia|done].
    - by rewrite untagged_snoc_tagged. }
  destruct (startswith [SPACE; SPACE] line) eqn:Hs; cbn [orb].
  - rewrite decide_True by done. cbn [fmap list_fmap].
    rewrite !length_app. cbn [length].
    split_and!; [lia|lia|done| |done| | |].
    + eapply Forall_below_mono; [|done]; lia.
    + eapply Forall_below_mono; [|done]; lia.
    + by rewrite untagged_snoc_untagged, Hul.
    + by rewrite untagged_snoc_untagged, Hur.
  - rewrite decide_False by done. cbn [fmap list_fmap]. rewrite !app_nil_r.
    done.
Qed.

(** X5: when neither side is flagged as missing, [highlight_diff] tags
    ascending line numbers without repetition, each between 1 and the
    number of lines of its side, and what stays untagged is the same list
    of lines on the left and on the right. *)
Theorem highlight_diff_tags_in_step (c1 c2 : list N) :
  left_missing (highlight_diff c1 c2) = false →
  right_missing (highlight_diff c1 c2) = false →
  let lines1 := splitlines true c1 in
  let lines2 := splitlines true c2 in
  let lefts := left_diff (highlight_diff c1 c2) in
  let rights := right_diff (highlight_diff c1 c2) in
  StronglySorted lt lefts ∧ Forall (λ x, 1 ≤ x ≤ length lines1) lefts
  ∧ StronglySorted lt rights ∧ Forall (λ x, 1 ≤ x ≤ length lines2) rights
  ∧ untagged 1 lefts lines1 = untagged 1 rights lines2
  ∧ length lines1 - length lefts = length lines2 - length rights.
Proof.
  unfold highlight_diff.
  destruct (negb (truthy c1) && truthy c2); [done|].
  destruct (negb (truthy c2) && truthy c1); [done|]. intros _ _.
  pose proof (highlight_loop_sync (aligned c1 c2)) as Hinv.
  destruct (foldl highlight_step (1, 1, [], []) (aligned c1 c2))
    as [[[l r] lefts] rights].
  destruct Hinv as (Hl & Hr & Hsl & Hbl & Hsr & Hbr & Hul & Hur).
  destruct (restore_compare (splitlines true c1) (splitlines true c2)) as [R1 R2].
  unfold aligned in *. rewrite R1 in Hl, Hul. rewrite R2 in Hr, Hur.
  cbn [left_diff right_diff]. subst l r.
  assert (∀ (xs : list nat) lines,
            StronglySorted lt xs → Forall (λ x, 1 ≤ x < 1 + length lines) xs →
            length lines - length xs = length (untagged 1 xs lines)) as Hcount.
  { intros xs lines Hs Hb.
    rewrite <-(untagged_length 1 xs lines); [lia| |done].
    clear Hb. induction Hs as [|x xs Hs IH Hx]; constructor; [|done].
    intros Hin. pose proof (proj1 (Forall_forall _ _) Hx _ Hin). lia. }
  split_and!; [done| |done| | |].
  - eapply Forall_impl; [done|]. simpl. lia.
  - eapply Forall_impl; [done|]. simpl. lia.
  - by rewrite Hul, Hur.
  - by rewrite !Hcount, Hul, Hur.
Qed.

Lemma highlight_diff_tags_in_step_witness :
  let c1 := [97; 10; 98; 10; 99; 10]%N in
  let c2 := [97; 10; 120; 10; 99; 10; 100; 10]%N in
  left_diff (highlight_diff c1 c2) = [2]
  ∧ right_diff (highlight_diff c1 c2) = [2; 4]
  ∧ untagged 1 (left_diff (highlight_diff c1 c2)) (splitlines true c1)
    = untagged 1 (right_diff (highlight_diff c1 c2)) (splitlines true c2).
Proof.
  intros c1 c2.
  split; [vm_compute; reflexivity|]. split; [vm_compute; reflexivity|].
  exact (proj1 (proj2 (proj2 (proj2 (proj2
           (highlight_diff_tags_in_step c1 c2
              ltac:(vm_compute; reflexivity) ltac:(vm_compute; reflexivity))))))).
Defined.

(** The script of a content against itself tags nothing. *)
Lemma highlight_diff_same (c : list N) :
  highlight_diff c c = Marks [] [] false false.
Proof.
  unfold highlight_diff. destruct c as [|x c]; [done|].
  cbn [truthy negb andb]. unfold aligned. rewrite compare_self.
  generalize (splitlines true (x :: c)). intros lines.
  enough (∀ l r, foldl highlight_step (l, r, [], [])
                   ((λ line, SPACE :: SPACE :: line) <$> lines)
                 = (l + length lines, r + length lines, [], [])) as E
    by (by rewrite E).
  induction lines as [|line lines IH]; intros l r.
  - simpl. by rewrite !Nat.add_0_r.
  - cbn [fmap list_fmap foldl]. change (highlight_step (l, r, [], []) _)
      with (l + 1, r + 1, @nil nat, @nil nat).
    rewrite IH. simpl. do 3 f_equal; lia.
Qed.

(** * The enumeration of a tree *)

(** Induction over a file system: a directory is reached from its
    entries. *)
Lemma node_ind' (P : node → Prop) :
  (∀ content, P (File content)) →
  (∀ entries, Forall (λ e, P e.2) entries → P (Dir entries)) →
  ∀ n, P n.
Proof.
  intros HF HD. fix IH 1. intros [content|entries]; [apply HF|].
  apply HD. induction entries as [|[name child] entries IHe]; constructor;
    [apply IH | exact IHe].
Qed.

Lemma walk_Dir entries :
  walk (Dir entries)
  = (entries ≫= λ '(name, child),
       match child with File _ => [[name]] | Dir _ => [] end)
    ++ (entries ≫= λ '(name, child),
          match child with
          | File _ => []
          | Dir _ =>
              if bool_decide (name ∈ IGNORED_DIRS_DEFAULT) then []
              else (name ::.) <$> walk child
          end).
Proof. done. Qed.

Lemma elem_of_walk entries rel :
  rel ∈ walk (Dir entries)
  ↔ ((∃ name content, (name, File content) ∈ entries ∧ rel = [name])
    ∨ (∃ name es rest, (name, Dir es) ∈ entries
         ∧ (name ∉ IGNORED_DIRS_DEFAULT) ∧ rest ∈ walk (Dir es)
         ∧ rel = name :: rest)).
Proof.
  rewrite walk_Dir, elem_of_app, !list_elem_of_bind. split.
  - intros [([name [content|es]] & Hrel & Hin)|([name [content|es]] & Hrel & Hin)].
    + apply list_elem_of_singleton in Hrel. left. eauto.
    + by apply elem_of_nil in Hrel.
    + by apply elem_of_nil in Hrel.
    + case_bool_decide; [by apply elem_of_nil in Hrel|].
      apply list_elem_of_fmap in Hrel as (rest & -> & Hrest). right.
      by exists name, es, rest.
  - intros [(name & content & Hin & ->)|(name & es & rest & Hin & Hign & Hrest & ->)].
    + left. exists (name, File content). split; [by left|done].
    + right. exists (name, Dir es). split; [|done].
      rewrite bool_decide_false by done. apply list_elem_of_fmap. eauto.
Qed.

(** The segments of a relative path that name directories. *)
Definition directories (rel : list (list N)) : list (list N) :=
  take (length rel - 1) rel.

Lemma directories_cons name rest :
  rest ≠ [] → directories (name :: rest) = name :: directories rest.
Proof.
  unfold directories. destruct rest as [|x rest]; [done|]. intros _.
  cbn [length]. by rewrite !Nat.sub_succ, !Nat.sub_0_r.
Qed.

Lemma walk_nonempty n rel : rel ∈ walk n → rel ≠ [].
Proof.
  destruct n as [content|entries]; [by intros ?%elem_of_nil|].
  intros [(name & content & _ & ->)|(name & es & rest & _ & _ & _ & ->)]%elem_of_walk;
    done.
Qed.

Lemma walk_prunes n : ∀ rel,
  rel ∈ walk n → ∀ d, d ∈ directories rel → d ∉ IGNORED_DIRS_DEFAULT.
Proof.
  induction n as [content|entries IH] using node_ind'; intros rel Hrel d Hd.
  { by apply elem_of_nil in Hrel. }
  apply elem_of_walk in Hrel
    as [(name & content & _ & ->)|(name & es & rest & Hin & Hign & Hrest & ->)].
  { by apply elem_of_nil in Hd. }
  rewrite directories_cons in Hd by (by eapply walk_nonempty).
  apply elem_of_cons in Hd as [->|Hd]; [done|].
  pose proof (proj1 (Forall_forall _ _) IH _ Hin) as IHc. by eapply IHc.
Qed.

(** The files that [list_files] goes through. *)
Definition walked (fs : node) (base : list (list N)) : list (list (list N)) :=
  match lookup_node fs base with
  | Some (Dir entries) => walk (Dir entries)
  | _ => []
  end.

Lemma foldl_insert_lookup {B : Type} (f : list (list N) → B)
    (l : list (list (list N))) : ∀ (m : gmap (list (list N)) B) k,
  foldl (λ result rel, <[rel := f rel]> result) m l !! k
  = if bool_decide (k ∈ l) then Some (f k) else m !! k.
Proof.
  induction l as [|x l IH]; intros m k; [done|].
  cbn [foldl]. rewrite IH. destruct (decide (k = x)) as [->|Hne].
  - rewrite lookup_insert_eq, (bool_decide_true (x ∈ x :: l)) by (by left).
    by case_bool_decide.
  - rewrite lookup_insert_ne by done.
    assert (k ∈ x :: l ↔ k ∈ l) as Hiff by (rewrite elem_of_cons; naive_solver).
    repeat case_bool_decide; naive_solver.
Qed.

Lemma listing_lookup fs base rel :
  listing fs base !! rel
  = if bool_decide (rel ∈ walked fs base) then Some (base ++ rel) else None.
Proof.
  unfold listing, walked. destruct (lookup_node fs base) as [[c|entries]|].
  - rewrite lookup_empty. rewrite bool_decide_false; [done|]. by intros ?%elem_of_nil.
  - by rewrite foldl_insert_lookup, lookup_empty.
  - rewrite lookup_empty. rewrite bool_decide_false; [done|]. by intros ?%elem_of_nil.
Qed.

Lemma list_files_Returned fs base files :
  list_files fs base = Returned files →
  fsencodable base = true ∧ files = listing fs base.
Proof. unfold list_files. destruct (fsencodable base); naive_solver. Qed.

(** A small project in two versions: the old one has a build directory
    and a file that cannot be read. *)
Definition project : node :=
  Dir [(str "old",
        Dir [(str "main.py", File (Some (str "print(1)")));
             (str "data.bin", File None);
             (str "build", Dir [(str "main.o", File (Some (str "o")))]);
             (str "lib", Dir [(str "util.py", File (Some (str "pass")))])]);
       (str "new",
        Dir [(str "main.py", File (Some (str "print(2)")));
             (str "data.bin", File (Some (str "d")));
             (str "lib", Dir [(str "util.py", File (Some (str "pass")));
                              (str "extra.py", File (Some (str "x")))])])].

(** X6: [list_files] never lists a file below a directory whose name is
    in [IGNORED_DIRS_DEFAULT], at any depth below the root; the name of
    the root itself and the names of files are not looked at. *)
Theorem list_files_prunes_ignored (fs : node) (base : list (list N))
    (files : gmap (list (list N)) (list (list N))) (rel : list (list N)) :
  list_files fs base = Returned files →
  is_Some (files !! rel) →
  rel ≠ [] ∧ ∀ d, d ∈ directories rel → d ∉ IGNORED_DIRS_DEFAULT.
Proof.
  intros [_ ->]%list_files_Returned.
  rewrite listing_lookup. case_bool_decide as Hrel; [|by intros [? ?]].
  intros _. unfold walked in Hrel.
  destruct (lookup_node fs base) as [[c|entries]|]; try by apply elem_of_nil in Hrel.
  split; [by eapply walk_nonempty | by eapply walk_prunes].
Qed.

Lemma list_files_prunes_ignored_witness :
  list_files project [str "old"] = Returned (listing project [str "old"])
  ∧ is_Some (listing project [str "old"] !! [str "lib"; str "util.py"])
  ∧ listing project [str "old"] !! [str "build"; str "main.o"] = None
  ∧ [str "lib"; str "util.py"] ≠ []
  ∧ ∀ d, d ∈ directories [str "lib"; str "util.py"] → d ∉ IGNORED_DIRS_DEFAULT.
Proof.
  assert (list_files project [str "old"] = Returned (listing project [str "old"]))
    as Hfiles by reflexivity.
  assert (is_Some (listing project [str "old"] !! [str "lib"; str "util.py"]))
    as Hlisted.
  { exists [str "old"; str "lib"; str "util.py"]. vm_compute. reflexivity. }
  assert (listing project [str "old"] !! [str "build"; str "main.o"] = None)
    as Hpruned by (vm_compute; reflexivity).
  exact (conj Hfiles (conj Hlisted (conj Hpruned
           (list_files_prunes_ignored project [str "old"] _
              [str "lib"; str "util.py"] Hfiles Hlisted)))).
Defined.

(** * The pairs that the scan keeps *)

Lemma elem_of_scan_files (classify : list N → list N → bool) (fs : node)
    (files1 files2 : gmap (list (list N)) (list (list N)))
    (pairs : list (option (list (list N)) * option (list (list N)) * list (list N)))
    (f1 f2 : option (list (list N))) (rel : list (list N)) :
  scan_files classify fs files1 files2 [] = Returned pairs →
  (f1, f2, rel) ∈ pairs
  ↔ f1 = files1 !! rel ∧ f2 = files2 !! rel
    ∧ (is_Some (files1 !! rel) ∨ is_Some (files2 !! rel))
    ∧ retained classify fs files1 files2 rel = true.
Proof.
  rewrite scan_files_spec. intros [= <-].
  rewrite list_elem_of_fmap. unfold pair_of. split.
  - intros (rel' & [= -> -> ->] & [Hret Hin%elem_of_all_paths]%list_elem_of_filter).
    done.
  - intros (-> & -> & Hin & Hret). exists rel. split; [done|].
    apply list_elem_of_filter. split; [done|]. by apply elem_of_all_paths.
Qed.

Example project_scan :
  scan_files (has_significant_changes (1 # 20)) project
    (listing project [str "old"]) (listing project [str "new"]) []
  = Returned
      [(Some [str "old"; str "data.bin"], Some [str "new"; str "data.bin"],
        [str "data.bin"]);
       (None, Some [str "new"; str "lib"; str "extra.py"],
        [str "lib"; str "extra.py"]);
       (Some [str "old"; str "main.py"], Some [str "new"; str "main.py"],
        [str "main.py"])].
Proof. vm_compute. reflexivity. Qed.

(** X9: the scan makes up no pair. Every pair that it returns holds, for
    its relative path, what the two enumerations hold for that path, and
    at least one of its two sides is present. *)
Theorem scan_pairs_come_from_the_enumerations
    (classify : list N → list N → bool) (fs : node)
    (files1 files2 : gmap (list (list N)) (list (list N)))
    (pairs : list (option (list (list N)) * option (list (list N)) * list (list N)))
    (f1 f2 : option (list (list N))) (rel : list (list N)) :
  scan_files classify fs files1 files2 [] = Returned pairs →
  (f1, f2, rel) ∈ pairs →
  f1 = files1 !! rel ∧ f2 = files2 !! rel ∧ (is_Some f1 ∨ is_Some f2).
Proof.
  intros Hscan (-> & -> & Hin & _)%(elem_of_scan_files _ _ _ _ _ _ _ _ Hscan).
  done.
Qed.

Lemma scan_pairs_come_from_the_enumerations_witness :
  let files1 := listing project [str "old"] in
  let files2 := listing project [str "new"] in
  let rel := [str "lib"; str "extra.py"] in
  let f2 := Some [str "new"; str "lib"; str "extra.py"] in
  ∃ pairs,
    scan_files (has_significant_changes (1 # 20)) project files1 files2 []
    = Returned pairs
    ∧ (None, f2, rel) ∈ pairs
    ∧ None = files1 !! rel ∧ f2 = files2 !! rel
    ∧ (is_Some (@None (list (list N))) ∨ is_Some f2).
Proof.
  intros files1 files2 rel f2. eexists. split; [exact project_scan|].
  assert ((None, f2, rel)
          ∈ [(Some [str "old"; str "data.bin"], Some [str "new"; str "data.bin"],
              [str "data.bin"]);
             (None, Some [str "new"; str "lib"; str "extra.py"],
              [str "lib"; str "extra.py"]);
             (Some [str "old"; str "main.py"], Some [str "new"; str "main.py"],
              [str "main.py"])]) as Hin
    by (apply list_elem_of_further, list_elem_of_here).
  exact (conj Hin
           (scan_pairs_come_from_the_enumerations
              (has_significant_changes (1 # 20)) project files1 files2 _
              None f2 rel project_scan Hin)).
Defined.


(** X10: a path that both enumerations have and whose two files can be
    read is kept exactly when the contents differ and the classifier
    calls them significant; two files with the same content are dropped
    whatever the classifier says. *)
Theorem scan_keeps_readable_pair_iff
    (classify : list N → list N → bool) (fs : node)
    (files1 files2 : gmap (list (list N)) (list (list N)))
    (pairs : list (option (list (list N)) * option (list (list N)) * list (list N)))
    (rel p1 p2 : list (list N)) (content1 content2 : list N) :
  files1 !! rel = Some p1 → files2 !! rel = Some p2 →
  read_text fs p1 = Returned content1 → read_text fs p2 = Returned content2 →
  scan_files classify fs files1 files2 [] = Returned pairs →
  (Some p1, Some p2, rel) ∈ pairs
  ↔ content1 ≠ content2 ∧ classify content1 content2 = true.
Proof.
  intros Hf1 Hf2 Hr1 Hr2 Hscan.
  rewrite (elem_of_scan_files _ _ _ _ _ _ _ _ Hscan).
  unfold retained. rewrite Hf1, Hf2, Hr1, Hr2.
  rewrite andb_true_iff, bool_decide_eq_true. naive_solver.
Qed.

Lemma scan_keeps_readable_pair_iff_witness :
  let files1 := listing project [str "old"] in
  let files2 := listing project [str "new"] in
  files1 !! [str "main.py"] = Some [str "old"; str "main.py"]
  ∧ read_text project [str "old"; str "main.py"] = Returned (str "print(1)")
  ∧ ((Some [str "old"; str "main.py"], Some [str "new"; str "main.py"],
      [str "main.py"])
     ∈ [(Some [str "old"; str "data.bin"], Some [str "new"; str "data.bin"],
         [str "data.bin"]);
        (None, Some [str "new"; str "lib"; str "extra.py"],
         [str "lib"; str "extra.py"]);
        (Some [str "old"; str "main.py"], Some [str "new"; str "main.py"],
         [str "main.py"])]
     ↔ str "print(1)" ≠ str "print(2)"
       ∧ has_significant_changes (1 # 20) (str "print(1)") (str "print(2)") = true).
Proof.
  intros files1 files2.
  assert (files1 !! [str "main.py"] = Some [str "old"; str "main.py"]) as Hf1
    by (vm_compute; reflexivity).
  assert (files2 !! [str "main.py"] = Some [str "new"; str "main.py"]) as Hf2
    by (vm_compute; reflexivity).
  assert (read_text project [str "old"; str "main.py"] = Returned (str "print(1)"))
    as Hr1 by (vm_compute; reflexivity).
  assert (read_text project [str "new"; str "main.py"] = Returned (str "print(2)"))
    as Hr2 by (vm_compute; reflexivity).
  exact (conj Hf1 (conj Hr1
           (scan_keeps_readable_pair_iff (has_significant_changes (1 # 20))
              project files1 files2 _ [str "main.py"] _ _ _ _
              Hf1 Hf2 Hr1 Hr2 project_scan))).
Defined.


(** X11: when one of the two files of a path cannot be read, the scan
    keeps the pair ("assume they're different") and goes on. *)
Theorem scan_keeps_unreadable_pair
    (classify : list N → list N → bool) (fs : node)
    (files1 files2 : gmap (list (list N)) (list (list N)))
    (rel p1 p2 : list (list N)) :
  files1 !! rel = Some p1 → files2 !! rel = Some p2 →
  read_text fs p1 = Raised ∨ read_text fs p2 = Raised →
  ∃ pairs, scan_files classify fs files1 files2 [] = Returned pairs
           ∧ (Some p1, Some p2, rel) ∈ pairs.
Proof.
  intros Hf1 Hf2 Hr. eexists. split; [apply scan_files_spec|].
  apply (elem_of_scan_files classify fs files1 files2 _ _ _ _
           (scan_files_spec classify fs files1 files2)).
  rewrite Hf1, Hf2. split_and!; [done|done|by left|].
  unfold retained. rewrite Hf1, Hf2.
  destruct Hr as [-> | ->]; [done|]. by destruct (read_text fs p1).
Qed.

Lemma scan_keeps_unreadable_pair_witness :
  let files1 := listing project [str "old"] in
  let files2 := listing project [str "new"] in
  read_text project [str "old"; str "data.bin"] = Raised
  ∧ ∃ pairs,
      scan_files (has_significant_changes (1 # 20)) project files1 files2 []
      = Returned pairs
      ∧ (Some [str "old"; str "data.bin"], Some [str "new"; str "data.bin"],
         [str "data.bin"]) ∈ pairs.
Proof.
  intros files1 files2.
  assert (files1 !! [str "data.bin"] = Some [str "old"; str "data.bin"]) as Hf1
    by (vm_compute; reflexivity).
  assert (files2 !! [str "data.bin"] = Some [str "new"; str "data.bin"]) as Hf2
    by (vm_compute; reflexivity).
  assert (read_text project [str "old"; str "data.bin"] = Raised) as Hr1
    by (vm_compute; reflexivity).
  exact (conj Hr1
           (scan_keeps_unreadable_pair (has_significant_changes (1 # 20))
              project files1 files2 [str "data.bin"] _ _ Hf1 Hf2
              (or_introl Hr1))).
Defined.


(** X12: a directory scanned against itself gives the files of it that
    cannot be read, and nothing else. *)
Theorem scan_of_a_directory_against_itself
    (classify : list N → list N → bool) (fs : node) (base : list (list N))
    (files : gmap (list (list N)) (list (list N)))
    (pairs : list (option (list (list N)) * option (list (list N)) * list (list N)))
    (f1 f2 : option (list (list N))) (rel : list (list N)) :
  list_files fs base = Returned files →
  scan_files classify fs files files [] = Returned pairs →
  (f1, f2, rel) ∈ pairs
  ↔ is_Some (files !! rel)
    ∧ f1 = Some (base ++ rel) ∧ f2 = Some (base ++ rel)
    ∧ read_text fs (base ++ rel) = Raised.
Proof.
  intros [_ ->]%list_files_Returned Hscan.
  rewrite (elem_of_scan_files _ _ _ _ _ _ _ _ Hscan).
  unfold retained. rewrite listing_lookup.
  case_bool_decide as Hrel.
  - destruct (read_text fs (base ++ rel)) as [content|] eqn:Hread.
    + rewrite bool_decide_false by naive_solver. cbn [andb]. naive_solver.
    + naive_solver.
  - split.
    + by intros (_ & _ & [[? ?]|[? ?]] & _).
    + by intros ([? ?] & _).
Qed.

Lemma scan_of_a_directory_against_itself_witness :
  let files := listing project [str "old"] in
  let unreadable := Some [str "old"; str "data.bin"] in
  list_files project [str "old"] = Returned files
  ∧ scan_files (has_significant_changes (1 # 20)) project files files []
    = Returned [(unreadable, unreadable, [str "data.bin"])]
  ∧ ((Some [str "old"; str "main.py"], Some [str "old"; str "main.py"],
      [str "main.py"]) ∈ [(unreadable, unreadable, [str "data.bin"])]
     ↔ is_Some (files !! [str "main.py"])
       ∧ Some [str "old"; str "main.py"] = Some ([str "old"] ++ [str "main.py"])
       ∧ Some [str "old"; str "main.py"] = Some ([str "old"] ++ [str "main.py"])
       ∧ read_text project ([str "old"] ++ [str "main.py"]) = Raised).
Proof.
  intros files unreadable.
  assert (list_files project [str "old"] = Returned files) as Hfiles
    by reflexivity.
  assert (scan_files (has_significant_changes (1 # 20)) project files files []
          = Returned [(unreadable, unreadable, [str "data.bin"])]) as Hscan
    by (vm_compute; reflexivity).
  exact (conj Hfiles (conj Hscan
           (scan_of_a_directory_against_itself (has_significant_changes (1 # 20))
              project [str "old"] files _ (Some [str "old"; str "main.py"])
              (Some [str "old"; str "main.py"]) [str "main.py"] Hfiles Hscan))).
Defined.

(** * Navigation *)

(** [prev_file] *)
Definition prev_file (fs : node) (self : viewer) : outcome viewer :=
  if 0 <? current_index self
  then load_file_pair fs self (current_index self - 1)
  else Returned self.

(** [next_file]; [len(self.file_pairs) - 1] is -1 when there is no pair. *)
Definition next_file (fs : node) (self : viewer) : outcome viewer :=
  if (Z.of_nat (current_index self)
      <? Z.of_nat (length (file_pairs self)) - 1)%Z
  then load_file_pair fs self (current_index self + 1)
  else Returned self.

(** [on_file_selected]; [current] is the index that the combo box
    reports, -1 when nothing is selected. *)
Definition on_file_selected (fs : node) (self : viewer) (current : Z)
    : outcome viewer :=
  if (0 <=? current)%Z then load_file_pair fs self (Z.to_nat current)
  else Returned self.

(** What the user does with the navigation bar. *)
Inductive command :=
  | Prev
  | Next
  | Select (current : Z).

Definition run (fs : node) (self : viewer) (c : command) : outcome viewer :=
  match c with
  | Prev => prev_file fs self
  | Next => next_file fs self
  | Select current => on_file_selected fs self current
  end.

Fixpoint run_all (fs : node) (self : viewer) (cs : list command)
    : outcome viewer :=
  match cs with
  | [] => Returned self
  | c :: cs' => self' ← run fs self c; run_all fs self' cs'
  end.

(** The file that [save_left] writes (lines 287 and 288); the subscript
    raises when there is no pair. *)
Definition save_left_target (self : viewer) : outcome (list (list N)) :=
  match file_pairs self !! current_index self with
  | Some (f1, _, rel) => Returned (default (dir1 self ++ rel) f1)
  | None => Raised
  end.

(** The file that [save_right] writes (lines 294 and 295). *)
Definition save_right_target (self : viewer) : outcome (list (list N)) :=
  match file_pairs self !! current_index self with
  | Some (_, f2, rel) => Returned (default (dir2 self ++ rel) f2)
  | None => Raised
  end.

(** The viewer shows the pair at [current_index]: the contents that it
    holds are those of the two files and the tags are those of their
    comparison. Without pairs it is as [__init__] leaves it. *)
Definition shows (fs : node) (self : viewer) : Prop :=
  match file_pairs self !! current_index self with
  | Some (f1, f2, rel) =>
      read_side fs f1 = Returned (original_left self)
      ∧ read_side fs f2 = Returned (original_right self)
      ∧ tags self = highlight_diff (original_left self) (original_right self)
  | None =>
      file_pairs self = [] ∧ current_index self = 0
      ∧ original_left self = [] ∧ original_right self = []
      ∧ tags self = Marks [] [] false false
  end.

(** What no command changes. *)
Definition same_session (s s' : viewer) : Prop :=
  dir1 s' = dir1 s ∧ dir2 s' = dir2 s ∧ file_pairs s' = file_pairs s
  ∧ min_change_threshold s' = min_change_threshold s.

Lemma load_file_pair_shows fs self index self' :
  shows fs self → load_file_pair fs self index = Returned self' →
  shows fs self' ∧ same_session self self'.
Proof.
  unfold load_file_pair. intros Hs.
  destruct (file_pairs self !! index) as [[[f1 f2] rel]|] eqn:Hpair.
  - destruct (read_side fs f1) as [c1|] eqn:H1; [|done].
    destruct (read_side fs f2) as [c2|] eqn:H2; [|done].
    cbn. intros [= <-]. split; [|done]. unfold shows. cbn. by rewrite Hpair.
  - by intros [= <-].
Qed.

Lemma run_shows fs self c self' :
  shows fs self → run fs self c = Returned self' →
  shows fs self' ∧ same_session self self'.
Proof.
  intros Hs. destruct c as [| |current]; cbn [run];
    unfold prev_file, next_file, on_file_selected.
  - destruct (0 <? _); [by apply load_file_pair_shows|]. by intros [= <-].
  - destruct (_ <? _)%Z; [by apply load_file_pair_shows|]. by intros [= <-].
  - destruct (0 <=? _)%Z; [by apply load_file_pair_shows|]. by intros [= <-].
Qed.

Lemma run_all_shows fs cs : ∀ self self',
  shows fs self → run_all fs self cs = Returned self' →
  shows fs self' ∧ same_session self self'.
Proof.
  induction cs as [|c cs IH]; intros self self' Hs.
  { by intros [= <-]. }
  cbn [run_all]. destruct (run fs self c) as [self1|] eqn:Hrun; [|done].
  cbn. intros Hrest.
  destruct (run_shows _ _ _ _ Hs Hrun) as (Hs1 & ? & ? & ? & ?).
  destruct (IH _ _ Hs1 Hrest) as (Hs' & ? & ? & ? & ?).
  split; [done|]. unfold same_session. split_and!; congruence.
Qed.

Lemma scan_directories_spec fs self :
  fsencodable (dir1 self) = true → fsencodable (dir2 self) = true →
  scan_directories fs self
  = Returned
      (Viewer (dir1 self) (dir2 self)
         (file_pairs self
          ++ (pair_of (listing fs (dir1 self)) (listing fs (dir2 self))
              <$> filter (λ rel, retained
                                   (has_significant_changes (min_change_threshold self))
                                   fs (listing fs (dir1 self))
                                   (listing fs (dir2 self)) rel = true)
                         (all_paths (listing fs (dir1 self))
                                    (listing fs (dir2 self)))))
         (current_index self) (original_left self) (original_right self)
         (min_change_threshold self) (tags self)).
Proof.
  intros E1 E2. unfold scan_directories, list_files, scan_files.
  rewrite E1, E2. cbn [mbind outcome_bind]. by rewrite scan_paths_spec.
Qed.

Lemma init_shows fs d1 d2 threshold self :
  init fs d1 d2 threshold = Returned self →
  shows fs self
  ∧ dir1 self = d1 ∧ dir2 self = d2 ∧ min_change_threshold self = threshold
  ∧ scan_files (has_significant_changes threshold) fs
      (listing fs d1) (listing fs d2) [] = Returned (file_pairs self).
Proof.
  unfold init.
  destruct (fsencodable d1) eqn:E1;
    [|by unfold scan_directories, list_files; cbn [dir1]; rewrite E1].
  destruct (fsencodable d2) eqn:E2;
    [|by unfold scan_directories, list_files; cbn [dir1 dir2]; rewrite E1, E2].
  rewrite scan_directories_spec by done. rewrite scan_files_spec.
  cbn [mbind outcome_bind file_pairs app dir1 dir2 min_change_threshold].
  set (pairs := _ <$> _). clearbody pairs.
  destruct pairs as [|[[f1 f2] rel] pairs].
  - intros [= <-]. by cbn.
  - unfold load_file_pair. cbn [file_pairs lookup list_lookup].
    destruct (read_side fs f1) as [c1|] eqn:H1; [|done].
    destruct (read_side fs f2) as [c2|] eqn:H2; [|done].
    cbn. intros [= <-]. unfold shows. by cbn.
Qed.

(** Two versions of a directory of drafts, the pairs that the scan finds
    in them, and the viewer on the first and on the second pair. *)
Definition drafts : node :=
  Dir [(str "v1",
        Dir [(str "a.txt", File (Some (str "one" ++ [LF])));
             (str "b.txt", File (Some (str "two" ++ [LF])))]);
       (str "v2",
        Dir [(str "a.txt", File (Some (str "one" ++ [LF] ++ str "more" ++ [LF])));
             (str "c.txt", File (Some (str "three" ++ [LF])))])].

Definition drafts_pairs
    : list (option (list (list N)) * option (list (list N)) * list (list N)) :=
  [(Some [str "v1"; str "a.txt"], Some [str "v2"; str "a.txt"], [str "a.txt"]);
   (Some [str "v1"; str "b.txt"], None, [str "b.txt"]);
   (None, Some [str "v2"; str "c.txt"], [str "c.txt"])].

Definition drafts_first : viewer :=
  Viewer [str "v1"] [str "v2"] drafts_pairs 0
         (str "one" ++ [LF]) (str "one" ++ [LF] ++ str "more" ++ [LF])
         (1 # 20) (Marks [] [2] false false).

Definition drafts_second : viewer :=
  Viewer [str "v1"] [str "v2"] drafts_pairs 1
         (str "two" ++ [LF]) [] (1 # 20) (Marks [] [] true false).

Example drafts_init :
  init drafts [str "v1"] [str "v2"] (1 # 20) = Returned drafts_first.
Proof. vm_compute. reflexivity. Qed.

(** X13: from [__init__] on and through any sequence of previous, next
    and select commands, as long as no read raises, the viewer shows the
    pair at [current_index], that index stays inside [file_pairs], and
    the pairs, the roots and the threshold stay those of the scan. *)
Theorem navigation_keeps_the_viewer_in_step (fs : node)
    (d1 d2 : list (list N)) (threshold : Q) (cs : list command)
    (self0 self : viewer) :
  init fs d1 d2 threshold = Returned self0 →
  run_all fs self0 cs = Returned self →
  shows fs self
  ∧ (file_pairs self ≠ [] → current_index self < length (file_pairs self))
  ∧ file_pairs self = file_pairs self0
  ∧ dir1 self = d1 ∧ dir2 self = d2 ∧ min_change_threshold self = threshold.
Proof.
  intros (Hs0 & Hd1 & Hd2 & Ht & _)%init_shows Hrun.
  destruct (run_all_shows _ _ _ _ Hs0 Hrun) as (Hs & ? & ? & ? & ?).
  split_and!; [done| |congruence..].
  intros Hne. unfold shows in Hs.
  destruct (file_pairs self !! current_index self) eqn:Hpair.
  - by eapply lookup_lt_Some.
  - by destruct Hs.
Qed.

Lemma navigation_keeps_the_viewer_in_step_witness :
  let cs := [Next; Next; Next; Prev; Select (-1); Select 0; Select 1] in
  init drafts [str "v1"] [str "v2"] (1 # 20) = Returned drafts_first
  ∧ run_all drafts drafts_first cs = Returned drafts_second
  ∧ shows drafts drafts_second
  ∧ (file_pairs drafts_second ≠ [] →
     current_index drafts_second < length (file_pairs drafts_second))
  ∧ file_pairs drafts_second = file_pairs drafts_first
  ∧ dir1 drafts_second = [str "v1"] ∧ dir2 drafts_second = [str "v2"]
  ∧ min_change_threshold drafts_second = 1 # 20.
Proof.
  intros cs.
  assert (run_all drafts drafts_first cs = Returned drafts_second) as Hrun
    by (vm_compute; reflexivity).
  exact (conj drafts_init (conj Hrun
           (navigation_keeps_the_viewer_in_step drafts [str "v1"] [str "v2"]
              (1 # 20) cs drafts_first drafts_second drafts_init Hrun))).
Defined.


(** X14: where there is a next pair and its files can be read,
    [next_file] moves to it and [prev_file] then brings the viewer back
    as it was. *)
Theorem next_file_then_prev_file (fs : node) (self self' : viewer) :
  shows fs self →
  current_index self + 1 < length (file_pairs self) →
  next_file fs self = Returned self' →
  current_index self' = current_index self + 1
  ∧ prev_file fs self' = Returned self.
Proof.
  intros Hs Hlt. unfold next_file.
  rewrite (proj2 (Z.ltb_lt _ _)) by lia. unfold load_file_pair.
  destruct (lookup_lt_is_Some_2 (file_pairs self) _ Hlt) as [[[f1 f2] rel] Hpair].
  rewrite Hpair.
  destruct (read_side fs f1) as [c1|]; [|done].
  destruct (read_side fs f2) as [c2|]; [|done].
  cbn. intros [= <-]. split; [done|].
  unfold prev_file. cbn [current_index].
  rewrite (proj2 (Nat.ltb_lt _ _)) by lia.
  replace (current_index self + 1 - 1) with (current_index self) by lia.
  unfold load_file_pair. cbn [file_pairs dir1 dir2 min_change_threshold].
  unfold shows in Hs.
  destruct (file_pairs self !! current_index self) as [[[g1 g2] rel']|] eqn:Hcur.
  - destruct Hs as (-> & -> & Htags). cbn. rewrite <-Htags. by destruct self.
  - apply lookup_ge_None in Hcur. lia.
Qed.

Lemma next_file_then_prev_file_witness :
  shows drafts drafts_first
  ∧ next_file drafts drafts_first = Returned drafts_second
  ∧ current_index drafts_second = current_index drafts_first + 1
  ∧ prev_file drafts drafts_second = Returned drafts_first.
Proof.
  assert (shows drafts drafts_first) as Hshows
    by (vm_compute; repeat split; reflexivity).
  assert (next_file drafts drafts_first = Returned drafts_second) as Hnext
    by (vm_compute; reflexivity).
  exact (conj Hshows (conj Hnext
           (next_file_then_prev_file drafts drafts_first drafts_second Hshows
              (le_S 2 2 (le_n 2) : current_index drafts_first + 1
                                   < length (file_pairs drafts_first))
              Hnext))).
Defined.


(** X15: [save_left] writes below the first root and [save_right] below
    the second one, at the relative path of the pair that is shown,
    whether or not that side of the pair was present; without pairs both
    raise. *)
Theorem save_targets (fs : node) (d1 d2 : list (list N)) (threshold : Q)
    (cs : list command) (self0 self : viewer) :
  init fs d1 d2 threshold = Returned self0 →
  run_all fs self0 cs = Returned self →
  match file_pairs self !! current_index self with
  | Some (f1, f2, rel) =>
      save_left_target self = Returned (d1 ++ rel)
      ∧ save_right_target self = Returned (d2 ++ rel)
      ∧ (f1 = None ∨ f1 = Some (d1 ++ rel))
      ∧ (f2 = None ∨ f2 = Some (d2 ++ rel))
  | None =>
      file_pairs self = []
      ∧ save_left_target self = Raised ∧ save_right_target self = Raised
  end.
Proof.
  intros (Hs0 & Hd1 & Hd2 & Ht & Hscan)%init_shows Hrun.
  destruct (run_all_shows _ _ _ _ Hs0 Hrun) as (Hs & Hd1' & Hd2' & Hp & _).
  unfold save_left_target, save_right_target. unfold shows in Hs.
  destruct (file_pairs self !! current_index self) as [[[f1 f2] rel]|] eqn:Hpair.
  - assert ((f1, f2, rel) ∈ file_pairs self0) as Hin
      by (rewrite <-Hp; by eapply list_elem_of_lookup_2).
    apply (elem_of_scan_files _ _ _ _ _ _ _ _ Hscan) in Hin
      as (Hf1 & Hf2 & _ & _).
    rewrite listing_lookup in Hf1, Hf2.
    rewrite Hd1', Hd2', Hd1, Hd2.
    destruct (bool_decide (rel ∈ walked fs d1)), (bool_decide (rel ∈ walked fs d2));
      subst f1 f2; cbn; naive_solver.
  - by destruct Hs as (-> & _).
Qed.

Lemma save_targets_witness :
  init drafts [str "v1"] [str "v2"] (1 # 20) = Returned drafts_first
  ∧ run_all drafts drafts_first [Next] = Returned drafts_second
  ∧ save_left_target drafts_second = Returned [str "v1"; str "b.txt"]
  ∧ save_right_target drafts_second = Returned [str "v2"; str "b.txt"].
Proof.
  assert (run_all drafts drafts_first [Next] = Returned drafts_second) as Hrun
    by (vm_compute; reflexivity).
  pose proof (save_targets drafts [str "v1"] [str "v2"] (1 # 20) [Next]
                drafts_first drafts_second drafts_init Hrun) as Htargets.
  exact (conj drafts_init (conj Hrun
           (conj (proj1 Htargets) (proj1 (proj2 Htargets))))).
Defined.


(** A side of a pair that is not there: the pair has no file on that
    side, or the file is gone since the scan. *)
Definition absent (fs : node) (f : option (list (list N))) : Prop :=
  match f with
  | Some p => lookup_node fs p = None
  | None => True
  end.

Lemma read_side_absent fs f : absent fs f → read_side fs f = Returned [].
Proof.
  destruct f as [p|]; [|done]. unfold absent, read_side, exists_. intros ->.
  rewrite bool_decide_false; [done|]. by intros [? ?].
Qed.

(** X16: [load_file_pair] does not raise on a side that is absent or
    gone: it shows the empty text there and tags the whole other side as
    ['missing'], unless the other side is empty too. *)
Theorem load_file_pair_of_an_absent_side (fs : node) (self : viewer)
    (index : nat) (f1 f2 : option (list (list N))) (rel : list (list N))
    (content : list N) :
  file_pairs self !! index = Some (f1, f2, rel) →
  (absent fs f1 ∧ read_side fs f2 = Returned content →
   load_file_pair fs self index
   = Returned (Viewer (dir1 self) (dir2 self) (file_pairs self) index
                      [] content (min_change_threshold self)
                      (Marks [] [] false (truthy content))))
  ∧ (read_side fs f1 = Returned content ∧ absent fs f2 →
     load_file_pair fs self index
     = Returned (Viewer (dir1 self) (dir2 self) (file_pairs self) index
                        content [] (min_change_threshold self)
                        (Marks [] [] (truthy content) false))).
Proof.
  intros Hpair. unfold load_file_pair. rewrite Hpair. split.
  - intros [->%read_side_absent ->]. cbn. by destruct content.
  - intros [-> ->%read_side_absent]. cbn. by destruct content.
Qed.

Lemma load_file_pair_of_an_absent_side_witness :
  file_pairs drafts_first !! 1
  = Some (Some [str "v1"; str "b.txt"], None, [str "b.txt"])
  ∧ load_file_pair drafts drafts_first 1
    = Returned (Viewer [str "v1"] [str "v2"] drafts_pairs 1 (str "two" ++ [LF]) []
                       (1 # 20) (Marks [] [] true false)).
Proof.
  assert (file_pairs drafts_first !! 1
          = Some (Some [str "v1"; str "b.txt"], None, [str "b.txt"])) as Hpair
    by reflexivity.
  assert (read_side drafts (Some [str "v1"; str "b.txt"])
          = Returned (str "two" ++ [LF])) as Hread by (vm_compute; reflexivity).
  exact (conj Hpair
           (proj2 (load_file_pair_of_an_absent_side drafts drafts_first 1
                     (Some [str "v1"; str "b.txt"]) None [str "b.txt"]
                     (str "two" ++ [LF]) Hpair)
                  (conj Hread I))).
Defined.

(** * The text widgets *)

(** The text of the two widgets, [get('1.0', 'end-1c')]. *)
Record widgets := Widgets {
  left_text : list N;
  right_text : list N
}.

Definition set_tags (self : viewer) (t : marks) : viewer :=
  Viewer (dir1 self) (dir2 self) (file_pairs self) (current_index self)
         (original_left self) (original_right self)
         (min_change_threshold self) t.

(** [copy_left_to_right] *)
Definition copy_left_to_right (self : viewer) (w : widgets)
    : viewer * widgets :=
  let content := left_text w in
  (set_tags self (highlight_diff content content),
   Widgets (left_text w) content).

(** [copy_right_to_left] *)
Definition copy_right_to_left (self : viewer) (w : widgets)
    : viewer * widgets :=
  let content := right_text w in
  (set_tags self (highlight_diff content content),
   Widgets content (right_text w)).

(** X17: after [copy_left_to_right] both widgets hold the text of the
    left one and no line carries a ['diff'] or ['missing'] tag, whatever
    the text is; [copy_right_to_left] does the same with the text of the
    right one. The contents that the viewer remembers are not touched. *)
Theorem copy_leaves_equal_texts_without_tags (self : viewer) (w : widgets) :
  let '(self1, w1) := copy_left_to_right self w in
  let '(self2, w2) := copy_right_to_left self w in
  left_text w1 = left_text w ∧ right_text w1 = left_text w
  ∧ left_text w2 = right_text w ∧ right_text w2 = right_text w
  ∧ tags self1 = Marks [] [] false false
  ∧ tags self2 = Marks [] [] false false
  ∧ original_left self1 = original_left self
  ∧ original_right self1 = original_right self
  ∧ original_left self2 = original_left self
  ∧ original_right self2 = original_right self.
Proof.
  unfold copy_left_to_right, copy_right_to_left. cbn.
  rewrite !highlight_diff_same. done.
Qed.

(** * Two sequences of which one begins with the other *)

Section common_prefix.
Context {A : Type} `{Countable A}.
Variables a b : list A.
Hypothesis Hab : ∀ i, i < length a → i < length b → a !! i = b !! i.

(** The element at index [i] of the longer sequence. *)
Definition elt_at (i : nat) : option A :=
  match a !! i with
  | Some x => Some x
  | None => b !! i
  end.

(** Whether the element at index [i] is kept in [b2j] (is not popular). *)
Definition kept2 (i : nat) : bool :=
  match elt_at i with
  | Some x => bool_decide (is_Some (b2j b !! x))
  | None => false
  end.

(** The number of consecutive kept elements that end just before [e]. *)
Fixpoint run2 (e : nat) : nat :=
  match e with
  | 0 => 0
  | S e' => if kept2 e' then S (run2 e') else 0
  end.

Lemma elt_at_a i x : a !! i = Some x → elt_at i = Some x.
Proof. unfold elt_at. by intros ->. Qed.

Lemma elt_at_b j x : b !! j = Some x → elt_at j = Some x.
Proof.
  intros Hj. unfold elt_at. destruct (a !! j) as [y|] eqn:Hy; [|done].
  rewrite Hab in Hy by (by eapply lookup_lt_Some). congruence.
Qed.

Lemma b2j_default x :
  default [] (b2j b !! x)
  = if bool_decide (is_Some (b2j b !! x)) then indices x b else [].
Proof.
  case_bool_decide as Hs.
  - destruct Hs as [js Hjs]. rewrite Hjs. simpl.
    by apply b2j_lookup_Some in Hjs as [-> _].
  - destruct (b2j b !! x); [|done]. exfalso. apply Hs. eauto.
Qed.

Definition prefix_inv (e : nat) (st : gmap nat nat * (nat * nat * nat)) : Prop :=
  (∀ j k, st.1 !! j = Some k → k ≤ run2 e ∧ k ≤ run2 (S j))
  ∧ (e ≤ length b → prev st.1 e = run2 e)
  ∧ st.2.1.1 = st.2.1.2
  ∧ ∀ t, t ≤ e → t ≤ length b → run2 t ≤ st.2.2.

Lemma prev_le2 e j2len j :
  (∀ j k, j2len !! j = Some k → k ≤ run2 e ∧ k ≤ run2 (S j)) →
  prev j2len j ≤ run2 e ∧ prev j2len j ≤ run2 j.
Proof.
  intros HA. destruct j as [|j']; simpl; [lia|].
  destruct (j2len !! j') as [k|] eqn:Hk; simpl; [|lia].
  apply HA in Hk. simpl in Hk. done.
Qed.

Lemma prefix_step i st :
  i < length a → prefix_inv i st →
  prefix_inv (i + 1) (flm_step a b 0 (length b) st i).
Proof.
  intros Hi (HA & HB & HC & HD). destruct st as [j2len [[bi bj] bs]].
  simpl in HA, HB, HC, HD. subst bj.
  destruct (lookup_lt_is_Some_2 a i Hi) as [x Hx].
  unfold flm_step. rewrite Hx, b2j_default. cbn [fst snd].
  rewrite Nat.add_1_r.
  assert (kept2 i = bool_decide (is_Some (b2j b !! x))) as Hki
    by (unfold kept2; by rewrite (elt_at_a i x Hx)).
  rewrite <-Hki.
  destruct (kept2 i) eqn:Hkept.
  2:{ simpl. unfold prefix_inv. simpl. rewrite Hkept. split_and!.
      - intros j k. by rewrite lookup_empty.
      - by rewrite lookup_empty.
      - done.
      - intros t Ht Htb. destruct (decide (t = S i)) as [->|].
        + simpl. rewrite Hkept. lia.
        + apply HD; lia. }
  assert (∀ j, b !! j = Some x → run2 (S j) = S (run2 j)) as Hrun.
  { intros j Hj. simpl. unfold kept2 at 1. rewrite (elt_at_b j x Hj).
    by rewrite <-Hki. }
  assert (run2 (S i) = S (run2 i)) as Hri by (simpl; by rewrite Hkept).
  assert (∀ j, prev j2len j ≤ run2 i ∧ prev j2len j ≤ run2 j) as Hprev.
  { intros j. by apply prev_le2. }
  destruct (decide (i < length b)) as [Hib|Hib].
  - (* the row crosses the diagonal *)
    assert (b !! i = Some x) as Hbx by (by rewrite <-Hab).
    set (P := λ j, b !! j = Some x).
    rewrite (indices_split b i x Hbx). fold P.
    set (lt := filter P (seq 0 i)).
    set (gt := filter P (seq (S i) (length b - S i))).
    assert (∀ j, j ∈ lt → j < i ∧ b !! j = Some x) as Hlt.
    { intros j [? ?%elem_of_seq]%list_elem_of_filter. split; [lia|done]. }
    assert (∀ j, j ∈ gt → i < j < length b ∧ b !! j = Some x) as Hgt.
    { intros j [? ?%elem_of_seq]%list_elem_of_filter. split; [lia|done]. }
    rewrite flm_row_app by (intros j [??]%Hlt; lia).
    destruct (flm_row_noupdate i (length b) j2len lt ∅ (bi, bi, bs)) as [Hb1 Hm1].
    { intros j [Hj Hjx]%Hlt. split; [lia|]. simpl.
      pose proof (Hprev j). pose proof (Hrun j Hjx).
      pose proof (HD (S j) ltac:(lia) ltac:(lia)). lia. }
    rewrite Hb1.
    set (m1 := (flm_row i 0 (length b) j2len lt ∅ (bi, bi, bs)).1) in *.
    rewrite (flm_row_app i (length b) j2len [i] gt)
      by (intros j ->%list_elem_of_singleton; lia).
    rewrite flm_row_single by lia. cbn [fst snd]. rewrite HB by lia.
    replace (run2 i + 1) with (run2 (S i)) by lia.
    set (r := run2 (S i)) in *.
    set (best2 := if bs <? r then (i + 1 - r, i + 1 - r, r) else (bi, bi, bs)).
    assert (best2.1.1 = best2.1.2 ∧ r ≤ best2.2 ∧ bs ≤ best2.2) as (Hd2 & Hr2 & Hs2).
    { subst best2. destruct (bs <? r) eqn:E; simpl.
      - apply Nat.ltb_lt in E. lia.
      - apply Nat.ltb_ge in E. lia. }
    destruct (flm_row_noupdate i (length b) j2len gt (<[i := r]> m1) best2)
      as [Hb3 Hm3].
    { intros j [Hj Hjx]%Hgt. split; [lia|]. pose proof (Hprev j). lia. }
    unfold prefix_inv. rewrite Hb3. split_and!; [|  |done|].
    + intros j k. rewrite Hm3. destruct (decide (j ∈ gt)) as [Hin|Hin].
      * intros [= <-]. destruct (Hgt j Hin) as [_ Hjx].
        pose proof (Hprev j). pose proof (Hrun j Hjx). fold r. lia.
      * destruct (decide (i = j)) as [<-|Hne].
        -- rewrite lookup_insert_eq. intros [= <-]. fold r. lia.
        -- rewrite lookup_insert_ne by done. subst m1. rewrite Hm1.
           destruct (decide (j ∈ lt)) as [Hin'|Hin']; [|by rewrite lookup_empty].
           intros [= <-]. destruct (Hlt j Hin') as [_ Hjx].
           pose proof (Hprev j). pose proof (Hrun j Hjx). fold r. lia.
    + intros _. simpl. rewrite Hm3. rewrite decide_False.
      * by rewrite lookup_insert_eq.
      * intros [? _]%Hgt. lia.
    + intros t Ht Htb. destruct (decide (t = S i)) as [->|]; [done|].
      pose proof (HD t). lia.
  - (* the row is below the last column *)
    assert (∀ j, j ∈ indices x b → j < length b ∧ b !! j = Some x) as Hjs.
    { unfold indices. intros j [? ?%elem_of_seq]%list_elem_of_filter.
      split; [lia|done]. }
    destruct (flm_row_noupdate i (length b) j2len (indices x b) ∅ (bi, bi, bs))
      as [Hb1 Hm1].
    { intros j [Hj Hjx]%Hjs. split; [lia|]. simpl.
      pose proof (Hprev j). pose proof (Hrun j Hjx).
      pose proof (HD (S j) ltac:(lia) ltac:(lia)). lia. }
    unfold prefix_inv. rewrite Hb1. split_and!; [| |done|].
    + intros j k. rewrite Hm1.
      destruct (decide (j ∈ indices x b)) as [Hin|Hin]; [|by rewrite lookup_empty].
      intros [= <-]. destruct (Hjs j Hin) as [_ Hjx].
      pose proof (Hprev j). pose proof (Hrun j Hjx). lia.
    + intros ?. lia.
    + intros t Ht Htb. apply HD; lia.
Qed.

Lemma prefix_loop :
  prefix_inv (length a)
    (foldl (flm_step a b 0 (length b)) (∅, (0, 0, 0)) (seq 0 (length a - 0))).
Proof.
  rewrite Nat.sub_0_r.
  apply (foldl_seq_invariant prefix_inv (flm_step a b 0 (length b)) _ 0 (length a)).
  - unfold prefix_inv. simpl. split_and!; try done.
    intros t ? ?. by replace t with 0 by lia.
  - intros i st Hi. apply prefix_step. lia.
Qed.

Lemma elt_eqb_prefix i : i < length a → i < length b → elt_eqb a b i i = true.
Proof.
  intros Hia Hib. destruct (lookup_lt_is_Some_2 a i Hia) as [x Hx].
  apply elt_eqb_true. exists x. split; [done|]. by rewrite <-Hab.
Qed.

Lemma extend_back_prefix d : ∀ s,
  d ≤ length a → d ≤ length b → extend_back a b false 0 0 d d s = (0, 0, s + d).
Proof.
  induction d as [|d IH]; intros s Hda Hdb; [simpl; f_equal; lia|].
  simpl. rewrite elt_eqb_prefix by lia.
  destruct (b !! d); simpl; rewrite IH by lia; f_equal; lia.
Qed.

Lemma extend_fwd_prefix n : ∀ s,
  s ≤ length a `min` length b → length a `min` length b - s ≤ n →
  extend_fwd a b false n (length a) (length b) 0 0 s = length a `min` length b.
Proof.
  induction n as [|n IH]; intros s Hs Hn; [simpl; lia|].
  simpl. destruct (decide (s < length a `min` length b)) as [Hlt|Hge].
  - rewrite elt_eqb_prefix by lia.
    assert ((s <? length a) = true) as -> by (apply Nat.ltb_lt; lia).
    assert ((s <? length b) = true) as -> by (apply Nat.ltb_lt; lia).
    destruct (b !! s); simpl; apply IH; lia.
  - destruct (s <? length a) eqn:Ea, (s <? length b) eqn:Eb; simpl;
      try lia.
    apply Nat.ltb_lt in Ea, Eb. lia.
Qed.

Lemma extend_back_no_junk alo blo besti bestj bestsize :
  extend_back a b true alo blo besti bestj bestsize = (besti, bestj, bestsize).
Proof.
  destruct besti, bestj; simpl; try done.
  destruct (b !! bestj); simpl; by rewrite ?andb_false_r.
Qed.

Lemma extend_fwd_no_junk n ahi bhi besti bestj bestsize :
  extend_fwd a b true n ahi bhi besti bestj bestsize = bestsize.
Proof.
  destruct n; simpl; [done|].
  destruct (b !! (bestj + bestsize)); simpl; by rewrite ?andb_false_r.
Qed.

(** The longest block is the whole of the shorter sequence, popular
    elements or not. *)
Lemma find_longest_match_prefix :
  find_longest_match a b 0 (length a) 0 (length b)
  = (0, 0, length a `min` length b).
Proof.
  unfold find_longest_match.
  pose proof prefix_loop as (_ & _ & Hdiag & _).
  pose proof (flm_loop_ok a b 0 (length a) 0 (length b) ltac:(lia) ltac:(lia))
    as Hok.
  destruct (foldl _ _ _) as [j2len [[bi bj] bs]]. simpl in Hdiag, Hok. subst bj.
  destruct Hok as (_ & Hle & _ & Hle' & _).
  rewrite extend_back_prefix by lia.
  rewrite extend_fwd_prefix by lia.
  rewrite extend_back_no_junk, extend_fwd_no_junk. done.
Qed.

Lemma mb_loop_empty fuel acc : mb_loop a b fuel [] acc = acc.
Proof. by destruct fuel. Qed.

Lemma get_matching_blocks_prefix :
  get_matching_blocks a b
  = (if length a `min` length b =? 0 then []
     else [(0, 0, length a `min` length b)])
    ++ [(length a, length b, 0)].
Proof.
  unfold get_matching_blocks.
  replace (2 * length a + 1) with (S (2 * length a)) by lia.
  cbn [mb_loop]. rewrite find_longest_match_prefix.
  destruct (length a `min` length b =? 0) eqn:Hn.
  - by rewrite mb_loop_empty.
  - rewrite Nat.ltb_irrefl, !Nat.add_0_l. cbn [andb].
    assert ((length a `min` length b <? length a)
            && (length a `min` length b <? length b) = false) as ->.
    { apply andb_false_iff. rewrite !Nat.ltb_ge. lia. }
    rewrite mb_loop_empty. cbn. by rewrite Hn.
Qed.

Lemma get_opcodes_prefix :
  get_opcodes a b
  = (if length a `min` length b =? 0 then []
     else [(Equal, 0, length a `min` length b, 0, length a `min` length b)])
    ++ (if length b <? length a
        then [(Delete, length b, length a, length b, length b)]
        else if length a <? length b
        then [(Insert, length a, length a, length a, length b)]
        else []).
Proof.
  unfold get_opcodes. rewrite get_matching_blocks_prefix.
  assert (∀ n m : nat, n < m → (n <? m) = true) as Hlt
    by (intros; by apply Nat.ltb_lt).
  assert (∀ n m : nat, m ≤ n → (n <? m) = false) as Hge
    by (intros; by apply Nat.ltb_ge).
  destruct (length a `min` length b =? 0) eqn:Hn.
  - apply Nat.eqb_eq in Hn.
    cbn [foldl opcode_step app snd Nat.eqb].
    destruct (decide (length b < length a)) as [Hba|Hba].
    + assert (length b = 0) as Hb0 by lia. rewrite Hb0 in *.
      rewrite (Hlt 0 (length a)), Nat.ltb_irrefl by lia. done.
    + rewrite (Hge (length b) (length a)) by lia.
      assert (length a = 0) as Ha0 by lia. rewrite Ha0 in *.
      rewrite Nat.ltb_irrefl. cbn [andb]. by destruct (0 <? length b).
  - apply Nat.eqb_neq in Hn.
    cbn [foldl opcode_step app snd]. rewrite !Nat.ltb_irrefl. cbn [andb].
    rewrite (proj2 (Nat.eqb_neq _ 0) Hn). cbn [Nat.eqb app Nat.add].
    destruct (decide (length b < length a)) as [Hba|Hba].
    + replace (length a `min` length b) with (length b) by lia.
      rewrite (Hlt (length b) (length a)), Nat.ltb_irrefl by lia. done.
    + replace (length a `min` length b) with (length a) by lia.
      rewrite (Hge (length b) (length a)) by lia.
      rewrite Nat.ltb_irrefl. cbn [andb]. by destruct (length a <? length b).
Qed.
End common_prefix.

Lemma dump_whole tagc (x : list (list N)) :
  dump tagc x 0 (length x) = (λ line, tagc :: SPACE :: line) <$> x.
Proof. unfold dump. by rewrite Nat.sub_0_r, drop_0, firstn_all. Qed.

Lemma dump_rest tagc (x extra : list (list N)) :
  dump tagc (x ++ extra) (length x) (length x + length extra)
  = (λ line, tagc :: SPACE :: line) <$> extra.
Proof.
  unfold dump. rewrite drop_app_length.
  replace (length x + length extra - length x) with (length extra) by lia.
  by rewrite firstn_all.
Qed.

Lemma dump_first tagc (x extra : list (list N)) :
  dump tagc (x ++ extra) 0 (length x) = (λ line, tagc :: SPACE :: line) <$> x.
Proof. unfold dump. by rewrite Nat.sub_0_r, drop_0, take_app_length. Qed.

(** Lines added at the end are inserted and the rest is common. *)
Lemma compare_appended (a extra : list (list N)) :
  compare a (a ++ extra)
  = ((λ line, SPACE :: SPACE :: line) <$> a)
    ++ ((λ line, PLUS :: SPACE :: line) <$> extra).
Proof.
  unfold compare. rewrite get_opcodes_prefix.
  2:{ intros i Hi _. by rewrite lookup_app_l. }
  rewrite length_app.
  replace (length a `min` (length a + length extra)) with (length a) by lia.
  assert ((length a + length extra <? length a) = false) as ->
    by (apply Nat.ltb_ge; lia).
  rewrite bind_app. f_equal.
  - destruct (length a =? 0) eqn:Hn.
    + apply Nat.eqb_eq in Hn. by destruct a.
    + rewrite bind_singleton. apply dump_whole.
  - destruct (length a <? length a + length extra) eqn:Hlt.
    + rewrite bind_singleton. apply dump_rest.
    + apply Nat.ltb_ge in Hlt. destruct extra; [done|]. simpl in Hlt. lia.
Qed.

(** Lines removed from the end are deleted and the rest is common. *)
Lemma compare_truncated (b extra : list (list N)) :
  compare (b ++ extra) b
  = ((λ line, SPACE :: SPACE :: line) <$> b)
    ++ ((λ line, MINUS :: SPACE :: line) <$> extra).
Proof.
  unfold compare. rewrite get_opcodes_prefix.
  2:{ intros i _ Hi. by rewrite lookup_app_l. }
  rewrite length_app.
  replace ((length b + length extra) `min` length b) with (length b) by lia.
  assert ((length b + length extra <? length b) = false) as ->
    by (apply Nat.ltb_ge; lia).
  rewrite bind_app. f_equal.
  - destruct (length b =? 0) eqn:Hn.
    + apply Nat.eqb_eq in Hn. by destruct b.
    + rewrite bind_singleton. apply dump_first.
  - destruct (length b <? length b + length extra) eqn:Hlt.
    + rewrite bind_singleton. apply dump_rest.
    + apply Nat.ltb_ge in Hlt. destruct extra; [done|]. simpl in Hlt. lia.
Qed.

(** * Text added or removed at the end *)

(** After a final line feed the lines of what follows are split on their
    own. *)
Lemma splitlines_app keepends s s' :
  last s = Some LF →
  splitlines keepends (s ++ s') = splitlines keepends s ++ splitlines keepends s'.
Proof.
  remember (length s) as n eqn:Hn. revert s Hn.
  induction n as [n IH] using lt_wf_ind. intros [|c s] Hn Hlast; [done|].
  destruct s as [|c1 s].
  { cbn in Hlast. injection Hlast as ->. cbn [app].
    rewrite !splitlines_cons. change (is_linebreak LF) with true. cbv iota.
    destruct s' as [|c' s']; [done|].
    rewrite (bool_decide_false (LF = CR)) by done. done. }
  assert (last (c1 :: s) = Some LF) as Hlast1 by done.
  rewrite <-!app_comm_cons, !(splitlines_cons keepends c).
  destruct (is_linebreak c) eqn:Hc.
  - destruct (bool_decide (c = CR) && bool_decide (c1 = LF)) eqn:Hcrlf.
    + destruct s as [|c2 s]; [done|].
      rewrite (IH (length (c2 :: s)) ltac:(simpl in *; lia) (c2 :: s) eq_refl)
        by done.
      done.
    + rewrite !app_comm_cons.
      rewrite (IH (length (c1 :: s)) ltac:(simpl in *; lia) (c1 :: s) eq_refl)
        by done.
      done.
  - rewrite !app_comm_cons.
    rewrite (IH (length (c1 :: s)) ltac:(simpl in *; lia) (c1 :: s) eq_refl)
      by done.
    pose proof (splitlines_cons_nonempty keepends c1 s).
    by destruct (splitlines keepends (c1 :: s)).
Qed.

Lemma changed_common (lines : list (list N)) :
  changed ((λ line, SPACE :: SPACE :: line) <$> lines) = 0.
Proof.
  induction lines as [|line lines IH]; [done|].
  by rewrite fmap_cons, changed_cons, IH.
Qed.

Lemma changed_one_sided (tagc : N) (lines : list (list N)) :
  tagc = PLUS ∨ tagc = MINUS →
  changed ((λ line, tagc :: SPACE :: line) <$> lines) = length lines.
Proof.
  intros Htag. induction lines as [|line lines IH]; [done|].
  rewrite fmap_cons, changed_cons, IH. by destruct Htag as [-> | ->].
Qed.

Lemma highlight_inserted (lines : list (list N)) : ∀ l r lefts rights,
  foldl highlight_step (l, r, lefts, rights)
        ((λ line, PLUS :: SPACE :: line) <$> lines)
  = (l, r + length lines, lefts, rights ++ seq r (length lines)).
Proof.
  induction lines as [|line lines IH]; intros l r lefts rights.
  - simpl. by rewrite Nat.add_0_r, app_nil_r.
  - cbn [fmap list_fmap foldl].
    change (highlight_step (l, r, lefts, rights) _)
      with (l, r + 1, lefts, rights ++ [r]).
    rewrite IH, <-(assoc_L (++)). cbn [length seq app]. rewrite !Nat.add_1_r.
    by replace (S r + length lines) with (r + S (length lines)) by lia.
Qed.

Lemma highlight_deleted (lines : list (list N)) : ∀ l r lefts rights,
  foldl highlight_step (l, r, lefts, rights)
        ((λ line, MINUS :: SPACE :: line) <$> lines)
  = (l + length lines, r, lefts ++ seq l (length lines), rights).
Proof.
  induction lines as [|line lines IH]; intros l r lefts rights.
  - simpl. by rewrite Nat.add_0_r, app_nil_r.
  - cbn [fmap list_fmap foldl].
    change (highlight_step (l, r, lefts, rights) _)
      with (l + 1, r, lefts ++ [l], rights).
    rewrite IH, <-(assoc_L (++)). cbn [length seq app]. rewrite !Nat.add_1_r.
    by replace (S l + length lines) with (l + S (length lines)) by lia.
Qed.

Lemma Qle_div_iff (x y z : Q) : (0 < z)%Q → (x <= y / z)%Q ↔ (x * z <= y)%Q.
Proof.
  intros Hz. split; [|by apply Qle_shift_div_l].
  intros Hle. apply (Qmult_le_compat_r _ _ z) in Hle; [|by apply Qlt_le_weak].
  assert (y / z * z == y)%Q as E; [|by rewrite E in Hle].
  unfold Qdiv. rewrite <-Qmult_assoc, (Qmult_comm (/ z)), Qmult_inv_r.
  - apply Qmult_1_r.
  - intros E. rewrite E in Hz. by apply Qlt_irrefl in Hz.
Qed.

(** X19: when text is added after the final line feed of a content, or
    removed from there, the classifier counts exactly the lines of that
    text as changed, each once, and the ratio is their share of the
    longer content; lines that occur very often make no difference. *)
Theorem appended_lines_are_the_changed_lines (threshold : Q) (c extra : list N) :
  last c = Some LF →
  let added := length (splitlines false extra) in
  let total := length (splitlines false c) + added in
  changed_lines c (c ++ extra) = added
  ∧ changed_lines (c ++ extra) c = added
  ∧ max_lines c (c ++ extra) = total
  ∧ max_lines (c ++ extra) c = total
  ∧ (has_significant_changes threshold c (c ++ extra) = true
     ↔ (threshold * inject_Z (Z.of_nat total) <= inject_Z (Z.of_nat added))%Q)
  ∧ (has_significant_changes threshold (c ++ extra) c = true
     ↔ (threshold * inject_Z (Z.of_nat total) <= inject_Z (Z.of_nat added))%Q).
Proof.
  intros Hlast added total.
  assert (c ≠ []) as Hc by (by destruct c).
  assert (c ++ extra ≠ []) as Hce by (by destruct c).
  assert (changed_lines c (c ++ extra) = added) as E1.
  { rewrite changed_lines_eq, splitlines_app, compare_appended by done.
    rewrite changed_app, changed_common, changed_one_sided by (by left). done. }
  assert (changed_lines (c ++ extra) c = added) as E2.
  { rewrite changed_lines_eq, splitlines_app, compare_truncated by done.
    rewrite changed_app, changed_common, changed_one_sided by (by right). done. }
  assert (max_lines c (c ++ extra) = total) as M1.
  { unfold max_lines. rewrite splitlines_app, length_app by done.
    subst total added. lia. }
  assert (max_lines (c ++ extra) c = total) as M2.
  { unfold max_lines. rewrite splitlines_app, length_app by done.
    subst total added. lia. }
  assert (0 < total) as Hpos.
  { pose proof (splitlines_length_pos false c Hc). subst total. lia. }
  split_and!; try done.
  - rewrite has_significant_changes_nonempty, Qle_bool_iff by done.
    unfold change_ratio. rewrite E1, M1.
    apply Qle_div_iff. by apply inject_nat_pos.
  - rewrite has_significant_changes_nonempty, Qle_bool_iff by done.
    unfold change_ratio. rewrite E2, M2.
    apply Qle_div_iff. by apply inject_nat_pos.
Qed.

Lemma appended_lines_are_the_changed_lines_witness :
  let c := str "a" ++ [LF] ++ str "b" ++ [LF] in
  let extra := str "c" ++ [LF] ++ str "d" in
  last c = Some LF
  ∧ changed_lines c (c ++ extra) = 2
  ∧ changed_lines (c ++ extra) c = 2
  ∧ max_lines c (c ++ extra) = 4
  ∧ max_lines (c ++ extra) c = 4
  ∧ (has_significant_changes (1 # 2) c (c ++ extra) = true
     ↔ ((1 # 2) * inject_Z (Z.of_nat 4) <= inject_Z (Z.of_nat 2))%Q)
  ∧ (has_significant_changes (1 # 2) (c ++ extra) c = true
     ↔ ((1 # 2) * inject_Z (Z.of_nat 4) <= inject_Z (Z.of_nat 2))%Q).
Proof.
  intros c extra.
  exact (conj (eq_refl : last c = Some LF)
           (appended_lines_are_the_changed_lines (1 # 2) c extra eq_refl)).
Defined.


(** X20: for text added after the final line feed of a content,
    [highlight_diff] tags exactly the added lines, on the side that has
    them, and no line of the other side. *)
Theorem appended_lines_are_the_tagged_lines (c extra : list N) :
  last c = Some LF →
  let n := length (splitlines true c) in
  let added := length (splitlines true extra) in
  highlight_diff c (c ++ extra) = Marks [] (seq (1 + n) added) false false
  ∧ highlight_diff (c ++ extra) c = Marks (seq (1 + n) added) [] false false.
Proof.
  intros Hlast n added.
  assert (c ≠ []) as Hc by (by destruct c).
  assert (c ++ extra ≠ []) as Hce by (by destruct c).
  unfold highlight_diff, aligned.
  rewrite !(truthy_true c Hc), !(truthy_true (c ++ extra) Hce). cbn [negb andb].
  rewrite (splitlines_app true c extra Hlast).
  rewrite compare_appended, compare_truncated, !foldl_app.
  rewrite !highlight_equal_lines, highlight_inserted, highlight_deleted.
  done.
Qed.

Lemma appended_lines_are_the_tagged_lines_witness :
  let c := str "a" ++ [LF] ++ str "b" ++ [LF] in
  let extra := str "c" ++ [LF] ++ str "d" in
  last c = Some LF
  ∧ highlight_diff c (c ++ extra) = Marks [] [3; 4] false false
  ∧ highlight_diff (c ++ extra) c = Marks [3; 4] [] false false.
Proof.
  intros c extra.
  exact (conj (eq_refl : last c = Some LF)
           (appended_lines_are_the_tagged_lines c extra eq_refl)).
Defined.
